(** * Flowbit-Builder: the flow graph, its validator, the connection
      admission predicate and the exporters, embedded from the TypeScript
      sources and verified.

    Sources embedded here:
    - [src/utils/validation.ts]      ([validateFlow])
    - [src/components/FlowBuilder.tsx] ([isValidConnection], [generateNodeId],
      [onDrop], [updateNodeText], [initialNodes])
    - [src/utils/exportFlow.ts]      ([getTodayString], [exportFlowAsJSON])
    - [src/utils/exportImage.ts]     ([exportFlowAsImage])
    - [src/types/nodeTypes.ts]       ([FlowNode], [FlowEdge]) *)

From Stdlib Require Import List String Ascii Bool Arith ZArith NArith Lia.
From Stdlib Require Import Permutation.
From Stdlib Require Decimal DecimalN.
Import ListNotations.
Local Open Scope string_scope.

(* ------------------------------------------------------------------ *)
(** ** The graph model ([nodeTypes.ts], React Flow's [Node], [Edge] and
       [Connection]) *)

(** A port id as React Flow stores it on an edge: the field
    [sourceHandle?: string | null] is absent, [null] or a string. *)
Inductive handle : Type :=
| HUndefined
| HNull
| HStr (s : string).

(** JavaScript [===] between an edge's handle and a connection's handle
    ([string | null], [None] standing for [null]). *)
Definition handle_strict_eq (h : handle) (c : option string) : bool :=
  match h, c with
  | HStr s, Some s' => String.eqb s s'
  | HNull, None => true
  | _, _ => false
  end.

(** [===] between two values of type [string | null]. *)
Definition nullable_strict_eq (a b : option string) : bool :=
  match a, b with
  | Some s, Some s' => String.eqb s s'
  | None, None => true
  | _, _ => false
  end.

Module FlowEdge.
(** React Flow's [Edge]: the three exported fields, the two handles read by
    the admission predicate, and two of the runtime-only fields. *)
Record t : Type := mk {
  id : string;
  source : string;
  target : string;
  sourceHandle : handle;
  targetHandle : handle;
  animated : option bool;
  selected : option bool
}.
End FlowEdge.

Module Connection.
(** React Flow's [Connection]: every field is [string | null]. *)
Record t : Type := mk {
  source : option string;
  target : option string;
  sourceHandle : option string;
  targetHandle : option string
}.
End Connection.

(* ------------------------------------------------------------------ *)
(** ** [isValidConnection] ([FlowBuilder.tsx]) *)

(** The callback of [edges.some]: an edge leaving the same source handle. *)
Definition same_source_handle (connection : Connection.t) (e : FlowEdge.t) : bool :=
  nullable_strict_eq (Some (FlowEdge.source e)) (Connection.source connection)
  && handle_strict_eq (FlowEdge.sourceHandle e) (Connection.sourceHandle connection).

(** [isValidConnection]; the [edges] of the closure are a parameter. *)
Definition isValidConnection (edges : list FlowEdge.t) (connection : Connection.t) : bool :=
  if nullable_strict_eq (Connection.source connection) (Connection.target connection)
  then false
  else
    let sourceAlreadyConnected := existsb (same_source_handle connection) edges in
    negb sourceAlreadyConnected.

(* ------------------------------------------------------------------ *)
(** ** JavaScript numbers and their decimal text

    A JavaScript number is NaN, an infinity, a signed zero, or a finite
    non-zero double.  ECMA-262 (Number::toString) describes a finite non-zero
    [x] by the unique integers [n], [k], [s] with [k] as small as possible,
    [10^(k-1) <= s < 10^k] and [x = s * 10^(n-k)].  The model keeps exactly
    that description: the decimal digits of [s] (first and last digit not
    zero, by construction) and the exponent [n].  Every finite double has one
    such description; which decimals are doubles, and the rounding of
    arithmetic, are outside the model. *)

Inductive digit : Type := d0 | d1 | d2 | d3 | d4 | d5 | d6 | d7 | d8 | d9.
Inductive pdigit : Type := p1 | p2 | p3 | p4 | p5 | p6 | p7 | p8 | p9.

Definition digit_of_pdigit (p : pdigit) : digit :=
  match p with
  | p1 => d1 | p2 => d2 | p3 => d3 | p4 => d4 | p5 => d5
  | p6 => d6 | p7 => d7 | p8 => d8 | p9 => d9
  end.

Definition pdigit_of_digit (d : digit) : option pdigit :=
  match d with
  | d0 => None
  | d1 => Some p1 | d2 => Some p2 | d3 => Some p3 | d4 => Some p4 | d5 => Some p5
  | d6 => Some p6 | d7 => Some p7 | d8 => Some p8 | d9 => Some p9
  end.

Definition char_of_digit (d : digit) : ascii :=
  match d with
  | d0 => "0" | d1 => "1" | d2 => "2" | d3 => "3" | d4 => "4"
  | d5 => "5" | d6 => "6" | d7 => "7" | d8 => "8" | d9 => "9"
  end%char.

Definition digit_of_char (c : ascii) : option digit :=
  match c with
  | "0" => Some d0 | "1" => Some d1 | "2" => Some d2 | "3" => Some d3
  | "4" => Some d4 | "5" => Some d5 | "6" => Some d6 | "7" => Some d7
  | "8" => Some d8 | "9" => Some d9
  | _ => None
  end%char.

(** The significant digits [s]: one non-zero digit, or a non-zero first
    digit, any digits, and a non-zero last digit. *)
Inductive mantissa : Type :=
| MOne (d : pdigit)
| MMany (first : pdigit) (middle : list digit) (last : pdigit).

Definition digits (m : mantissa) : list digit :=
  match m with
  | MOne d => [digit_of_pdigit d]
  | MMany f mid l => digit_of_pdigit f :: mid ++ [digit_of_pdigit l]
  end.

Inductive number : Type :=
| NaN
| PosInfinity
| NegInfinity
| Zero (negative : bool)
| Finite (negative : bool) (s : mantissa) (n : Z).

Definition isFinite (x : number) : bool :=
  match x with
  | NaN | PosInfinity | NegInfinity => false
  | Zero _ | Finite _ _ _ => true
  end.

(** [===] on numbers: NaN differs from itself, the two zeros are equal. *)
Definition digit_eqb (a b : digit) : bool :=
  Ascii.eqb (char_of_digit a) (char_of_digit b).

Fixpoint digits_eqb (a b : list digit) : bool :=
  match a, b with
  | [], [] => true
  | x :: a', y :: b' => digit_eqb x y && digits_eqb a' b'
  | _, _ => false
  end.

Definition number_strict_eq (x y : number) : bool :=
  match x, y with
  | PosInfinity, PosInfinity => true
  | NegInfinity, NegInfinity => true
  | Zero _, Zero _ => true
  | Finite a s n, Finite b t m =>
      Bool.eqb a b && digits_eqb (digits s) (digits t) && Z.eqb n m
  | _, _ => false
  end.

Definition string_of_digits (l : list digit) : string :=
  string_of_list_ascii (map char_of_digit l).

Fixpoint digits_of_uint (u : Decimal.uint) : list digit :=
  match u with
  | Decimal.Nil => []
  | Decimal.D0 r => d0 :: digits_of_uint r
  | Decimal.D1 r => d1 :: digits_of_uint r
  | Decimal.D2 r => d2 :: digits_of_uint r
  | Decimal.D3 r => d3 :: digits_of_uint r
  | Decimal.D4 r => d4 :: digits_of_uint r
  | Decimal.D5 r => d5 :: digits_of_uint r
  | Decimal.D6 r => d6 :: digits_of_uint r
  | Decimal.D7 r => d7 :: digits_of_uint r
  | Decimal.D8 r => d8 :: digits_of_uint r
  | Decimal.D9 r => d9 :: digits_of_uint r
  end.

Fixpoint uint_of_digits (l : list digit) : Decimal.uint :=
  match l with
  | [] => Decimal.Nil
  | d :: r =>
      let u := uint_of_digits r in
      match d with
      | d0 => Decimal.D0 u | d1 => Decimal.D1 u | d2 => Decimal.D2 u
      | d3 => Decimal.D3 u | d4 => Decimal.D4 u | d5 => Decimal.D5 u
      | d6 => Decimal.D6 u | d7 => Decimal.D7 u | d8 => Decimal.D8 u
      | d9 => Decimal.D9 u
      end
  end.

(** The decimal digits of a natural number, most significant first. *)
Definition digits_of_N (n : N) : list digit := digits_of_uint (N.to_uint n).
Definition N_of_digits (l : list digit) : N := N.of_uint (uint_of_digits l).

(** [String(n)] and [`${n}`] for an integer [n >= 0] below [10^21]. *)
Definition string_of_N (n : N) : string := string_of_digits (digits_of_N n).

(** The same for any integer in that range. *)
Definition string_of_Z (z : Z) : string :=
  if (z <? 0)%Z then "-" ++ string_of_N (Z.abs_N z) else string_of_N (Z.abs_N z).

(** Number::toString(x, 10) for a finite non-zero positive [x] given by its
    digits and [n] (steps 6 to 10 of the algorithm). *)
Definition positive_toString (s : mantissa) (n : Z) : string :=
  let ds := digits s in
  let k := Z.of_nat (List.length ds) in
  if ((k <=? n) && (n <=? 21))%Z then
    string_of_digits (ds ++ repeat d0 (Z.to_nat (n - k)))
  else if ((0 <? n) && (n <=? 21))%Z then
    string_of_digits (firstn (Z.to_nat n) ds) ++ "."
      ++ string_of_digits (skipn (Z.to_nat n) ds)
  else if ((-6 <? n) && (n <=? 0))%Z then
    "0." ++ string_of_digits (repeat d0 (Z.to_nat (- n)) ++ ds)
  else
    let e := (n - 1)%Z in
    let c := if (0 <=? e)%Z then "+" else "-" in
    match s with
    | MOne d =>
        string_of_digits [digit_of_pdigit d] ++ "e" ++ c ++ string_of_N (Z.abs_N e)
    | MMany f mid l =>
        string_of_digits [digit_of_pdigit f] ++ "."
          ++ string_of_digits (mid ++ [digit_of_pdigit l])
          ++ "e" ++ c ++ string_of_N (Z.abs_N e)
    end.

Definition Number_toString (x : number) : string :=
  match x with
  | NaN => "NaN"
  | PosInfinity => "Infinity"
  | NegInfinity => "-Infinity"
  | Zero _ => "0"
  | Finite neg s n => (if neg then "-" else "") ++ positive_toString s n
  end.

(** [String.prototype.padStart(maxLength, fillString)]. *)
Fixpoint repeat_string (fill : string) (n : nat) : string :=
  match n with
  | O => ""
  | S n' => fill ++ repeat_string fill n'
  end.

Definition padStart (s : string) (maxLength : nat) (fillString : string) : string :=
  let stringLength := String.length s in
  if (maxLength <=? stringLength)%nat then s
  else if String.eqb fillString "" then s
  else
    let fillLen := (maxLength - stringLength)%nat in
    substring 0 fillLen (repeat_string fillString fillLen) ++ s.

(* ------------------------------------------------------------------ *)
(** ** JSON text: [JSON.stringify] and [JSON.parse] (ECMA-262, 25.5)

    A JavaScript string is modelled by a Rocq string, each character
    standing for the UTF-16 code unit of the same number; code units above
    255 are outside the model. *)

Definition DQUOTE : ascii := "034".
Definition BACKSLASH : ascii := "092".
Definition LF : ascii := "010".

(** The JavaScript values that reach [JSON.stringify] here.  An object is
    the list of its own enumerable properties in creation order. *)
#[local] Unset Elimination Schemes.
Inductive value : Type :=
| VUndefined
| VNull
| VBool (b : bool)
| VNumber (x : number)
| VString (s : string)
| VArray (elements : list value)
| VObject (properties : list (string * value)).
#[local] Set Elimination Schemes.

Definition hex_char (n : N) : ascii :=
  match n with
  | 0 => "0" | 1 => "1" | 2 => "2" | 3 => "3" | 4 => "4" | 5 => "5"
  | 6 => "6" | 7 => "7" | 8 => "8" | 9 => "9" | 10 => "a" | 11 => "b"
  | 12 => "c" | 13 => "d" | 14 => "e" | _ => "f"
  end%N%char.

(** UnicodeEscape(C): [\u] and four lower-case hexadecimal digits. *)
Definition UnicodeEscape (c : ascii) : string :=
  let n := N_of_ascii c in
  String BACKSLASH
    (String "u"
       (String (hex_char (n / 4096))
          (String (hex_char ((n / 256) mod 16))
             (String (hex_char ((n / 16) mod 16))
                (String (hex_char (n mod 16)) EmptyString))))).

(** One code unit of QuoteJSONString (table 75, then the control
    characters). *)
Definition quote_char (c : ascii) : string :=
  let esc (e : ascii) := String BACKSLASH (String e EmptyString) in
  match N_of_ascii c with
  | 8 => esc "b"
  | 9 => esc "t"
  | 10 => esc "n"
  | 12 => esc "f"
  | 13 => esc "r"
  | 34 => esc DQUOTE
  | 92 => esc BACKSLASH
  | n => if n <? 32 then UnicodeEscape c else String c EmptyString
  end%N%char.

Fixpoint quote_chars (s : string) : string :=
  match s with
  | EmptyString => EmptyString
  | String c r => quote_char c ++ quote_chars r
  end.

Definition QuoteJSONString (s : string) : string :=
  String DQUOTE (quote_chars s ++ String DQUOTE EmptyString).

Fixpoint join (sep : string) (l : list string) : string :=
  match l with
  | [] => EmptyString
  | [x] => x
  | x :: r => x ++ sep ++ join sep r
  end.

(** The common end of SerializeJSONObject and SerializeJSONArray: the text
    around the serialized members [partial], for the indentation [stepback]
    in force outside and [indent] inside. *)
Definition wrap_partial (op cl : ascii) (gap stepback indent : string)
    (partial : list string) : string :=
  match partial with
  | [] => String op (String cl EmptyString)
  | _ =>
      if String.eqb gap EmptyString then
        String op (join "," partial ++ String cl EmptyString)
      else
        let separator := "," ++ String LF indent in
        String op
          (String LF indent ++ join separator partial
             ++ String LF stepback ++ String cl EmptyString)
  end.

(** SerializeJSONProperty on a value already read from its holder, with no
    replacer and no [toJSON]; [None] is [undefined]. *)
Fixpoint SerializeJSONProperty (gap indent : string) (v : value) {struct v}
    : option string :=
  match v with
  | VUndefined => None
  | VNull => Some "null"
  | VBool true => Some "true"
  | VBool false => Some "false"
  | VString s => Some (QuoteJSONString s)
  | VNumber x => Some (if isFinite x then Number_toString x else "null")
  | VArray elements =>
      let stepback := indent in
      let indent := indent ++ gap in
      let partial :=
        map (fun e =>
               match SerializeJSONProperty gap indent e with
               | Some strP => strP
               | None => "null"
               end) elements in
      Some (wrap_partial "[" "]" gap stepback indent partial)
  | VObject properties =>
      let stepback := indent in
      let indent := indent ++ gap in
      let partial :=
        flat_map (fun p =>
               match SerializeJSONProperty gap indent (snd p) with
               | Some strP =>
                   [QuoteJSONString (fst p) ++ ":"
                      ++ (if String.eqb gap EmptyString then "" else " ") ++ strP]
               | None => []
               end) properties in
      Some (wrap_partial "{" "}" gap stepback indent partial)
  end.

(** [JSON.stringify(value, null, space)] for a numeric [space]: the gap is
    [min(10, space)] spaces. *)
Definition JSON_stringify (v : value) (space : nat) : option string :=
  SerializeJSONProperty (repeat_string " " (Nat.min 10 space)) EmptyString v.

(** *** Reading JSON text back *)

Definition is_ws (c : ascii) : bool :=
  match N_of_ascii c with
  | 9 | 10 | 13 | 32 => true
  | _ => false
  end%N.

Fixpoint skip_ws (s : string) : string :=
  match s with
  | EmptyString => EmptyString
  | String c r => if is_ws c then skip_ws r else s
  end.

Definition N_of_digit (d : digit) : N :=
  match d with
  | d0 => 0 | d1 => 1 | d2 => 2 | d3 => 3 | d4 => 4
  | d5 => 5 | d6 => 6 | d7 => 7 | d8 => 8 | d9 => 9
  end%N.

(** The value of a hexadecimal digit, in either case. *)
Definition hex_value (c : ascii) : option N :=
  match digit_of_char c with
  | Some d => Some (N_of_digit d)
  | None =>
      match c with
      | "a" | "A" => Some 10
      | "b" | "B" => Some 11
      | "c" | "C" => Some 12
      | "d" | "D" => Some 13
      | "e" | "E" => Some 14
      | "f" | "F" => Some 15
      | _ => None
      end%char%N
  end.

(** The character an escape letter stands for. *)
Definition unescape (e : ascii) : option ascii :=
  match e with
  | "034" => Some "034"
  | "092" => Some "092"
  | "/" => Some "/"
  | "b" => Some "008"
  | "f" => Some "012"
  | "n" => Some "010"
  | "r" => Some "013"
  | "t" => Some "009"
  | _ => None
  end%char.

Definition cons_char (c : ascii) (r : option (string * string))
    : option (string * string) :=
  match r with
  | Some (s, rest) => Some (String c s, rest)
  | None => None
  end.

(** The characters of a JSON string after its opening quote, up to the
    closing one: the string read and the text left. *)
Fixpoint parse_chars (s : string) : option (string * string) :=
  match s with
  | EmptyString => None
  | String c r =>
      if Ascii.eqb c DQUOTE then Some (EmptyString, r)
      else if Ascii.eqb c BACKSLASH then
        match r with
        | EmptyString => None
        | String e r1 =>
            if Ascii.eqb e "u" then
              match r1 with
              | String h3 (String h2 (String h1 (String h0 r2))) =>
                  match hex_value h3, hex_value h2, hex_value h1, hex_value h0 with
                  | Some a, Some b, Some c', Some d =>
                      let code := (a * 4096 + b * 256 + c' * 16 + d)%N in
                      if (code <? 256)%N
                      then cons_char (ascii_of_N code) (parse_chars r2)
                      else None
                  | _, _, _, _ => None
                  end
              | _ => None
              end
            else
              match unescape e with
              | Some ch => cons_char ch (parse_chars r1)
              | None => None
              end
        end
      else if (N_of_ascii c <? 32)%N then None
      else cons_char c (parse_chars r)
  end.

Fixpoint span_digits (s : string) : list digit * string :=
  match s with
  | EmptyString => ([], EmptyString)
  | String c r =>
      match digit_of_char c with
      | Some d => let (ds, r') := span_digits r in (d :: ds, r')
      | None => ([], s)
      end
  end.

(** Leading zeros dropped, with their count. *)
Fixpoint strip_leading (ds : list digit) : nat * list digit :=
  match ds with
  | d0 :: r => let (z, r') := strip_leading r in (S z, r')
  | _ => (O, ds)
  end.

Definition strip_trailing (ds : list digit) : list digit :=
  rev (snd (strip_leading (rev ds))).

Definition mantissa_of_digits (ds : list digit) : option mantissa :=
  match ds with
  | [] => None
  | [d] => option_map MOne (pdigit_of_digit d)
  | d :: r =>
      match pdigit_of_digit d, pdigit_of_digit (List.last r d0) with
      | Some f, Some l => Some (MMany f (removelast r) l)
      | _, _ => None
      end
  end.

(** The number whose value is [0.ds * 10^n], in the form of the model.
    [JSON.parse] rounds the decimal it reads to the nearest double; on the
    text Number::toString wrote for a double, that is the double written.
    The model keeps the decimal read. *)
Definition make_number (neg : bool) (ds : list digit) (n : Z) : number :=
  let (z, ds1) := strip_leading ds in
  match mantissa_of_digits (strip_trailing ds1) with
  | Some s => Finite neg s (n - Z.of_nat z)
  | None => Zero neg
  end.

Definition parse_frac (s : string) : option (list digit * string) :=
  match s with
  | String "." r =>
      match span_digits r with
      | ([], _) => None
      | (ds, r') => Some (ds, r')
      end
  | _ => Some ([], s)
  end.

Definition parse_exp_digits (neg : bool) (s : string) : option (Z * string) :=
  match span_digits s with
  | ([], _) => None
  | (ds, r) =>
      let e := Z.of_N (N_of_digits ds) in
      Some (if neg then (- e)%Z else e, r)
  end.

Definition parse_exp (s : string) : option (Z * string) :=
  match s with
  | String c r =>
      if Ascii.eqb c "e" || Ascii.eqb c "E" then
        match r with
        | String "+" r' => parse_exp_digits false r'
        | String "-" r' => parse_exp_digits true r'
        | _ => parse_exp_digits false r
        end
      else Some (0%Z, s)
  | EmptyString => Some (0%Z, s)
  end.

(** The JSON number grammar after the sign: [0] or a non-zero digit and
    digits, then an optional fraction and exponent. *)
Definition parse_unsigned (neg : bool) (s : string) : option (number * string) :=
  match s with
  | EmptyString => None
  | String c r =>
      match digit_of_char c with
      | None => None
      | Some d =>
          let (int, s2) :=
            match pdigit_of_digit d with
            | None => ([d0], r)
            | Some _ => let (ds, r') := span_digits r in (d :: ds, r')
            end in
          match parse_frac s2 with
          | None => None
          | Some (fr, s3) =>
              match parse_exp s3 with
              | None => None
              | Some (e, s4) =>
                  Some (make_number neg (int ++ fr)
                          (Z.of_nat (List.length int) + e), s4)
              end
          end
      end
  end.

Definition parse_number (s : string) : option (number * string) :=
  match s with
  | String "-" r => parse_unsigned true r
  | _ => parse_unsigned false s
  end.

(** The text left after the word [lit], when the text starts with it. *)
Fixpoint strip_prefix (lit s : string) : option string :=
  match lit, s with
  | EmptyString, _ => Some s
  | String a lit', String b s' =>
      if Ascii.eqb a b then strip_prefix lit' s' else None
  | String _ _, EmptyString => None
  end.

Definition parse_literal (lit : string) (v : value) (s : string)
    : option (value * string) :=
  match strip_prefix lit s with
  | Some rest => Some (v, rest)
  | None => None
  end.

(** The recursive-descent reader; [fuel] bounds the nesting and the number
    of members read. *)
Fixpoint parse_value (fuel : nat) (s : string) {struct fuel}
    : option (value * string) :=
  match fuel with
  | O => None
  | S fuel' =>
      match skip_ws s with
      | EmptyString => None
      | String c r =>
          if Ascii.eqb c "{" then
            match skip_ws r with
            | String "}" r' => Some (VObject [], r')
            | _ =>
                match parse_members fuel' r with
                | Some (ms, r') => Some (VObject ms, r')
                | None => None
                end
            end
          else if Ascii.eqb c "[" then
            match skip_ws r with
            | String "]" r' => Some (VArray [], r')
            | _ =>
                match parse_elements fuel' r with
                | Some (vs, r') => Some (VArray vs, r')
                | None => None
                end
            end
          else if Ascii.eqb c DQUOTE then
            match parse_chars r with
            | Some (str, r') => Some (VString str, r')
            | None => None
            end
          else if Ascii.eqb c "t" then parse_literal "true" (VBool true) (String c r)
          else if Ascii.eqb c "f" then parse_literal "false" (VBool false) (String c r)
          else if Ascii.eqb c "n" then parse_literal "null" VNull (String c r)
          else
            match parse_number (String c r) with
            | Some (x, r') => Some (VNumber x, r')
            | None => None
            end
      end
  end

with parse_elements (fuel : nat) (s : string) {struct fuel}
    : option (list value * string) :=
  match fuel with
  | O => None
  | S fuel' =>
      match parse_value fuel' s with
      | None => None
      | Some (v, r) =>
          match skip_ws r with
          | String "," r' =>
              match parse_elements fuel' r' with
              | Some (vs, r'') => Some (v :: vs, r'')
              | None => None
              end
          | String "]" r' => Some ([v], r')
          | _ => None
          end
      end
  end

with parse_members (fuel : nat) (s : string) {struct fuel}
    : option (list (string * value) * string) :=
  match fuel with
  | O => None
  | S fuel' =>
      match skip_ws s with
      | String "034" r =>
          match parse_chars r with
          | None => None
          | Some (key, r1) =>
              match skip_ws r1 with
              | String ":" r2 =>
                  match parse_value fuel' r2 with
                  | None => None
                  | Some (v, r3) =>
                      match skip_ws r3 with
                      | String "," r4 =>
                          match parse_members fuel' r4 with
                          | Some (ms, r5) => Some ((key, v) :: ms, r5)
                          | None => None
                          end
                      | String "}" r4 => Some ([(key, v)], r4)
                      | _ => None
                      end
                  end
              | _ => None
              end
          end
      | _ => None
      end
  end.

(** [JSON.parse(text)] with no reviver; [None] is a SyntaxError. *)
Definition JSON_parse (text : string) : option value :=
  match parse_value (S (String.length text)) text with
  | Some (v, rest) =>
      match skip_ws rest with
      | EmptyString => Some v
      | _ => None
      end
  | None => None
  end.

(** [holder[key]] on a parsed object: the last member with that key. *)
Fixpoint Get_members (ms : list (string * value)) (key : string) : option value :=
  match ms with
  | [] => None
  | (k, v) :: r =>
      match Get_members r key with
      | Some v' => Some v'
      | None => if String.eqb k key then Some v else None
      end
  end.

Definition Get (v : value) (key : string) : option value :=
  match v with
  | VObject ms => Get_members ms key
  | _ => None
  end.

(** The member names of a parsed object, in the order of the text (they are
    [Object.keys] of the object when no name is repeated). *)
Definition keys (v : value) : list string :=
  match v with
  | VObject ms => map fst ms
  | _ => []
  end.

(* ------------------------------------------------------------------ *)
(** ** Nodes ([nodeTypes.ts]) *)

Module XYPosition.
Record t : Type := mk { x : number; y : number }.
End XYPosition.

Module TextNodeData.
Record t : Type := mk { text : string }.
End TextNodeData.

Module FlowNode.
(** [Node<TextNodeData>]: the four exported fields ([type] is optional in
    React Flow, hence [None] for [undefined]) and two of the runtime-only
    fields. *)
Record t : Type := mk {
  id : string;
  type : option string;
  position : XYPosition.t;
  data : TextNodeData.t;
  selected : option bool;
  dragging : option bool
}.
End FlowNode.

(* ------------------------------------------------------------------ *)
(** ** [validateFlow] ([validation.ts]) *)

Module ValidationResult.
Record t : Type := mk { valid : bool; message : string }.
End ValidationResult.

(** [Set.prototype.has] and [new Set(iterable)], a set being the list of its
    elements in insertion order. *)
Definition Set_has (s : list string) (x : string) : bool :=
  existsb (String.eqb x) s.

Definition Set_add (s : list string) (x : string) : list string :=
  if Set_has s x then s else s ++ [x].

Definition new_Set (l : list string) : list string :=
  fold_left Set_add l [].

Definition validateFlow (nodes : list FlowNode.t) (edges : list FlowEdge.t)
    : ValidationResult.t :=
  if (List.length nodes <=? 1)%nat then
    ValidationResult.mk true "Flow saved successfully!"
  else
    let nodesWithIncoming := new_Set (map FlowEdge.target edges) in
    let nodesWithoutIncoming :=
      filter (fun node => negb (Set_has nodesWithIncoming (FlowNode.id node))) nodes in
    if (1 <? List.length nodesWithoutIncoming)%nat then
      ValidationResult.mk false
        "Cannot save flow: More than one node has empty target handles."
    else
      ValidationResult.mk true "Flow saved successfully!".

(** What the specification counts: the nodes whose id is the target of no
    edge. *)
Definition is_target_of (nodeId : string) (e : FlowEdge.t) : bool :=
  String.eqb (FlowEdge.target e) nodeId.

Definition has_no_incoming_edge (edges : list FlowEdge.t) (node : FlowNode.t) : bool :=
  forallb (fun e => negb (is_target_of (FlowNode.id node) e)) edges.

Definition root_count (nodes : list FlowNode.t) (edges : list FlowEdge.t) : nat :=
  List.length (filter (has_no_incoming_edge edges) nodes).

(* ------------------------------------------------------------------ *)
(** ** [exportFlowAsJSON] ([exportFlow.ts]) *)

Module Date.
(** What [getTodayString] reads from [new Date()]: the local year, the
    month from 0 and the day of the month. *)
Record t : Type := mk { getFullYear : Z; getMonth : N; getDate : N }.
End Date.

Module Download.
(** The arguments [triggerDownload] receives: the file the browser saves. *)
Record t : Type := mk { content : string; filename : string; mimeType : string }.
End Download.

Definition getTodayString (d : Date.t) : string :=
  let yyyy := Date.getFullYear d in
  let mm := padStart (string_of_N (Date.getMonth d + 1)) 2 "0" in
  let dd := padStart (string_of_N (Date.getDate d)) 2 "0" in
  string_of_Z yyyy ++ "-" ++ mm ++ "-" ++ dd.

Definition triggerDownload (content filename mimeType : string) : Download.t :=
  Download.mk content filename mimeType.

(** The object literal built for one node. *)
Definition ExportedNode (node : FlowNode.t) : value :=
  VObject
    [("id", VString (FlowNode.id node));
     ("type", match FlowNode.type node with
              | Some t => VString t
              | None => VUndefined
              end);
     ("position",
      VObject [("x", VNumber (XYPosition.x (FlowNode.position node)));
               ("y", VNumber (XYPosition.y (FlowNode.position node)))]);
     ("data", VObject [("text", VString (TextNodeData.text (FlowNode.data node)))])].

(** The object literal built for one edge. *)
Definition ExportedEdge (edge : FlowEdge.t) : value :=
  VObject
    [("id", VString (FlowEdge.id edge));
     ("source", VString (FlowEdge.source edge));
     ("target", VString (FlowEdge.target edge))].

Definition ExportedFlow (nodes : list FlowNode.t) (edges : list FlowEdge.t) : value :=
  let cleanNodes := map ExportedNode nodes in
  let cleanEdges := map ExportedEdge edges in
  VObject [("nodes", VArray cleanNodes); ("edges", VArray cleanEdges)].

(** [exportFlowAsJSON], with the date [new Date()] gives as a parameter; the
    result is the download it triggers.  A [Blob] built from [undefined]
    holds the text [undefined]. *)
Definition exportFlowAsJSON (today : Date.t) (nodes : list FlowNode.t)
    (edges : list FlowEdge.t) : Download.t :=
  let flowData := ExportedFlow nodes edges in
  let jsonString :=
    match JSON_stringify flowData 2 with
    | Some str => str
    | None => "undefined"
    end in
  triggerDownload jsonString
    ("chatbot-flow-" ++ getTodayString today ++ ".json")
    "application/json".

(* ------------------------------------------------------------------ *)
(** ** [exportFlowAsImage] ([exportImage.ts])

    The function is a [try] block around three uses of the browser: the
    lookup of the canvas element, the awaited rasterization, and the
    download through a temporary link.  Each one either returns or throws;
    what they do is the environment of a call. *)

(** A thrown value: an instance of [Error] with its [message], or any other
    value, with its [message] property when it has one. *)
Inductive thrown : Type :=
| ErrorInstance (message : string)
| NotAnError (message : option string).

Inductive outcome (A : Type) : Type :=
| Returns (a : A)
| Throws (e : thrown).
Arguments Returns {A} a.
Arguments Throws {A} e.

Module PngOptions.
Record t : Type := mk { backgroundColor : string; pixelRatio : N; cacheBust : bool }.
End PngOptions.

Module Browser.
(** [querySelector] gives the element found ([None] for [null]); [toPng]
    resolves to a data URL or rejects; [download] is the sequence
    createElement, appendChild, click, removeChild on a link with the given
    file name and address; [console_error] is [console.error] called with a
    label and the value caught. *)
Record t : Type := mk {
  querySelector : string -> outcome (option string);
  toPng : string -> PngOptions.t -> outcome string;
  download : string -> string -> outcome unit;
  console_error : string -> thrown -> outcome unit
}.
End Browser.

Module ImageExportResult.
Record t : Type := mk { success : bool; error : option string }.
End ImageExportResult.

(** The [catch] clause: the message is chosen, [console.error] is called,
    and the failure is returned; what [console.error] throws leaves the
    function, since nothing catches it. *)
Definition image_export_catch (env : Browser.t) (err : thrown)
  : outcome ImageExportResult.t :=
  let message :=
    match err with
    | ErrorInstance m => m
    | NotAnError _ => "Unknown error during image export."
    end in
  match Browser.console_error env "[exportFlowAsImage]" err with
  | Throws e => Throws e
  | Returns _ => Returns (ImageExportResult.mk false (Some message))
  end.

(** The value the returned promise settles with: [Returns r] when it is
    fulfilled with [r], [Throws e] when it is rejected with [e]. *)
Definition exportFlowAsImage (env : Browser.t) : outcome ImageExportResult.t :=
  match Browser.querySelector env ".react-flow" with
  | Throws err => image_export_catch env err
  | Returns None =>
      Returns (ImageExportResult.mk false
                 (Some "Could not find the flow canvas element."))
  | Returns (Some flowElement) =>
      match Browser.toPng env flowElement (PngOptions.mk "#f1f5f9" 2 true) with
      | Throws err => image_export_catch env err
      | Returns dataUrl =>
          match Browser.download env "chatbot-flow.png" dataUrl with
          | Throws err => image_export_catch env err
          | Returns _ => Returns (ImageExportResult.mk true None)
          end
      end
  end.

(** [err.message], the message a thrown value carries. *)
Definition thrown_message (err : thrown) : option string :=
  match err with
  | ErrorInstance m => Some m
  | NotAnError m => m
  end.

(* ------------------------------------------------------------------ *)
(** ** The canvas state and its handlers ([FlowBuilder.tsx])

    The state is the module-level counter and the two React states.  The
    counter is a JavaScript number (a double) that only ever holds a
    non-negative integer; it starts at 1 and is only changed by
    [nodeIdCounter++], so it holds an integer between 1 and 2^53. *)

Module Canvas.
Record t : Type := mk {
  nodeIdCounter : N;
  nodes : list FlowNode.t;
  edges : list FlowEdge.t
}.
End Canvas.

(** The integers a double counts one by one end at 2^53: [2^53 + 1] is not
    a double and the sum is rounded back to [2^53] (ties to even). *)
Definition MAX_COUNTER : N := 9007199254740992.

(** The value of [x] after [x++], for [x] an integer of at most 2^53. *)
Definition increment (x : N) : N :=
  if (x <? MAX_COUNTER)%N then (x + 1)%N else x.

(** [generateNodeId]: the id, and the counter after [nodeIdCounter++]. An
    integer below 10^21 is printed by its decimal digits. *)
Definition generateNodeId (nodeIdCounter : N) : string * N :=
  ("node_" ++ string_of_N nodeIdCounter, increment nodeIdCounter).

Definition initialNodes : list FlowNode.t :=
  [FlowNode.mk "node_0" (Some "textNode")
     (XYPosition.mk (Finite false (MMany p1 [] p8) 3) (Finite false (MMany p1 [] p8) 3))
     (TextNodeData.mk "Hello! How can I help you today?") None None].

Definition initialEdges : list FlowEdge.t := [].

Definition initialCanvas : Canvas.t := Canvas.mk 1 initialNodes initialEdges.

(** [onDrop]: [type] is the string read from the drag data, [position] the
    result of [screenToFlowPosition]. *)
Definition onDrop (type : string) (position : XYPosition.t) (st : Canvas.t) : Canvas.t :=
  if String.eqb type EmptyString then st
  else
    let (newId, counter') := generateNodeId (Canvas.nodeIdCounter st) in
    let newNode :=
      FlowNode.mk newId (Some type) position (TextNodeData.mk EmptyString) None None in
    Canvas.mk counter' (Canvas.nodes st ++ [newNode]) (Canvas.edges st).

(** [updateNodeText]. *)
Definition updateNodeText (nodeId newText : string) (st : Canvas.t) : Canvas.t :=
  Canvas.mk (Canvas.nodeIdCounter st)
    (map (fun n =>
            if String.eqb (FlowNode.id n) nodeId
            then FlowNode.mk (FlowNode.id n) (FlowNode.type n) (FlowNode.position n)
                   (TextNodeData.mk newText) (FlowNode.selected n) (FlowNode.dragging n)
            else n) (Canvas.nodes st))
    (Canvas.edges st).

(** React Flow's [addEdge], called by [onConnect]: a connection without a
    source or a target, or one that already exists, leaves the edges as
    they are. *)
Definition handle_of (h : option string) : handle :=
  match h with
  | Some s => HStr s
  | None => HNull
  end.

Definition handle_text (h : option string) : string :=
  match h with
  | Some s => s
  | None => EmptyString
  end.

Definition falsy_handle (h : handle) : bool :=
  match h with
  | HUndefined | HNull => true
  | HStr s => String.eqb s EmptyString
  end.

Definition connectionExists (source target : string) (c : Connection.t)
    (edges : list FlowEdge.t) : bool :=
  existsb (fun el =>
             String.eqb (FlowEdge.source el) source
             && String.eqb (FlowEdge.target el) target
             && (handle_strict_eq (FlowEdge.sourceHandle el) (Connection.sourceHandle c)
                 || (falsy_handle (FlowEdge.sourceHandle el)
                     && falsy_handle (handle_of (Connection.sourceHandle c))))
             && (handle_strict_eq (FlowEdge.targetHandle el) (Connection.targetHandle c)
                 || (falsy_handle (FlowEdge.targetHandle el)
                     && falsy_handle (handle_of (Connection.targetHandle c))))) edges.

Definition addEdge (c : Connection.t) (animated : bool) (edges : list FlowEdge.t)
    : list FlowEdge.t :=
  match Connection.source c, Connection.target c with
  | Some source, Some target =>
      if String.eqb source EmptyString || String.eqb target EmptyString then edges
      else if connectionExists source target c edges then edges
      else
        edges ++
        [FlowEdge.mk
           ("reactflow__edge-" ++ source ++ handle_text (Connection.sourceHandle c)
              ++ "-" ++ target ++ handle_text (Connection.targetHandle c))
           source target
           (handle_of (Connection.sourceHandle c))
           (handle_of (Connection.targetHandle c))
           (Some animated) None]
  | _, _ => edges
  end.

(** [onConnect]; React Flow calls it only for a connection that
    [isValidConnection] admits. *)
Definition onConnect (c : Connection.t) (st : Canvas.t) : Canvas.t :=
  if isValidConnection (Canvas.edges st) c
  then Canvas.mk (Canvas.nodeIdCounter st) (Canvas.nodes st)
         (addEdge c false (Canvas.edges st))
  else st.

(** The changes React Flow sends to [onNodesChange] and [onEdgesChange] on
    user interaction, applied as [applyNodeChanges] and [applyEdgeChanges]
    do: removal, a new position, a new selection flag. *)
Inductive NodeChange : Type :=
| NodeRemove (id : string)
| NodePosition (id : string) (position : XYPosition.t) (dragging : bool)
| NodeSelect (id : string) (selected : bool).

Inductive EdgeChange : Type :=
| EdgeRemove (id : string)
| EdgeSelect (id : string) (selected : bool).

Definition applyNodeChange (ch : NodeChange) (nodes : list FlowNode.t) : list FlowNode.t :=
  match ch with
  | NodeRemove i => filter (fun n => negb (String.eqb (FlowNode.id n) i)) nodes
  | NodePosition i pos drag =>
      map (fun n =>
             if String.eqb (FlowNode.id n) i
             then FlowNode.mk (FlowNode.id n) (FlowNode.type n) pos (FlowNode.data n)
                    (FlowNode.selected n) (Some drag)
             else n) nodes
  | NodeSelect i sel =>
      map (fun n =>
             if String.eqb (FlowNode.id n) i
             then FlowNode.mk (FlowNode.id n) (FlowNode.type n) (FlowNode.position n)
                    (FlowNode.data n) (Some sel) (FlowNode.dragging n)
             else n) nodes
  end.

Definition applyEdgeChange (ch : EdgeChange) (edges : list FlowEdge.t) : list FlowEdge.t :=
  match ch with
  | EdgeRemove i => filter (fun e => negb (String.eqb (FlowEdge.id e) i)) edges
  | EdgeSelect i sel =>
      map (fun e =>
             if String.eqb (FlowEdge.id e) i
             then FlowEdge.mk (FlowEdge.id e) (FlowEdge.source e) (FlowEdge.target e)
                    (FlowEdge.sourceHandle e) (FlowEdge.targetHandle e)
                    (FlowEdge.animated e) (Some sel)
             else e) edges
  end.

Definition handleNodesChange (changes : list NodeChange) (st : Canvas.t) : Canvas.t :=
  Canvas.mk (Canvas.nodeIdCounter st)
    (fold_left (fun nds ch => applyNodeChange ch nds) changes (Canvas.nodes st))
    (Canvas.edges st).

Definition handleEdgesChange (changes : list EdgeChange) (st : Canvas.t) : Canvas.t :=
  Canvas.mk (Canvas.nodeIdCounter st) (Canvas.nodes st)
    (fold_left (fun eds ch => applyEdgeChange ch eds) changes (Canvas.edges st)).

(** The component mounted again (the page left and opened again): the two
    React states start over from [initialNodes] and [initialEdges], the
    module-level counter keeps its value. *)
Definition remount (st : Canvas.t) : Canvas.t :=
  Canvas.mk (Canvas.nodeIdCounter st) initialNodes initialEdges.

(** What can happen to the canvas. *)
Inductive event : Type :=
| Drop (type : string) (position : XYPosition.t)
| TextEdited (nodeId newText : string)
| Connected (c : Connection.t)
| NodesChanged (changes : list NodeChange)
| EdgesChanged (changes : list EdgeChange)
| Remounted.

Definition handle_event (ev : event) (st : Canvas.t) : Canvas.t :=
  match ev with
  | Drop type position => onDrop type position st
  | TextEdited nodeId newText => updateNodeText nodeId newText st
  | Connected c => onConnect c st
  | NodesChanged changes => handleNodesChange changes st
  | EdgesChanged changes => handleEdgesChange changes st
  | Remounted => remount st
  end.

(** The canvas after a sequence of events, oldest first. *)
Definition run (evs : list event) (st : Canvas.t) : Canvas.t :=
  fold_left (fun s ev => handle_event ev s) evs st.

(* ------------------------------------------------------------------ *)
(** ** What the specification says of the export, as definitions *)

(** What JSON text keeps of a value: a property holding [undefined] is
    dropped, an array element holding [undefined] and a number that is not
    finite become [null], and the sign of zero is lost. *)
Definition defined (v : value) : bool :=
  match v with
  | VUndefined => false
  | _ => true
  end.

Definition number_image (x : number) : value :=
  match x with
  | NaN | PosInfinity | NegInfinity => VNull
  | Zero _ => VNumber (Zero false)
  | Finite _ _ _ => VNumber x
  end.

Fixpoint json_image (v : value) : value :=
  match v with
  | VUndefined => VNull
  | VNull => VNull
  | VBool b => VBool b
  | VNumber x => number_image x
  | VString s => VString s
  | VArray elements => VArray (map json_image elements)
  | VObject properties =>
      VObject
        (flat_map (fun p =>
                     if defined (snd p) then [(fst p, json_image (snd p))] else [])
           properties)
  end.

(** A bound on the fuel [parse_value] needs to read a value back. *)
Fixpoint size (v : value) : nat :=
  match v with
  | VArray elements => S (fold_right (fun e acc => S (size e + acc)) O elements)
  | VObject properties =>
      S (fold_right (fun p acc => S (size (snd p) + acc)) O properties)
  | _ => 1
  end.

(** Reading a graph out of a parsed document. *)
Definition read_string (o : value) (key : string) : option string :=
  match Get o key with
  | Some (VString s) => Some s
  | _ => None
  end.

Definition read_number (o : value) (key : string) : option number :=
  match Get o key with
  | Some (VNumber x) => Some x
  | _ => None
  end.

Module ReadNode.
Record t : Type := mk { id : string; x : number; y : number; text : string }.
End ReadNode.

Definition read_node (o : value) : option ReadNode.t :=
  match read_string o "id", Get o "position", Get o "data" with
  | Some i, Some pos, Some dat =>
      match read_number pos "x", read_number pos "y", read_string dat "text" with
      | Some px, Some py, Some txt => Some (ReadNode.mk i px py txt)
      | _, _, _ => None
      end
  | _, _, _ => None
  end.

Definition read_edge (o : value) : option (string * string * string) :=
  match read_string o "id", read_string o "source", read_string o "target" with
  | Some i, Some s, Some t => Some (i, s, t)
  | _, _, _ => None
  end.

Fixpoint read_all {A : Type} (f : value -> option A) (l : list value) : option (list A) :=
  match l with
  | [] => Some []
  | o :: r =>
      match f o, read_all f r with
      | Some a, Some ar => Some (a :: ar)
      | _, _ => None
      end
  end.

Definition read_flow (doc : value)
    : option (list ReadNode.t * list (string * string * string)) :=
  match Get doc "nodes", Get doc "edges" with
  | Some (VArray ns), Some (VArray es) =>
      match read_all read_node ns, read_all read_edge es with
      | Some rn, Some re => Some (rn, re)
      | _, _ => None
      end
  | _, _ => None
  end.

(** A node read back is the node exported: same id, same text, and
    coordinates equal under [===]. *)
Definition same_node (n : FlowNode.t) (r : ReadNode.t) : Prop :=
  ReadNode.id r = FlowNode.id n
  /\ number_strict_eq (ReadNode.x r) (XYPosition.x (FlowNode.position n)) = true
  /\ number_strict_eq (ReadNode.y r) (XYPosition.y (FlowNode.position n)) = true
  /\ ReadNode.text r = TextNodeData.text (FlowNode.data n).

Definition edge_triple (e : FlowEdge.t) : string * string * string :=
  (FlowEdge.id e, FlowEdge.source e, FlowEdge.target e).

Definition finite_position (n : FlowNode.t) : bool :=
  isFinite (XYPosition.x (FlowNode.position n))
  && isFinite (XYPosition.y (FlowNode.position n)).

(** The round trip of the specification: the exported text parses, and the
    graph read from it has the nodes and the edges of the original. *)
Definition export_round_trip (today : Date.t) (nodes : list FlowNode.t)
    (edges : list FlowEdge.t) : Prop :=
  exists doc rn re,
    JSON_parse (Download.content (exportFlowAsJSON today nodes edges)) = Some doc
    /\ read_flow doc = Some (rn, re)
    /\ Forall2 same_node nodes rn
    /\ re = map edge_triple edges.

(** The objects of the array under [key] in a parsed document. *)
Definition objects_under (doc : value) (key : string) : list value :=
  match Get doc key with
  | Some (VArray l) => l
  | _ => []
  end.

(** The document of section 6 of the specification, line by line: each line
    is its nesting depth and its text, and is indented by two spaces per
    level. *)
Definition schema_key (k : string) : string := QuoteJSONString k ++ ": ".

Definition number_text (x : number) : string :=
  if isFinite x then Number_toString x else "null".

Definition comma_unless (last : bool) (text : string) : string :=
  if last then text else text ++ ",".

Definition schema_node_lines (node : FlowNode.t) (last : bool) : list (nat * string) :=
  List.concat
    [[(2, "{");
      (3, schema_key "id" ++ QuoteJSONString (FlowNode.id node) ++ ",")];
     match FlowNode.type node with
     | Some t => [(3, schema_key "type" ++ QuoteJSONString t ++ ",")]
     | None => []
     end;
     [(3, schema_key "position" ++ "{");
      (4, schema_key "x" ++ number_text (XYPosition.x (FlowNode.position node)) ++ ",");
      (4, schema_key "y" ++ number_text (XYPosition.y (FlowNode.position node)));
      (3, "},");
      (3, schema_key "data" ++ "{");
      (4, schema_key "text" ++ QuoteJSONString (TextNodeData.text (FlowNode.data node)));
      (3, "}");
      (2, comma_unless last "}")]]%nat.

Definition schema_edge_lines (edge : FlowEdge.t) (last : bool) : list (nat * string) :=
  [(2, "{");
   (3, schema_key "id" ++ QuoteJSONString (FlowEdge.id edge) ++ ",");
   (3, schema_key "source" ++ QuoteJSONString (FlowEdge.source edge) ++ ",");
   (3, schema_key "target" ++ QuoteJSONString (FlowEdge.target edge));
   (2, comma_unless last "}")]%nat.

Fixpoint schema_items {A : Type} (item : A -> bool -> list (nat * string)) (l : list A)
    : list (nat * string) :=
  match l with
  | [] => []
  | [a] => item a true
  | a :: r => List.app (item a false) (schema_items item r)
  end.

Definition schema_array {A : Type} (key : string) (item : A -> bool -> list (nat * string))
    (l : list A) (last : bool) : list (nat * string) :=
  match l with
  | [] => [(1, comma_unless last (schema_key key ++ "[]"))]
  | _ =>
      List.concat
        [[(1, schema_key key ++ "[")]; schema_items item l; [(1, comma_unless last "]")]]
  end%nat.

Definition schema_lines (nodes : list FlowNode.t) (edges : list FlowEdge.t)
    : list (nat * string) :=
  List.concat
    [[(0, "{")];
     schema_array "nodes" schema_node_lines nodes false;
     schema_array "edges" schema_edge_lines edges true;
     [(0, "}")]]%nat.

Definition render_line (l : nat * string) : string :=
  repeat_string "  " (fst l) ++ snd l.

Definition render_lines (ls : list (nat * string)) : string :=
  join (String LF EmptyString) (map render_line ls).

(** The file name of section 6: [chatbot-flow-], the year, and the month and
    the day on two digits. *)
Definition two_digits (n : N) : string :=
  String (char_of_digit (List.nth (N.to_nat (n / 10)) [d0;d1;d2;d3;d4;d5;d6;d7;d8;d9] d0))
    (String (char_of_digit (List.nth (N.to_nat (n mod 10)) [d0;d1;d2;d3;d4;d5;d6;d7;d8;d9] d0))
       EmptyString).

Definition schema_filename (d : Date.t) : string :=
  "chatbot-flow-" ++ string_of_Z (Date.getFullYear d) ++ "-"
    ++ two_digits (Date.getMonth d + 1) ++ "-" ++ two_digits (Date.getDate d) ++ ".json".

Definition valid_date (d : Date.t) : Prop :=
  (Date.getMonth d <= 11)%N /\ (1 <= Date.getDate d <= 31)%N.

(* ------------------------------------------------------------------ *)
(** ** The ids a canvas has issued *)



(* ------------------------------------------------------------------ *)
(** ** The shape of number text *)

(** What may follow a value in JSON text: nothing, a line feed, a comma or
    a closing bracket. *)
Definition terminated (t : string) : bool :=
  match t with
  | EmptyString => true
  | String c _ =>
      Ascii.eqb c LF || Ascii.eqb c "," || Ascii.eqb c "]" || Ascii.eqb c "}"
  end.

Definition not_digit_start (t : string) : bool :=
  match t with
  | EmptyString => true
  | String c _ =>
      match digit_of_char c with
      | Some _ => false
      | None => true
      end
  end.

(** The fraction and the exponent of a number, as text. *)
Definition frac_text (fr : list digit) : string :=
  match fr with
  | [] => EmptyString
  | _ => "." ++ string_of_digits fr
  end.

Definition exp_text (e : option Z) : string :=
  match e with
  | None => EmptyString
  | Some z =>
      "e" ++ (if (0 <=? z)%Z then "+" else "-") ++ string_of_N (Z.abs_N z)
  end.

Definition exp_value (e : option Z) : Z :=
  match e with
  | None => 0%Z
  | Some z => z
  end.

(* ------------------------------------------------------------------ *)
(** ** The shape of serialized values *)

Fixpoint ws_only (s : string) : bool :=
  match s with
  | EmptyString => true
  | String c r => is_ws c && ws_only r
  end.

(** The first character of a number. *)
Definition number_start (c : ascii) : bool :=
  match digit_of_char c with
  | Some _ => true
  | None => Ascii.eqb c "-"
  end.

(** The first character of a serialized value is neither white space nor a
    closing bracket. *)
Definition opens_value (s : string) : bool :=
  match s with
  | EmptyString => false
  | String c _ => negb (is_ws c) && negb (Ascii.eqb c "]") && negb (Ascii.eqb c "}")
  end.

(** The text of an array element: [null] stands for [undefined]. *)
Definition element_text (gap indent : string) (v : value) : string :=
  match SerializeJSONProperty gap indent v with
  | Some strP => strP
  | None => "null"
  end.

(** The text of an object member. *)
Definition member_text (gap indent : string) (p : string * value) : string :=
  QuoteJSONString (fst p) ++ ":"
    ++ (if String.eqb gap EmptyString then "" else " ")
    ++ element_text gap indent (snd p).

Definition elements_size (l : list value) : nat :=
  fold_right (fun e acc => S (size e + acc)) O l.

Definition members_size (l : list (string * value)) : nat :=
  fold_right (fun p acc => S (size (snd p) + acc)) O l.

(** What the induction on values proves of each value. *)
Definition reads_back (v : value) : Prop :=
  forall gap indent fuel rest,
    ws_only gap = true -> ws_only indent = true ->
    size (json_image v) <= fuel ->
    terminated rest = true ->
    parse_value fuel (element_text gap indent v ++ rest) = Some (json_image v, rest).

(** Induction on values, with the hypothesis on every element of an array
    and on every property of an object. *)
Fixpoint value_nested_ind (P : value -> Prop)
    (Hundefined : P VUndefined) (Hnull : P VNull)
    (Hbool : forall b, P (VBool b))
    (Hnumber : forall x, P (VNumber x))
    (Hstring : forall s, P (VString s))
    (Harray : forall l, Forall P l -> P (VArray l))
    (Hobject : forall ms, Forall (fun p => P (snd p)) ms -> P (VObject ms))
    (v : value) {struct v} : P v :=
  let rec := value_nested_ind P Hundefined Hnull Hbool Hnumber Hstring Harray Hobject in
  match v with
  | VUndefined => Hundefined
  | VNull => Hnull
  | VBool b => Hbool b
  | VNumber x => Hnumber x
  | VString s => Hstring s
  | VArray l =>
      Harray l
        ((fix all (l : list value) : Forall P l :=
            match l with
            | [] => Forall_nil P
            | e :: r => Forall_cons e (rec e) (all r)
            end) l)
  | VObject ms =>
      Hobject ms
        ((fix all (ms : list (string * value)) : Forall (fun p => P (snd p)) ms :=
            match ms with
            | [] => Forall_nil _
            | p :: r => Forall_cons p (rec (snd p)) (all r)
            end) ms)
  end.

(** The characters of a list of texts, and one more for each text. *)
Definition texts_size (l : list string) : nat :=
  fold_right (fun t acc => S (String.length t + acc)) O l.

Definition fits_its_text (v : value) : Prop :=
  forall gap indent, size (json_image v) <= String.length (element_text gap indent v).

(** The keys of an exported node object, by its type field. *)
Definition exported_node_keys (n : FlowNode.t) : list string :=
  match FlowNode.type n with
  | Some _ => ["id"; "type"; "position"; "data"]
  | None => ["id"; "position"; "data"]
  end.

(** A node object of the document holds nothing but the exported fields. *)
Definition only_exported_node_fields (o : value) : Prop :=
  incl (keys o) ["id"; "type"; "position"; "data"]
  /\ (forall p, Get o "position" = Some p -> keys p = ["x"; "y"])
  /\ (forall d, Get o "data" = Some d -> keys d = ["text"]).

Definition only_exported_edge_fields (o : value) : Prop :=
  keys o = ["id"; "source"; "target"].

(* ------------------------------------------------------------------ *)
(** ** The graphs of the example scenarios *)

Definition scenario_node (i : string) : FlowNode.t :=
  FlowNode.mk i (Some "textNode") (XYPosition.mk (Zero false) (Zero false))
    (TextNodeData.mk i) None None.

Definition scenario_edge (s t : string) : FlowEdge.t :=
  FlowEdge.mk ("reactflow__edge-" ++ s ++ "source-" ++ t ++ "target") s t
    (HStr "source") (HStr "target") (Some false) None.

Definition scenario_proposal (s t : string) : Connection.t :=
  Connection.mk (Some s) (Some t) (Some "source") (Some "target").

(* ------------------------------------------------------------------ *)
(** ** The page around the canvas ([Builder.tsx]) and the selection
       callback of [FlowBuilder.tsx] *)

(** [NotificationState] ([nodeTypes.ts]). *)
Inductive NotificationState : Type :=
| NotificationIdle
| NotificationSuccess (message : string)
| NotificationError (message : string).

Module FlowBuilder.
(** [handleSelectionChange] of [FlowBuilder.tsx]: what it passes to
    [onSelectionChange], the id of the first selected node or [null]. *)
Definition handleSelectionChange (selectedNodes : list FlowNode.t) : option string :=
  match selectedNodes with
  | n :: _ => Some (FlowNode.id n)
  | [] => None
  end.
End FlowBuilder.

Module Builder.
(** The React state of the page, and the canvas it contains. *)
Record t : Type := mk {
  selectedNodeId : option string;
  selectedNodeText : string;
  nodeCount : nat;
  notification : NotificationState;
  flow : Canvas.t
}.
End Builder.

Definition INITIAL_NODE_COUNT : nat := 1.

Definition initialBuilder : Builder.t :=
  Builder.mk None EmptyString INITIAL_NODE_COUNT NotificationIdle initialCanvas.

(** A value of type [string | null] taken as a condition: [null] and the
    empty string are false. *)
Definition truthy (s : option string) : bool :=
  match s with
  | Some str => negb (String.eqb str EmptyString)
  | None => false
  end.

(** [nodes.find((n) => n.id === nodeId)]. *)
Definition find_node (nodes : list FlowNode.t) (nodeId : string) : option FlowNode.t :=
  List.find (fun n => String.eqb (FlowNode.id n) nodeId) nodes.

(** [showNotification]: the notification shown (the timer that clears it
    after [NOTIFICATION_DURATION] is not modelled). *)
Definition showNotification (n : NotificationState) (b : Builder.t) : Builder.t :=
  Builder.mk (Builder.selectedNodeId b) (Builder.selectedNodeText b)
    (Builder.nodeCount b) n (Builder.flow b).

(** [handleSelectionChange] of [Builder.tsx]; [getFlowData] gives the nodes
    of the canvas. *)
Definition handleSelectionChange (nodeId : option string) (b : Builder.t) : Builder.t :=
  let text :=
    match nodeId with
    | Some i =>
        if truthy nodeId then
          match find_node (Canvas.nodes (Builder.flow b)) i with
          | Some node => TextNodeData.text (FlowNode.data node)
          | None => EmptyString
          end
        else EmptyString
    | None => EmptyString
    end in
  Builder.mk nodeId text (Builder.nodeCount b) (Builder.notification b) (Builder.flow b).

(** [handleTextChange]. *)
Definition handleTextChange (newText : string) (b : Builder.t) : Builder.t :=
  Builder.mk (Builder.selectedNodeId b) newText (Builder.nodeCount b)
    (Builder.notification b)
    (match Builder.selectedNodeId b with
     | Some i =>
         if truthy (Builder.selectedNodeId b)
         then updateNodeText i newText (Builder.flow b)
         else Builder.flow b
     | None => Builder.flow b
     end).

(** [handleBack]. *)
Definition handleBack (b : Builder.t) : Builder.t :=
  Builder.mk None EmptyString (Builder.nodeCount b) (Builder.notification b)
    (Builder.flow b).

(** [showSettingsPanel]. *)
Definition showSettingsPanel (b : Builder.t) : bool :=
  match Builder.selectedNodeId b with
  | Some _ => true
  | None => false
  end.

(** [handleSave]. *)
Definition handleSave (b : Builder.t) : Builder.t :=
  let result :=
    validateFlow (Canvas.nodes (Builder.flow b)) (Canvas.edges (Builder.flow b)) in
  showNotification
    (if ValidationResult.valid result
     then NotificationSuccess (ValidationResult.message result)
     else NotificationError (ValidationResult.message result)) b.

(** [handleExportImage]: the page after the awaited export, or the value
    the export was rejected with. *)
Definition handleExportImage (env : Browser.t) (b : Builder.t) : outcome Builder.t :=
  match exportFlowAsImage env with
  | Throws err => Throws err
  | Returns result =>
      Returns
        (showNotification
           (if ImageExportResult.success result
            then NotificationSuccess "Canvas exported as PNG successfully!"
            else NotificationError
                   ("Image export failed: "
                      ++ match ImageExportResult.error result with
                         | Some e => e
                         | None => "Unknown error"
                         end)) b)
  end.

(** The [disabled] property the page gives the export menu. *)
Definition export_disabled (b : Builder.t) : bool :=
  Nat.eqb (Builder.nodeCount b) 0.

(** [onNodesChange_external], as the page passes it: [setNodeCount]. *)
Definition onNodesChange_external (nodes : list FlowNode.t) (b : Builder.t) : Builder.t :=
  Builder.mk (Builder.selectedNodeId b) (Builder.selectedNodeText b)
    (List.length nodes) (Builder.notification b) (Builder.flow b).

Definition with_flow (st : Canvas.t) (b : Builder.t) : Builder.t :=
  Builder.mk (Builder.selectedNodeId b) (Builder.selectedNodeText b)
    (Builder.nodeCount b) (Builder.notification b) st.

(** A canvas event seen from the page: [onDrop] and [handleNodesChange]
    report the new nodes through [onNodesChange_external] (a drop without a
    type returns before it does); a mount starts the page state over. *)
Definition on_canvas_event (ev : event) (b : Builder.t) : Builder.t :=
  let st := handle_event ev (Builder.flow b) in
  match ev with
  | Drop type _ =>
      if String.eqb type EmptyString then b
      else onNodesChange_external (Canvas.nodes st) (with_flow st b)
  | NodesChanged _ => onNodesChange_external (Canvas.nodes st) (with_flow st b)
  | Remounted =>
      Builder.mk None EmptyString INITIAL_NODE_COUNT NotificationIdle st
  | _ => with_flow st b
  end.

(** What can happen on the page. *)
Inductive page_event : Type :=
| OnCanvas (ev : event)
| SelectionChanged (selectedNodes : list FlowNode.t)
| TextTyped (newText : string)
| BackClicked
| SaveClicked
| ExportImageClicked (env : Browser.t).

Definition handle_page_event (ev : page_event) (b : Builder.t) : Builder.t :=
  match ev with
  | OnCanvas e => on_canvas_event e b
  | SelectionChanged selectedNodes =>
      handleSelectionChange (FlowBuilder.handleSelectionChange selectedNodes) b
  | TextTyped newText => handleTextChange newText b
  | BackClicked => handleBack b
  | SaveClicked => handleSave b
  | ExportImageClicked env =>
      match handleExportImage env b with
      | Returns b' => b'
      | Throws _ => b
      end
  end.

Definition run_page (evs : list page_event) (b : Builder.t) : Builder.t :=
  fold_left (fun s ev => handle_page_event ev s) evs b.

(* ------------------------------------------------------------------ *)
(** ** Edges by the handle they leave, and drops that create a node *)

Definition source_key (e : FlowEdge.t) : string * handle :=
  (FlowEdge.source e, FlowEdge.sourceHandle e).

Definition creates_node (ev : event) : bool :=
  match ev with
  | Drop type _ => negb (String.eqb type EmptyString)
  | _ => false
  end.

Definition is_node_select (ch : NodeChange) : bool :=
  match ch with
  | NodeSelect _ _ => true
  | _ => false
  end.

Definition is_edge_select (ch : EdgeChange) : bool :=
  match ch with
  | EdgeSelect _ _ => true
  | _ => false
  end.

(** What the canvas keeps of its edges. *)
Definition edges_invariant (edges : list FlowEdge.t) : Prop :=
  NoDup (map source_key edges)
  /\ Forall (fun e => FlowEdge.source e <> FlowEdge.target e) edges.

(** Two nodes that the export does not tell apart: same id, type and text,
    and coordinates equal under [===]. *)
Definition same_exported_node (a b : FlowNode.t) : Prop :=
  FlowNode.id a = FlowNode.id b
  /\ FlowNode.type a = FlowNode.type b
  /\ TextNodeData.text (FlowNode.data a) = TextNodeData.text (FlowNode.data b)
  /\ number_strict_eq (XYPosition.x (FlowNode.position a))
       (XYPosition.x (FlowNode.position b)) = true
  /\ number_strict_eq (XYPosition.y (FlowNode.position a))
       (XYPosition.y (FlowNode.position b)) = true.

(* ------------------------------------------------------------------ *)
(** ** The export menu ([ExportMenu.tsx]) *)

(** The two properties the menu calls. *)
Inductive menu_call : Type :=
| OnExportJSON
| OnExportImage.

Module ExportMenu.
(** The React state of one mounted menu; [pending] counts the promises of
    [onExportImage] it awaits that have not settled. *)
Record t : Type := mk { isOpen : bool; imageLoading : bool; pending : nat }.

Definition initial : t := mk false false 0.

(** [toggleMenu]. *)
Definition toggleMenu (disabled : bool) (m : t) : t :=
  if negb disabled then mk (negb (isOpen m)) (imageLoading m) (pending m) else m.

(** [handleOutsideClick]; [inside] is [wrapperRef.current.contains(e.target)]. *)
Definition handleOutsideClick (inside : bool) (m : t) : t :=
  if negb inside then mk false (imageLoading m) (pending m) else m.

(** [handleExportJSON]: the property is called, then the menu closes. *)
Definition handleExportJSON (m : t) : t * list menu_call :=
  (mk false (imageLoading m) (pending m), [OnExportJSON]).

(** [handleExportImage] up to its [await]. *)
Definition handleExportImage (m : t) : t * list menu_call :=
  (mk (isOpen m) true (S (pending m)), [OnExportImage]).

(** The [finally] block of [handleExportImage], run when the awaited
    promise settles. *)
Definition handleExportImage_finally (m : t) : t :=
  mk false false (Nat.pred (pending m)).
End ExportMenu.

(** What can happen to the menu. *)
Inductive menu_event : Type :=
| TriggerClicked
| MouseDown (inside : bool)
| JSONItemClicked
| ImageItemClicked
| ImageExportSettled.

(** One event, [disabled] being the property at that moment. The markup
    decides which handler can run: the trigger button carries [disabled];
    the [mousedown] listener is installed while the menu is open; the two
    items are rendered while the menu is open, the image item with
    [disabled={imageLoading}]; and a promise settles only if one is
    awaited. *)
Definition menu_step (disabled : bool) (ev : menu_event) (m : ExportMenu.t)
  : ExportMenu.t * list menu_call :=
  match ev with
  | TriggerClicked =>
      (if disabled then m else ExportMenu.toggleMenu disabled m, [])
  | MouseDown inside =>
      (if ExportMenu.isOpen m then ExportMenu.handleOutsideClick inside m else m, [])
  | JSONItemClicked =>
      if ExportMenu.isOpen m then ExportMenu.handleExportJSON m else (m, [])
  | ImageItemClicked =>
      if ExportMenu.isOpen m && negb (ExportMenu.imageLoading m)
      then ExportMenu.handleExportImage m
      else (m, [])
  | ImageExportSettled =>
      (match ExportMenu.pending m with
       | O => m
       | S _ => ExportMenu.handleExportImage_finally m
       end, [])
  end.

Fixpoint run_menu (evs : list (bool * menu_event)) (m : ExportMenu.t)
  : ExportMenu.t * list menu_call :=
  match evs with
  | [] => (m, [])
  | (disabled, ev) :: rest =>
      let (m1, calls1) := menu_step disabled ev m in
      let (m2, calls2) := run_menu rest m1 in
      (m2, List.app calls1 calls2)
  end.

(* ------------------------------------------------------------------ *)
(** ** The notification and its timer ([showNotification] of
       [Builder.tsx]) *)

Definition NOTIFICATION_DURATION : N := 3500.

Module Toast.
(** The notification of the page with what its timer needs: the ref
    [notifTimerRef], the timers set by [showNotification] that have not run
    (id and due time in milliseconds), the id the next [setTimeout] returns
    (ids are positive), and the clock. *)
Record t : Type := mk {
  notification : NotificationState;
  notifTimerRef : option N;
  timers : list (N * N);
  nextTimerId : N;
  now : N
}.

Definition initial : t := mk NotificationIdle None [] 1 0.

(** [clearTimeout]: a pending timer with this id is dropped. *)
Definition clearTimeout (id : N) (pending : list (N * N)) : list (N * N) :=
  filter (fun tm => negb (N.eqb (fst tm) id)) pending.

(** [showNotification]. *)
Definition showNotification (n : NotificationState) (s : t) : t :=
  let kept :=
    match notifTimerRef s with
    | Some id => if N.eqb id 0 then timers s else clearTimeout id (timers s)
    | None => timers s
    end in
  let id := nextTimerId s in
  mk n (Some id)
    (List.app kept [(id, (now s + NOTIFICATION_DURATION)%N)])
    (id + 1)%N (now s).

(** Time passes. *)
Definition elapse (dt : N) (s : t) : t :=
  mk (notification s) (notifTimerRef s) (timers s) (nextTimerId s) (now s + dt)%N.

(** The browser runs the callback of timer [id], which it does only for a
    pending timer whose delay is over: [setNotification({ status: 'idle' })]. *)
Definition fire (id : N) (s : t) : t :=
  if existsb (fun tm => N.eqb (fst tm) id && N.leb (snd tm) (now s)) (timers s)
  then mk NotificationIdle (notifTimerRef s) (clearTimeout id (timers s))
         (nextTimerId s) (now s)
  else s.
End Toast.

Inductive toast_event : Type :=
| Shown (n : NotificationState)
| Elapsed (dt : N)
| TimerFired (id : N).

Definition toast_step (ev : toast_event) (s : Toast.t) : Toast.t :=
  match ev with
  | Shown n => Toast.showNotification n s
  | Elapsed dt => Toast.elapse dt s
  | TimerFired id => Toast.fire id s
  end.

Definition run_toast (evs : list toast_event) (s : Toast.t) : Toast.t :=
  fold_left (fun s ev => toast_step ev s) evs s.

Definition shows_nothing (ev : toast_event) : bool :=
  match ev with
  | Shown _ => false
  | _ => true
  end.

(** The time a list of events takes. *)
Fixpoint elapsed (evs : list toast_event) : N :=
  match evs with
  | [] => 0
  | Elapsed dt :: rest => dt + elapsed rest
  | _ :: rest => elapsed rest
  end.

(** At most one timer is pending, and the ref holds its id. *)
Definition toast_invariant (s : Toast.t) : Prop :=
  Toast.timers s = []
  \/ exists id due,
       Toast.timers s = [(id, due)] /\ Toast.notifTimerRef s = Some id /\ id <> 0%N.


(* ------------------------------------------------------------------ *)
(** ** The steps of the image export, seen from outside *)

(** The three calls of the [try] block all return. *)
Definition try_block_succeeds (env : Browser.t) : Prop :=
  exists el dataUrl,
    Browser.querySelector env ".react-flow" = Returns (Some el)
    /\ Browser.toPng env el (PngOptions.mk "#f1f5f9" 2 true) = Returns dataUrl
    /\ Browser.download env "chatbot-flow.png" dataUrl = Returns tt.

(** One of the three calls of the [try] block throws [err]: the lookup, or
    the rasterization of the element found, or the download of the image. *)
Definition try_block_throws (env : Browser.t) (err : thrown) : Prop :=
  Browser.querySelector env ".react-flow" = Throws err
  \/ (exists el,
        Browser.querySelector env ".react-flow" = Returns (Some el)
        /\ (Browser.toPng env el (PngOptions.mk "#f1f5f9" 2 true) = Throws err
            \/ exists dataUrl,
                 Browser.toPng env el (PngOptions.mk "#f1f5f9" 2 true) = Returns dataUrl
                 /\ Browser.download env "chatbot-flow.png" dataUrl = Throws err)).

(** The text the result carries for a value caught. *)
Definition reported_message (err : thrown) : string :=
  match err with
  | ErrorInstance message => message
  | NotAnError _ => "Unknown error during image export."
  end.


(* ------------------------------------------------------------------ *)
(** ** The pair an edge leaves by, as the specification names it *)

(** The (source node id, source handle) pair of an existing edge and of a
    proposed connection, as JavaScript values: a node id is a string or
    [null], a handle is a string, [null] or [undefined]. Two pairs are the
    same when they are equal. *)
Definition edge_source_pair (e : FlowEdge.t) : option string * handle :=
  (Some (FlowEdge.source e), FlowEdge.sourceHandle e).

Definition proposal_source_pair (c : Connection.t) : option string * handle :=
  (Connection.source c,
   match Connection.sourceHandle c with
   | Some h => HStr h
   | None => HNull
   end).


(* ------------------------------------------------------------------ *)
(** ** The round trip for every graph *)

Module ParsedNode.
(** A node read from the document, its coordinates as the values found. *)
Record t : Type := mk { id : string; x : value; y : value; text : string }.
End ParsedNode.

Definition parse_node (o : value) : option ParsedNode.t :=
  match read_string o "id", Get o "position", Get o "data" with
  | Some i, Some pos, Some dat =>
      match Get pos "x", Get pos "y", read_string dat "text" with
      | Some vx, Some vy, Some txt => Some (ParsedNode.mk i vx vy txt)
      | _, _, _ => None
      end
  | _, _, _ => None
  end.

Definition parse_flow (doc : value)
    : option (list ParsedNode.t * list (string * string * string)) :=
  match Get doc "nodes", Get doc "edges" with
  | Some (VArray ns), Some (VArray es) =>
      match read_all parse_node ns, read_all read_edge es with
      | Some rn, Some re => Some (rn, re)
      | _, _ => None
      end
  | _, _ => None
  end.

(** A coordinate as it comes back: a finite number as a number equal to it
    under [===], NaN and the infinities as [null]. *)
Definition coordinate_comes_back (x : number) (v : value) : Prop :=
  match x with
  | NaN | PosInfinity | NegInfinity => v = VNull
  | Zero _ | Finite _ _ _ => exists x', v = VNumber x' /\ number_strict_eq x' x = true
  end.

Definition node_comes_back (n : FlowNode.t) (r : ParsedNode.t) : Prop :=
  ParsedNode.id r = FlowNode.id n
  /\ coordinate_comes_back (XYPosition.x (FlowNode.position n)) (ParsedNode.x r)
  /\ coordinate_comes_back (XYPosition.y (FlowNode.position n)) (ParsedNode.y r)
  /\ ParsedNode.text r = TextNodeData.text (FlowNode.data n).


(* ================================================================== *)
(** * Properties *)

(* ------------------------------------------------------------------ *)
(** ** The validator *)

Lemma Set_has_add (s : list string) (a x : string) :
  Set_has (Set_add s a) x = Set_has s x || String.eqb x a.
Proof.
  unfold Set_add.
  destruct (Set_has s a) eqn:Ha.
  - destruct (String.eqb x a) eqn:Hx.
    + apply String.eqb_eq in Hx. subst x. rewrite Ha. reflexivity.
    + now rewrite orb_false_r.
  - unfold Set_has. rewrite existsb_app. simpl. now rewrite orb_false_r.
Qed.

Lemma Set_has_fold (l acc : list string) (x : string) :
  Set_has (fold_left Set_add l acc) x = Set_has acc x || existsb (String.eqb x) l.
Proof.
  revert acc. induction l as [|a l IH]; intros acc; simpl.
  - now rewrite orb_false_r.
  - rewrite IH, Set_has_add. now rewrite orb_assoc.
Qed.

Lemma Set_has_new_Set (l : list string) (x : string) :
  Set_has (new_Set l) x = existsb (String.eqb x) l.
Proof.
  unfold new_Set. now rewrite Set_has_fold.
Qed.

Lemma has_no_incoming_edge_spec (edges : list FlowEdge.t) (node : FlowNode.t) :
  has_no_incoming_edge edges node = true
  <-> forall e, In e edges -> FlowEdge.target e <> FlowNode.id node.
Proof.
  unfold has_no_incoming_edge, is_target_of. rewrite forallb_forall.
  split; intros H e He; specialize (H e He).
  - apply negb_true_iff in H. now apply String.eqb_neq.
  - apply negb_true_iff. now apply String.eqb_neq.
Qed.

Lemma not_in_incoming_set (edges : list FlowEdge.t) (node : FlowNode.t) :
  negb (Set_has (new_Set (map FlowEdge.target edges)) (FlowNode.id node))
  = has_no_incoming_edge edges node.
Proof.
  rewrite Set_has_new_Set. unfold has_no_incoming_edge, is_target_of.
  induction edges as [|e edges IH]; simpl; [reflexivity|].
  rewrite negb_orb, IH. now rewrite (String.eqb_sym (FlowNode.id node)).
Qed.

Lemma nodesWithoutIncoming_length (nodes : list FlowNode.t) (edges : list FlowEdge.t) :
  List.length
    (filter (fun node =>
               negb (Set_has (new_Set (map FlowEdge.target edges)) (FlowNode.id node)))
       nodes)
  = root_count nodes edges.
Proof.
  unfold root_count. f_equal. apply filter_ext. intros n. apply not_in_incoming_set.
Qed.

(** C1. On a graph of two nodes or more, [validateFlow] answers
    [valid = false] exactly when more than one node has an id that is the
    target of no edge; the message is then the rejection text, and the
    success text otherwise. *)
Theorem validateFlow_rejects_iff_many_roots
    (nodes : list FlowNode.t) (edges : list FlowEdge.t) :
  2 <= List.length nodes ->
  (ValidationResult.valid (validateFlow nodes edges) = false
   <-> 1 < root_count nodes edges)
  /\ (ValidationResult.valid (validateFlow nodes edges) = false ->
      ValidationResult.message (validateFlow nodes edges)
      = "Cannot save flow: More than one node has empty target handles.")
  /\ (ValidationResult.valid (validateFlow nodes edges) = true ->
      ValidationResult.message (validateFlow nodes edges)
      = "Flow saved successfully!").
Proof.
  intros Hlen. unfold validateFlow.
  destruct (Nat.leb_spec (List.length nodes) 1) as [Hle|_]; [lia|].
  rewrite nodesWithoutIncoming_length.
  destruct (Nat.ltb_spec 1 (root_count nodes edges)) as [Hr|Hr]; simpl.
  - repeat split; auto; discriminate.
  - repeat split; try discriminate; auto. intros; lia.
Qed.

Lemma validateFlow_rejects_iff_many_roots_witness :
  let a := FlowNode.mk "A" (Some "textNode") (XYPosition.mk (Zero false) (Zero false))
             (TextNodeData.mk "a") None None in
  let b := FlowNode.mk "B" None (XYPosition.mk NaN (Zero true))
             (TextNodeData.mk "b") None None in
  let c := FlowNode.mk "C" (Some "textNode") (XYPosition.mk (Zero false) (Zero false))
             (TextNodeData.mk "c") None None in
  let ab := FlowEdge.mk "e1" "A" "B" (HStr "source") (HStr "target") None None in
  ValidationResult.valid (validateFlow [a; b; c] [ab]) = false
  /\ root_count [a; b; c] [ab] = 2.
Proof.
  intros a b c ab.
  destruct (validateFlow_rejects_iff_many_roots [a; b; c] [ab]) as [H _].
  - simpl. lia.
  - split; [apply H; vm_compute; lia | reflexivity].
Defined.

(** C2. On a graph of no node or one node, [validateFlow] answers
    [valid = true] with the success text, whatever the edges are. *)
Theorem validateFlow_trivial_graph
    (nodes : list FlowNode.t) (edges : list FlowEdge.t) :
  List.length nodes <= 1 ->
  validateFlow nodes edges = ValidationResult.mk true "Flow saved successfully!".
Proof.
  intros Hlen. unfold validateFlow.
  destruct (Nat.leb_spec (List.length nodes) 1) as [_|Hgt]; [reflexivity|lia].
Qed.

Lemma validateFlow_trivial_graph_witness :
  let a := FlowNode.mk "A" (Some "textNode") (XYPosition.mk (Zero false) (Zero false))
             (TextNodeData.mk "a") None None in
  let dangling := FlowEdge.mk "e1" "X" "Y" HNull HUndefined None None in
  validateFlow [a] [dangling; dangling]
  = ValidationResult.mk true "Flow saved successfully!".
Proof.
  intros a dangling. apply validateFlow_trivial_graph. simpl. lia.
Defined.

(* ------------------------------------------------------------------ *)
(** ** The admission predicate *)

Lemma nullable_strict_eq_refl (a : option string) : nullable_strict_eq a a = true.
Proof.
  destruct a; simpl; [apply String.eqb_refl | reflexivity].
Qed.

Lemma nullable_strict_eq_eq (a b : option string) :
  nullable_strict_eq a b = true <-> a = b.
Proof.
  destruct a, b; simpl; split; try congruence.
  - intros H. apply String.eqb_eq in H. now subst.
  - intros [= ->]. apply String.eqb_refl.
Qed.

Lemma same_source_handle_spec (c : Connection.t) (e : FlowEdge.t) :
  same_source_handle c e = true
  <-> Connection.source c = Some (FlowEdge.source e)
      /\ handle_strict_eq (FlowEdge.sourceHandle e) (Connection.sourceHandle c) = true.
Proof.
  unfold same_source_handle. rewrite andb_true_iff, nullable_strict_eq_eq.
  intuition congruence.
Qed.

Lemma existsb_Permutation {A : Type} (f : A -> bool) (l l' : list A) :
  Permutation l l' -> existsb f l = existsb f l'.
Proof.
  induction 1; simpl.
  - reflexivity.
  - now rewrite IHPermutation.
  - now rewrite !orb_assoc, (orb_comm (f y)).
  - congruence.
Qed.

Lemma same_source_handle_pair (c : Connection.t) (e : FlowEdge.t) :
  same_source_handle c e = true <-> edge_source_pair e = proposal_source_pair c.
Proof.
  rewrite same_source_handle_spec. unfold edge_source_pair, proposal_source_pair.
  destruct (FlowEdge.sourceHandle e) as [| |h], (Connection.sourceHandle c) as [h'|];
    cbn [handle_strict_eq]; (split; [intros [Hs Hh] | intros H]);
    try discriminate Hh.
  all: try (pose proof (f_equal snd H) as Hh; cbn [snd] in Hh; discriminate Hh).
  - now rewrite Hs.
  - pose proof (f_equal fst H) as Hs. cbn [fst] in Hs. now split.
  - apply String.eqb_eq in Hh. now rewrite Hs, Hh.
  - pose proof (f_equal fst H) as Hs. pose proof (f_equal snd H) as Hh.
    cbn [fst snd] in Hs, Hh. injection Hh as ->.
    split; [now symmetry | apply String.eqb_refl].
Qed.

(** C3, as the code has it.  A connection is admitted exactly when its
    source and target differ and no existing edge has the same
    (source node, source handle) pair; an edge with that pair always
    rejects it; and the verdict does not depend on the order of the edges. *)
Theorem isValidConnection_single_outgoing_edge
    (edges : list FlowEdge.t) (c : Connection.t) :
  (isValidConnection edges c = true
   <-> Connection.source c <> Connection.target c
       /\ forall e, In e edges -> edge_source_pair e <> proposal_source_pair c)
  /\ ((exists e, In e edges /\ edge_source_pair e = proposal_source_pair c) ->
      isValidConnection edges c = false)
  /\ (forall edges', Permutation edges edges' ->
      isValidConnection edges' c = isValidConnection edges c).
Proof.
  unfold isValidConnection. split; [split|split].
  - destruct (nullable_strict_eq _ _) eqn:Hst; [discriminate|].
    intros Hn. apply negb_true_iff in Hn. split.
    + intros E. apply nullable_strict_eq_eq in E. congruence.
    + intros e He Hpair. apply same_source_handle_pair in Hpair.
      assert (existsb (same_source_handle c) edges = true)
        by (apply existsb_exists; eauto).
      congruence.
  - intros [Hne Hall].
    destruct (nullable_strict_eq _ _) eqn:Hst.
    + apply nullable_strict_eq_eq in Hst. contradiction.
    + apply negb_true_iff.
      destruct (existsb (same_source_handle c) edges) eqn:Hex; [|reflexivity].
      apply existsb_exists in Hex. destruct Hex as [e [He Hs]].
      apply same_source_handle_pair in Hs. destruct (Hall e He Hs).
  - intros [e [He Hs]]. apply same_source_handle_pair in Hs.
    destruct (nullable_strict_eq _ _); [reflexivity|].
    apply negb_false_iff. apply existsb_exists. eauto.
  - intros edges' HP. now rewrite (existsb_Permutation _ _ _ HP).
Qed.

Lemma isValidConnection_single_outgoing_edge_witness :
  let ac := FlowEdge.mk "e1" "A" "C" (HStr "source") (HStr "target") None None in
  let bc := FlowEdge.mk "e2" "B" "C" (HStr "source") (HStr "target") None None in
  let ab := Connection.mk (Some "A") (Some "B") (Some "source") (Some "target") in
  let ab' := Connection.mk (Some "A") (Some "B") (Some "other") (Some "target") in
  isValidConnection [ac; bc] ab = false
  /\ isValidConnection [bc; ac] ab = isValidConnection [ac; bc] ab
  /\ isValidConnection [ac; bc] ab' = true.
Proof.
  intros ac bc ab ab'.
  destruct (isValidConnection_single_outgoing_edge [ac; bc] ab) as [_ [Hrej Hperm]].
  destruct (isValidConnection_single_outgoing_edge [ac; bc] ab') as [[_ Hadm] _].
  split; [|split].
  - apply Hrej. exists ac. split; [simpl; auto | reflexivity].
  - apply Hperm. apply perm_swap.
  - apply Hadm. split; [discriminate|].
    intros e [<-|[<-|[]]]; discriminate.
Defined.

(** C3, as stated, fails: a connection from a node to itself is rejected
    although no existing edge has its (source node, source handle) pair. *)
Lemma isValidConnection_accepts_otherwise_fails :
  ~ (forall (edges : list FlowEdge.t) (c : Connection.t),
        (forall e, In e edges -> edge_source_pair e <> proposal_source_pair c) ->
        isValidConnection edges c = true).
Proof.
  intros H.
  specialize (H [] (Connection.mk (Some "A") (Some "A") (Some "source") (Some "target"))).
  simpl in H. discriminate H. intros e [].
Qed.

(** C4. A connection whose source node is its target node is rejected,
    whatever the existing edges are. *)
Theorem isValidConnection_rejects_self_loop
    (edges : list FlowEdge.t) (c : Connection.t) :
  Connection.source c = Connection.target c ->
  isValidConnection edges c = false.
Proof.
  intros E. unfold isValidConnection. rewrite E, nullable_strict_eq_refl. reflexivity.
Qed.

Lemma isValidConnection_rejects_self_loop_witness :
  isValidConnection
    [FlowEdge.mk "e1" "B" "C" (HStr "source") (HStr "target") None None]
    (Connection.mk (Some "A") (Some "A") (Some "source") (Some "target")) = false.
Proof.
  apply isValidConnection_rejects_self_loop. reflexivity.
Defined.

(* ------------------------------------------------------------------ *)
(** ** The image export *)

Lemma try_block_one_outcome (env : Browser.t) :
  (Browser.querySelector env ".react-flow" = Returns None
   /\ ~ try_block_succeeds env /\ (forall err, ~ try_block_throws env err))
  \/ (try_block_succeeds env
      /\ Browser.querySelector env ".react-flow" <> Returns None
      /\ (forall err, ~ try_block_throws env err))
  \/ (exists err,
         try_block_throws env err
         /\ Browser.querySelector env ".react-flow" <> Returns None
         /\ ~ try_block_succeeds env
         /\ forall err', try_block_throws env err' -> err' = err).
Proof.
  unfold try_block_succeeds, try_block_throws.
  destruct (Browser.querySelector env ".react-flow") as [[el|]|e0] eqn:Hq.
  - destruct (Browser.toPng env el (PngOptions.mk "#f1f5f9" 2 true)) as [url|e1] eqn:Hp.
    + destruct (Browser.download env "chatbot-flow.png" url) as [[]|e2] eqn:Hd.
      * right. left. split; [exists el, url; repeat split; assumption|].
        split; [discriminate|].
        intros err [H|[el' [Hel [H|[u [H1 H2]]]]]];
          try discriminate; injection Hel as <-; congruence.
      * right. right. exists e2. split; [|split; [discriminate|split]].
        -- right. exists el. split; [reflexivity|]. right. exists url. now split.
        -- intros [el' [u [Hel [Hu Hdl]]]]. injection Hel as <-. congruence.
        -- intros err [H|[el' [Hel [H|[u [H1 H2]]]]]];
             try discriminate; injection Hel as <-; congruence.
    + right. right. exists e1. split; [|split; [discriminate|split]].
      * right. exists el. split; [reflexivity|]. now left.
      * intros [el' [u [Hel [Hu _]]]]. injection Hel as <-. congruence.
      * intros err [H|[el' [Hel [H|[u [H1 H2]]]]]];
          try discriminate; injection Hel as <-; congruence.
  - left. split; [reflexivity|]. split.
    + intros [el' [u [Hel _]]]. discriminate.
    + intros err [H|[el' [Hel _]]]; discriminate.
  - right. right. exists e0. split; [now left|]. split; [discriminate|]. split.
    + intros [el' [u [Hel _]]]. discriminate.
    + intros err [H|[el' [Hel _]]]; [congruence|discriminate].
Qed.

Lemma exportFlowAsImage_not_found (env : Browser.t) :
  Browser.querySelector env ".react-flow" = Returns None ->
  exportFlowAsImage env
  = Returns (ImageExportResult.mk false (Some "Could not find the flow canvas element.")).
Proof.
  intros Hq. unfold exportFlowAsImage. now rewrite Hq.
Qed.

Lemma exportFlowAsImage_succeeds (env : Browser.t) :
  try_block_succeeds env ->
  exportFlowAsImage env = Returns (ImageExportResult.mk true None).
Proof.
  intros [el [url [Hq [Hp Hd]]]]. unfold exportFlowAsImage. now rewrite Hq, Hp, Hd.
Qed.

Lemma exportFlowAsImage_catches (env : Browser.t) (err : thrown) :
  try_block_throws env err ->
  exportFlowAsImage env = image_export_catch env err.
Proof.
  unfold exportFlowAsImage.
  intros [Hq|[el [Hq [Hp|[url [Hp Hd]]]]]]; rewrite Hq; [reflexivity|..];
    rewrite Hp; [reflexivity|]. now rewrite Hd.
Qed.

Lemma image_export_catch_returns (env : Browser.t) (err : thrown) :
  Browser.console_error env "[exportFlowAsImage]" err = Returns tt ->
  image_export_catch env err
  = Returns (ImageExportResult.mk false (Some (reported_message err))).
Proof.
  intros Hc. unfold image_export_catch. rewrite Hc. destruct err; reflexivity.
Qed.

Lemma image_export_catch_cases (env : Browser.t) (err : thrown) :
  (Browser.console_error env "[exportFlowAsImage]" err = Returns tt
   /\ image_export_catch env err
      = Returns (ImageExportResult.mk false (Some (reported_message err))))
  \/ (exists e,
         Browser.console_error env "[exportFlowAsImage]" err = Throws e
         /\ image_export_catch env err = Throws e).
Proof.
  unfold image_export_catch.
  destruct (Browser.console_error env "[exportFlowAsImage]" err) as [[]|e].
  - left. split; [reflexivity|]. destruct err; reflexivity.
  - right. exists e. now split.
Qed.

Lemma exportFlowAsImage_throws_inv (env : Browser.t) (e : thrown) :
  exportFlowAsImage env = Throws e ->
  exists err,
    try_block_throws env err
    /\ Browser.console_error env "[exportFlowAsImage]" err = Throws e.
Proof.
  intros H.
  destruct (try_block_one_outcome env) as [[Hq _]|[[Hs _]|[err [Ht _]]]].
  - rewrite (exportFlowAsImage_not_found env Hq) in H. discriminate.
  - rewrite (exportFlowAsImage_succeeds env Hs) in H. discriminate.
  - exists err. split; [exact Ht|].
    rewrite (exportFlowAsImage_catches env err Ht) in H.
    destruct (image_export_catch_cases env err) as [[_ Hr]|[e' [Hc Hr]]];
      rewrite Hr in H; [discriminate|]. injection H as <-. exact Hc.
Qed.

(** C6, as the code has it.  As long as the [console.error] call of the
    [catch] clause returns, [exportFlowAsImage] does not throw: the promise
    is fulfilled with a result object.  That object is the canvas-not-found
    failure when the element is missing; a failure carrying the message of
    the [Error] thrown by the lookup, the rasterization or the download; a
    failure carrying the fixed text [Unknown error during image export.]
    when what was thrown is not an [Error]; and the success object when
    nothing throws.  The promise is rejected only when a step of the [try]
    block threw and [console.error], called with what was caught, throws in
    its turn; it is then rejected with what [console.error] threw. *)
Theorem exportFlowAsImage_returns_unless_console_throws (env : Browser.t) :
  ((forall err,
       try_block_throws env err ->
       Browser.console_error env "[exportFlowAsImage]" err = Returns tt) ->
   exists r : ImageExportResult.t,
     exportFlowAsImage env = Returns r
     /\ (Browser.querySelector env ".react-flow" = Returns None ->
         r = ImageExportResult.mk false (Some "Could not find the flow canvas element."))
     /\ (forall el dataUrl,
           Browser.querySelector env ".react-flow" = Returns (Some el) ->
           Browser.toPng env el (PngOptions.mk "#f1f5f9" 2 true) = Returns dataUrl ->
           Browser.download env "chatbot-flow.png" dataUrl = Returns tt ->
           r = ImageExportResult.mk true None)
     /\ (forall err,
           Browser.querySelector env ".react-flow" = Throws err
           \/ (exists el,
                 Browser.querySelector env ".react-flow" = Returns (Some el)
                 /\ (Browser.toPng env el (PngOptions.mk "#f1f5f9" 2 true) = Throws err
                     \/ exists dataUrl,
                          Browser.toPng env el (PngOptions.mk "#f1f5f9" 2 true)
                          = Returns dataUrl
                          /\ Browser.download env "chatbot-flow.png" dataUrl
                             = Throws err)) ->
           ImageExportResult.success r = false
           /\ ImageExportResult.error r
              = Some match err with
                     | ErrorInstance message => message
                     | NotAnError _ => "Unknown error during image export."
                     end))
  /\ (forall e,
        exportFlowAsImage env = Throws e ->
        exists err,
          (Browser.querySelector env ".react-flow" = Throws err
           \/ (exists el,
                 Browser.querySelector env ".react-flow" = Returns (Some el)
                 /\ (Browser.toPng env el (PngOptions.mk "#f1f5f9" 2 true) = Throws err
                     \/ exists dataUrl,
                          Browser.toPng env el (PngOptions.mk "#f1f5f9" 2 true)
                          = Returns dataUrl
                          /\ Browser.download env "chatbot-flow.png" dataUrl
                             = Throws err)))
          /\ Browser.console_error env "[exportFlowAsImage]" err = Throws e).
Proof.
  split; [|exact (exportFlowAsImage_throws_inv env)].
  intros Hlog.
  destruct (try_block_one_outcome env)
    as [[Hq [Hns Hnt]]|[[Hs [Hq Hnt]]|[err [Ht [Hq [Hns Hone]]]]]].
  - eexists. split; [exact (exportFlowAsImage_not_found env Hq)|].
    split; [reflexivity|]. split.
    + intros el url Hel. congruence.
    + intros err Herr. destruct (Hnt err Herr).
  - eexists. split; [exact (exportFlowAsImage_succeeds env Hs)|].
    split; [intros Hnone; contradiction|]. split; [reflexivity|].
    intros err Herr. destruct (Hnt err Herr).
  - eexists. split.
    + rewrite (exportFlowAsImage_catches env err Ht).
      exact (image_export_catch_returns env err (Hlog err Ht)).
    + split; [intros Hnone; contradiction|]. split.
      * intros el url H1 H2 H3. destruct Hns. exists el, url. now repeat split.
      * intros err' Herr'. rewrite (Hone err' Herr'). split; reflexivity.
Qed.

Lemma exportFlowAsImage_returns_unless_console_throws_witness :
  let env :=
    Browser.mk (fun _ => Returns (Some "div.react-flow"))
      (fun _ _ => Throws (ErrorInstance "tainted canvas"))
      (fun _ _ => Returns tt)
      (fun _ _ => Returns tt) in
  exists r, exportFlowAsImage env = Returns r
            /\ ImageExportResult.success r = false
            /\ ImageExportResult.error r = Some "tainted canvas".
Proof.
  intros env.
  destruct (proj1 (exportFlowAsImage_returns_unless_console_throws env) (fun _ _ => eq_refl))
    as [r [Hr [_ [_ Herr]]]].
  exists r. split; [exact Hr|].
  apply (Herr (ErrorInstance "tainted canvas")).
  right. exists "div.react-flow". split; [reflexivity|]. left. reflexivity.
Defined.

(** C6, as stated, fails twice.  The promise is rejected when the
    rasterization throws and [console.error] throws on what was caught; and
    when the rasterization throws a value that is not an [Error], the result
    does not carry that value's message. *)
Lemma exportFlowAsImage_as_stated_fails :
  ~ (forall env : Browser.t, exists r, exportFlowAsImage env = Returns r)
  /\ ~ (forall (env : Browser.t) (el : string) (err : thrown),
          Browser.querySelector env ".react-flow" = Returns (Some el) ->
          Browser.toPng env el (PngOptions.mk "#f1f5f9" 2 true) = Throws err ->
          exportFlowAsImage env
          = Returns (ImageExportResult.mk false (thrown_message err))).
Proof.
  split.
  - intros H.
    destruct (H (Browser.mk (fun _ => Returns (Some "div.react-flow"))
                   (fun _ _ => Throws (ErrorInstance "tainted canvas"))
                   (fun _ _ => Returns tt)
                   (fun _ _ => Throws (ErrorInstance "console is closed"))))
      as [r Hr].
    discriminate Hr.
  - intros H.
    specialize (H (Browser.mk (fun _ => Returns (Some "div.react-flow"))
                     (fun _ _ => Throws (NotAnError (Some "image failed to load")))
                     (fun _ _ => Returns tt)
                     (fun _ _ => Returns tt))
                  "div.react-flow" (NotAnError (Some "image failed to load"))
                  eq_refl eq_refl).
    discriminate H.
Qed.

(* ------------------------------------------------------------------ *)
(** ** Decimal text of integers *)

Lemma uint_of_digits_of_uint (u : Decimal.uint) : uint_of_digits (digits_of_uint u) = u.
Proof.
  induction u; simpl; congruence.
Qed.

Lemma N_of_digits_of_N (n : N) : N_of_digits (digits_of_N n) = n.
Proof.
  unfold N_of_digits, digits_of_N. rewrite uint_of_digits_of_uint.
  apply DecimalN.Unsigned.of_to.
Qed.

Lemma char_of_digit_inj (a b : digit) : char_of_digit a = char_of_digit b -> a = b.
Proof.
  destruct a, b; simpl; intros H; try reflexivity; discriminate H.
Qed.

Lemma digit_of_char_of_digit (d : digit) : digit_of_char (char_of_digit d) = Some d.
Proof.
  destruct d; reflexivity.
Qed.

Lemma string_of_digits_inj (a b : list digit) :
  string_of_digits a = string_of_digits b -> a = b.
Proof.
  unfold string_of_digits. revert b.
  induction a as [|x a IH]; intros [|y b]; simpl; intros H; try discriminate.
  - reflexivity.
  - injection H as Hc Hr. f_equal; [now apply char_of_digit_inj | now apply IH].
Qed.

Lemma string_of_N_inj (a b : N) : string_of_N a = string_of_N b -> a = b.
Proof.
  unfold string_of_N. intros H. apply string_of_digits_inj in H.
  rewrite <- (N_of_digits_of_N a), <- (N_of_digits_of_N b). now rewrite H.
Qed.

Lemma padStart_two_digits (n : N) :
  (n < 100)%N -> padStart (string_of_N n) 2 "0" = two_digits n.
Proof.
  intros Hn.
  assert (Hall : forallb (fun k => String.eqb (padStart (string_of_N (N.of_nat k)) 2 "0")
                                     (two_digits (N.of_nat k))) (seq 0 100) = true)
    by (vm_compute; reflexivity).
  rewrite forallb_forall in Hall.
  specialize (Hall (N.to_nat n)).
  rewrite N2Nat.id in Hall. apply String.eqb_eq. apply Hall.
  apply in_seq. lia.
Qed.

Lemma getTodayString_valid (d : Date.t) :
  valid_date d ->
  getTodayString d
  = string_of_Z (Date.getFullYear d) ++ "-" ++ two_digits (Date.getMonth d + 1)
      ++ "-" ++ two_digits (Date.getDate d).
Proof.
  intros [Hm [Hd1 Hd2]]. unfold getTodayString.
  rewrite !padStart_two_digits by lia. reflexivity.
Qed.

Lemma four_digit_year (y : Z) :
  (1000 <= y <= 9999)%Z -> String.length (string_of_Z y) = 4.
Proof.
  intros Hy.
  assert (Hall : forallb (fun k => Nat.eqb (String.length
                                              (string_of_Z (1000 + Z.of_nat k))) 4)
                   (seq 0 (Z.to_nat 9000)) = true)
    by (vm_compute; reflexivity).
  rewrite forallb_forall in Hall.
  specialize (Hall (Z.to_nat (y - 1000))).
  replace (1000 + Z.of_nat (Z.to_nat (y - 1000)))%Z with y in Hall by lia.
  apply Nat.eqb_eq. apply Hall. apply in_seq. lia.
Qed.

Lemma two_digits_length (n : N) : String.length (two_digits n) = 2.
Proof.
  reflexivity.
Qed.

(* ------------------------------------------------------------------ *)
(** ** Node ids on the canvas *)




Lemma increment_at_most (c : N) :
  (c <= MAX_COUNTER)%N -> increment c = N.min (c + 1) MAX_COUNTER.
Proof.
  intros H. unfold increment. destruct (N.ltb_spec c MAX_COUNTER); lia.
Qed.



Lemma NoDup_snoc {A : Type} (l : list A) (x : A) :
  NoDup l -> ~ In x l -> NoDup (l ++ [x]).
Proof.
  intros Hl Hx. apply NoDup_app; [exact Hl | constructor; [intros [] | constructor] |].
  intros a Ha [<-|[]]. contradiction.
Qed.


Lemma map_id_same (f : FlowNode.t -> FlowNode.t) (l : list FlowNode.t) :
  (forall n, FlowNode.id (f n) = FlowNode.id n) ->
  map FlowNode.id (map f l) = map FlowNode.id l.
Proof.
  intros Hf. rewrite map_map. apply map_ext. exact Hf.
Qed.







Lemma run_cons (ev : event) (evs : list event) (st : Canvas.t) :
  run (ev :: evs) st = run evs (handle_event ev st).
Proof. reflexivity. Qed.




Lemma handle_event_counter_exact (ev : event) (st : Canvas.t) :
  (Canvas.nodeIdCounter st <= MAX_COUNTER)%N ->
  Canvas.nodeIdCounter (handle_event ev st)
  = N.min (Canvas.nodeIdCounter st + if creates_node ev then 1 else 0) MAX_COUNTER.
Proof.
  intros Hle.
  destruct ev as [type position|nodeId newText|c|changes|changes|];
    cbn [handle_event creates_node];
    try (cbn [updateNodeText handleNodesChange handleEdgesChange remount
                Canvas.nodeIdCounter]; lia).
  - unfold onDrop. destruct (String.eqb type EmptyString); cbn [negb]; [lia|].
    unfold generateNodeId. cbn [Canvas.nodeIdCounter]. now apply increment_at_most.
  - unfold onConnect. destruct (isValidConnection _ _); cbn [Canvas.nodeIdCounter]; lia.
Qed.

Lemma run_counter_exact (evs : list event) (st : Canvas.t) :
  (Canvas.nodeIdCounter st <= MAX_COUNTER)%N ->
  Canvas.nodeIdCounter (run evs st)
  = N.min (Canvas.nodeIdCounter st + N.of_nat (List.length (filter creates_node evs)))
      MAX_COUNTER.
Proof.
  revert st. induction evs as [|ev evs IH]; intros st Hle.
  - cbn. lia.
  - rewrite run_cons. pose proof (handle_event_counter_exact ev st Hle) as Hstep.
    rewrite IH by lia. rewrite Hstep. cbn [filter].
    destruct (creates_node ev); cbn [List.length]; lia.
Qed.

Lemma initial_counter_exact (evs : list event) :
  Canvas.nodeIdCounter (run evs initialCanvas)
  = N.min (1 + N.of_nat (List.length (filter creates_node evs))) MAX_COUNTER.
Proof.
  apply run_counter_exact. cbn. unfold MAX_COUNTER. lia.
Qed.






(* ------------------------------------------------------------------ *)
(** ** Strings *)

Lemma append_assoc (a b c : string) : (a ++ b) ++ c = a ++ (b ++ c).
Proof.
  induction a as [|x a IH]; simpl; [reflexivity | now rewrite IH].
Qed.

Lemma append_nil_r (a : string) : a ++ EmptyString = a.
Proof.
  induction a as [|x a IH]; simpl; [reflexivity | now rewrite IH].
Qed.

Lemma length_append (a b : string) :
  String.length (a ++ b) = String.length a + String.length b.
Proof.
  induction a as [|x a IH]; simpl; [reflexivity | now rewrite IH].
Qed.

Lemma string_of_digits_app (a b : list digit) :
  string_of_digits (a ++ b) = string_of_digits a ++ string_of_digits b.
Proof.
  unfold string_of_digits.
  induction a as [|x a IH]; simpl; [reflexivity | now rewrite IH].
Qed.

Lemma string_of_digits_cons (d : digit) (l : list digit) :
  string_of_digits (d :: l) = String (char_of_digit d) (string_of_digits l).
Proof.
  reflexivity.
Qed.

(* ------------------------------------------------------------------ *)
(** ** Numbers read back from their text *)

Lemma span_digits_app (ds : list digit) (t : string) :
  not_digit_start t = true ->
  span_digits (string_of_digits ds ++ t) = (ds, t).
Proof.
  intros Ht. induction ds as [|d ds IH].
  - simpl. destruct t as [|c t]; [reflexivity|]. simpl in *.
    destruct (digit_of_char c); [discriminate | reflexivity].
  - rewrite string_of_digits_cons. simpl.
    rewrite digit_of_char_of_digit, IH. reflexivity.
Qed.

Lemma terminated_not_digit_start (t : string) :
  terminated t = true -> not_digit_start t = true.
Proof.
  destruct t as [|c t]; [reflexivity|]. simpl.
  destruct (digit_of_char c) eqn:Hd; [|reflexivity].
  destruct c as [[] [] [] [] [] [] [] []]; simpl in *; congruence.
Qed.

Lemma digits_of_N_nonempty (n : N) : digits_of_N n <> [].
Proof.
  unfold digits_of_N. destruct n as [|p]; simpl; [discriminate|].
  pose proof (DecimalPos.Unsigned.to_uint_nonnil p) as H.
  destruct (Pos.to_uint p); simpl; congruence.
Qed.

Lemma exp_text_not_digit_start (e : option Z) (rest : string) :
  terminated rest = true -> not_digit_start (exp_text e ++ rest) = true.
Proof.
  intros Ht. destruct e as [z|]; simpl; [reflexivity|].
  now apply terminated_not_digit_start.
Qed.

Lemma parse_exp_text (e : option Z) (rest : string) :
  terminated rest = true ->
  parse_exp (exp_text e ++ rest) = Some (exp_value e, rest).
Proof.
  intros Ht. destruct e as [z|]; simpl.
  - assert (Hd : forall neg,
               parse_exp_digits neg (string_of_N (Z.abs_N z) ++ rest)
               = Some (if neg then (- Z.of_N (Z.abs_N z))%Z else Z.of_N (Z.abs_N z), rest)).
    { intros neg. unfold parse_exp_digits, string_of_N.
      rewrite span_digits_app by now apply terminated_not_digit_start.
      pose proof (digits_of_N_nonempty (Z.abs_N z)) as Hne.
      destruct (digits_of_N (Z.abs_N z)) as [|d ds] eqn:Hds; [congruence|].
      rewrite <- Hds, N_of_digits_of_N. reflexivity. }
    destruct (Z.leb_spec 0 z) as [Hz|Hz]; simpl; rewrite Hd; do 2 f_equal; lia.
  - destruct rest as [|c rest]; [reflexivity|]. simpl in *.
    destruct c as [[] [] [] [] [] [] [] []]; simpl in *; congruence.
Qed.

Lemma frac_exp_not_digit_start (fr : list digit) (e : option Z) (rest : string) :
  terminated rest = true ->
  not_digit_start (frac_text fr ++ exp_text e ++ rest) = true.
Proof.
  intros Ht. destruct fr as [|d fr]; simpl; [|reflexivity].
  now apply exp_text_not_digit_start.
Qed.

Lemma parse_frac_text (fr : list digit) (e : option Z) (rest : string) :
  terminated rest = true ->
  parse_frac (frac_text fr ++ exp_text e ++ rest) = Some (fr, exp_text e ++ rest).
Proof.
  intros Ht. destruct fr as [|d fr].
  - simpl. destruct e as [z|]; simpl; [reflexivity|].
    destruct rest as [|c rest]; [reflexivity|]. simpl in *.
    destruct c as [[] [] [] [] [] [] [] []]; simpl in *; congruence.
  - change (frac_text (d :: fr) ++ exp_text e ++ rest)
      with (String "." (string_of_digits (d :: fr) ++ exp_text e ++ rest)).
    cbv beta iota delta [parse_frac].
    rewrite span_digits_app by now apply exp_text_not_digit_start.
    reflexivity.
Qed.

Lemma pdigit_of_digit_of_pdigit (p : pdigit) : pdigit_of_digit (digit_of_pdigit p) = Some p.
Proof.
  destruct p; reflexivity.
Qed.

Lemma parse_unsigned_nonzero_lead (neg : bool) (f : pdigit) (ip fr : list digit)
    (e : option Z) (rest : string) :
  terminated rest = true ->
  parse_unsigned neg
    (String (char_of_digit (digit_of_pdigit f))
       (string_of_digits ip ++ frac_text fr ++ exp_text e ++ rest))
  = Some (make_number neg ((digit_of_pdigit f :: ip) ++ fr)
            (Z.of_nat (S (List.length ip)) + exp_value e), rest).
Proof.
  intros Ht. unfold parse_unsigned.
  rewrite digit_of_char_of_digit, pdigit_of_digit_of_pdigit.
  rewrite span_digits_app by now apply frac_exp_not_digit_start.
  rewrite parse_frac_text, parse_exp_text by assumption.
  reflexivity.
Qed.

Lemma parse_unsigned_zero_lead (neg : bool) (fr : list digit) (e : option Z)
    (rest : string) :
  terminated rest = true ->
  parse_unsigned neg (String "0" (frac_text fr ++ exp_text e ++ rest))
  = Some (make_number neg (d0 :: fr) (1 + exp_value e), rest).
Proof.
  intros Ht. unfold parse_unsigned.
  change (digit_of_char "0") with (Some d0). cbv beta iota delta [pdigit_of_digit].
  rewrite parse_frac_text, parse_exp_text by assumption.
  reflexivity.
Qed.

Lemma strip_leading_zeros (a : nat) (l : list digit) :
  strip_leading (repeat d0 a ++ l)
  = (a + fst (strip_leading l), snd (strip_leading l)).
Proof.
  induction a as [|a IH]; simpl.
  - now destruct (strip_leading l).
  - rewrite IH. reflexivity.
Qed.

Lemma strip_leading_pdigit (p : pdigit) (l : list digit) :
  strip_leading (digit_of_pdigit p :: l) = (O, digit_of_pdigit p :: l).
Proof.
  destruct p; reflexivity.
Qed.

Lemma digits_head (s : mantissa) :
  exists p l, digits s = digit_of_pdigit p :: l.
Proof.
  destruct s as [d|f mid l]; simpl; eauto.
Qed.

Lemma rev_digits_head (s : mantissa) :
  exists p l, rev (digits s) = digit_of_pdigit p :: l.
Proof.
  destruct s as [d|f mid l]; simpl; [eauto|].
  rewrite rev_app_distr. simpl. eauto.
Qed.

Lemma rev_repeat_d0 (b : nat) : rev (repeat d0 b) = repeat d0 b.
Proof.
  induction b as [|b IH]; simpl; [reflexivity|].
  rewrite IH. clear IH. induction b as [|b IH]; simpl; [reflexivity | now rewrite IH].
Qed.

Lemma strip_trailing_digits (s : mantissa) (b : nat) :
  strip_trailing (digits s ++ repeat d0 b) = digits s.
Proof.
  unfold strip_trailing. rewrite rev_app_distr, rev_repeat_d0, strip_leading_zeros.
  destruct (rev_digits_head s) as [p [l Hl]]. rewrite Hl, strip_leading_pdigit.
  cbn [fst snd]. rewrite <- Hl. apply rev_involutive.
Qed.

Lemma mantissa_of_digits_digits (s : mantissa) : mantissa_of_digits (digits s) = Some s.
Proof.
  destruct s as [d|f mid l]; simpl.
  - now rewrite pdigit_of_digit_of_pdigit.
  - destruct (mid ++ [digit_of_pdigit l])%list as [|x r] eqn:E.
    + now apply app_eq_nil in E.
    + rewrite <- E, last_last, removelast_last, !pdigit_of_digit_of_pdigit.
      reflexivity.
Qed.

Lemma make_number_digits (neg : bool) (a b : nat) (s : mantissa) (e : Z) :
  make_number neg (repeat d0 a ++ digits s ++ repeat d0 b) e
  = Finite neg s (e - Z.of_nat a).
Proof.
  unfold make_number. rewrite strip_leading_zeros.
  destruct (digits_head s) as [p [l Hl]].
  assert (Hs : strip_leading (digits s ++ repeat d0 b)
               = (O, (digits s ++ repeat d0 b)%list))
    by (rewrite Hl; simpl; apply strip_leading_pdigit).
  rewrite Hs. simpl fst. simpl snd.
  rewrite strip_trailing_digits, mantissa_of_digits_digits.
  f_equal. lia.
Qed.

Lemma frac_text_nonempty (fr : list digit) :
  fr <> [] -> frac_text fr = String "." (string_of_digits fr).
Proof.
  destruct fr; [congruence | reflexivity].
Qed.

Lemma make_number_exact (neg : bool) (s : mantissa) (ds : list digit) (e n : Z) :
  ds = digits s -> e = n -> make_number neg ds e = Finite neg s n.
Proof.
  intros -> ->.
  pose proof (make_number_digits neg 0 0 s n) as H. simpl in H.
  rewrite app_nil_r, Z.sub_0_r in H. exact H.
Qed.

Lemma positive_toString_parse (neg : bool) (s : mantissa) (n : Z) (rest : string) :
  terminated rest = true ->
  parse_unsigned neg (positive_toString s n ++ rest) = Some (Finite neg s n, rest).
Proof.
  intros Ht. unfold positive_toString.
  destruct (digits_head s) as [p [tl Hds]].
  assert (Hk : List.length (digits s) = S (List.length tl)) by now rewrite Hds.
  destruct ((Z.of_nat (List.length (digits s)) <=? n)%Z && (n <=? 21)%Z) eqn:C1.
  { (* the digits, then zeros *)
    apply andb_true_iff in C1. destruct C1 as [C1 _]. apply Z.leb_le in C1.
    remember (Z.to_nat (n - Z.of_nat (List.length (digits s)))) as m eqn:Hm0.
    pose proof (make_number_digits neg 0 m s) as Hm. simpl app in Hm.
    rewrite Hds in Hm |- *. simpl app in Hm |- *. rewrite string_of_digits_cons.
    pose proof (parse_unsigned_nonzero_lead neg p (tl ++ repeat d0 m) [] None rest Ht) as H.
    simpl frac_text in H. simpl exp_text in H. simpl append in H |- *.
    rewrite H. f_equal. f_equal. rewrite app_nil_r. rewrite Hm.
    f_equal. rewrite length_app, repeat_length. simpl exp_value. lia. }
  destruct ((0 <? n)%Z && (n <=? 21)%Z) eqn:C2.
  { (* a decimal point inside the digits *)
    apply andb_true_iff in C2. destruct C2 as [C2 C2']. apply Z.ltb_lt in C2.
    apply andb_false_iff in C1. destruct C1 as [C1|C1]; [|congruence].
    apply Z.leb_gt in C1.
    destruct (Z.to_nat n) as [|m] eqn:Hn; [lia|].
    rewrite Hds. simpl firstn. simpl skipn. rewrite string_of_digits_cons.
    assert (Hfr : skipn m tl <> []).
    { intros E. apply (f_equal (@List.length digit)) in E.
      rewrite length_skipn in E. simpl in E. lia. }
    pose proof (parse_unsigned_nonzero_lead neg p (firstn m tl) (skipn m tl) None rest Ht)
      as H.
    rewrite (frac_text_nonempty _ Hfr) in H. simpl exp_text in H.
    simpl append in H |- *. rewrite append_assoc. simpl append. rewrite H.
    f_equal. f_equal. apply make_number_exact.
    - rewrite Hds. simpl. now rewrite firstn_skipn.
    - rewrite length_firstn. simpl exp_value. lia. }
  destruct ((-6 <? n)%Z && (n <=? 0)%Z) eqn:C3.
  { (* zero, a decimal point, zeros, the digits *)
    apply andb_true_iff in C3. destruct C3 as [C3 C3'].
    apply Z.ltb_lt in C3. apply Z.leb_le in C3'.
    assert (Hfr : (repeat d0 (Z.to_nat (- n)) ++ digits s)%list <> []).
    { rewrite Hds. intros E. now apply app_eq_nil in E. }
    pose proof (parse_unsigned_zero_lead neg (repeat d0 (Z.to_nat (- n)) ++ digits s)
                  None rest Ht) as H.
    rewrite (frac_text_nonempty _ Hfr) in H. simpl exp_text in H.
    simpl append in H |- *. rewrite H. f_equal. f_equal.
    pose proof (make_number_digits neg (S (Z.to_nat (- n))) 0 s (1 + exp_value None)) as Hm.
    simpl repeat in Hm. rewrite app_nil_r in Hm. simpl app in Hm. rewrite Hm.
    f_equal. simpl exp_value. lia. }
  (* exponent notation *)
  destruct s as [d|f mid l].
  - pose proof (parse_unsigned_nonzero_lead neg d [] [] (Some (n - 1)%Z) rest Ht) as H.
    simpl frac_text in H. unfold exp_text in H.
    simpl string_of_digits in H |- *. simpl append in H |- *.
    rewrite H.
    f_equal. f_equal. apply make_number_exact; [reflexivity|].
    unfold exp_value. change (Z.of_nat (S (List.length (@nil digit)))) with 1%Z. lia.
  - assert (Hfr : (mid ++ [digit_of_pdigit l])%list <> [])
      by (intros E; now apply app_eq_nil in E).
    pose proof (parse_unsigned_nonzero_lead neg f [] (mid ++ [digit_of_pdigit l])
                  (Some (n - 1)%Z) rest Ht) as H.
    rewrite (frac_text_nonempty _ Hfr) in H. unfold exp_text in H.
    change (string_of_digits [digit_of_pdigit f])
      with (String (char_of_digit (digit_of_pdigit f)) EmptyString).
    change (string_of_digits []) with EmptyString in H.
    simpl append in H |- *.
    repeat (rewrite append_assoc in H; simpl append in H).
    repeat (rewrite append_assoc; simpl append).
    rewrite H.
    f_equal. f_equal. apply make_number_exact; [reflexivity|].
    unfold exp_value. change (Z.of_nat (S (List.length (@nil digit)))) with 1%Z. lia.
Qed.

Lemma digit_of_char_some (c : ascii) (d : digit) :
  digit_of_char c = Some d -> c = char_of_digit d.
Proof.
  destruct c as [[] [] [] [] [] [] [] []]; simpl; intros H;
    try discriminate H; injection H as <-; reflexivity.
Qed.

Lemma positive_toString_head (s : mantissa) (n : Z) :
  exists d r, positive_toString s n = String (char_of_digit d) r.
Proof.
  pose proof (positive_toString_parse false s n EmptyString eq_refl) as H.
  rewrite append_nil_r in H.
  destruct (positive_toString s n) as [|c r]; [discriminate H|].
  unfold parse_unsigned in H.
  destruct (digit_of_char c) as [d|] eqn:Hd; [|discriminate H].
  apply digit_of_char_some in Hd. subst c. eauto.
Qed.

Lemma parse_number_digit_start (d : digit) (r : string) :
  parse_number (String (char_of_digit d) r)
  = parse_unsigned false (String (char_of_digit d) r).
Proof.
  destruct d; reflexivity.
Qed.

(** A finite number is read back from its text, up to the sign of zero. *)
Lemma parse_number_toString (x : number) (rest : string) :
  isFinite x = true ->
  terminated rest = true ->
  exists x',
    number_image x = VNumber x'
    /\ parse_number (Number_toString x ++ rest) = Some (x', rest).
Proof.
  intros Hf Ht. destruct x as [| | |neg|neg s n]; try discriminate Hf.
  - exists (Zero false). split; [reflexivity|].
    pose proof (parse_unsigned_zero_lead false [] None rest Ht) as H.
    simpl in H. simpl. exact H.
  - exists (Finite neg s n). split; [reflexivity|].
    destruct neg; simpl.
    + apply positive_toString_parse. exact Ht.
    + destruct (positive_toString_head s n) as [d [r Hr]].
      pose proof (positive_toString_parse false s n rest Ht) as H.
      rewrite Hr in H |- *. simpl append in H |- *.
      rewrite parse_number_digit_start. exact H.
Qed.

Lemma Number_toString_start (x : number) :
  isFinite x = true ->
  exists c r, Number_toString x = String c r /\ number_start c = true.
Proof.
  intros Hf. destruct x as [| | |neg|neg s n]; try discriminate Hf.
  - exists "0"%char, EmptyString. split; reflexivity.
  - destruct (positive_toString_head s n) as [d [r Hr]].
    destruct neg; simpl; rewrite Hr.
    + exists "-"%char. eexists. split; reflexivity.
    + exists (char_of_digit d), r. split; [reflexivity|].
      unfold number_start. now rewrite digit_of_char_of_digit.
Qed.

Lemma parse_value_number_start (fuel : nat) (c : ascii) (r : string) :
  number_start c = true ->
  parse_value (S fuel) (String c r)
  = match parse_number (String c r) with
    | Some (x, r') => Some (VNumber x, r')
    | None => None
    end.
Proof.
  destruct c as [[] [] [] [] [] [] [] []]; intros H; try discriminate H; reflexivity.
Qed.

(* ------------------------------------------------------------------ *)
(** ** Strings read back from their quoted text *)

Lemma parse_chars_quote_char (c : ascii) (t : string) :
  parse_chars (quote_char c ++ t) = cons_char c (parse_chars t).
Proof.
  destruct c as [[] [] [] [] [] [] [] []]; reflexivity.
Qed.

Lemma parse_chars_quote_chars (s rest : string) :
  parse_chars (quote_chars s ++ String DQUOTE rest) = Some (s, rest).
Proof.
  induction s as [|c s IH]; [reflexivity|].
  simpl quote_chars. rewrite append_assoc, parse_chars_quote_char, IH. reflexivity.
Qed.

Lemma QuoteJSONString_app (s rest : string) :
  QuoteJSONString s ++ rest = String DQUOTE (quote_chars s ++ String DQUOTE rest).
Proof.
  unfold QuoteJSONString. simpl. now rewrite append_assoc.
Qed.

(* ------------------------------------------------------------------ *)
(** ** White space *)

Lemma skip_ws_app (w t : string) : ws_only w = true -> skip_ws (w ++ t) = skip_ws t.
Proof.
  induction w as [|c w IH]; simpl; [reflexivity|].
  intros H. apply andb_true_iff in H. destruct H as [Hc Hw].
  rewrite Hc. now apply IH.
Qed.

Lemma skip_ws_idem (s : string) : skip_ws (skip_ws s) = skip_ws s.
Proof.
  induction s as [|c s IH]; simpl; [reflexivity|].
  destruct (is_ws c) eqn:Hc; [exact IH|]. simpl. now rewrite Hc.
Qed.

Lemma parse_value_skip_ws (fuel : nat) (s : string) :
  parse_value fuel (skip_ws s) = parse_value fuel s.
Proof.
  destruct fuel as [|fuel]; [reflexivity|]. simpl. now rewrite skip_ws_idem.
Qed.

Lemma parse_value_ws (fuel : nat) (w t : string) :
  ws_only w = true -> parse_value fuel (w ++ t) = parse_value fuel t.
Proof.
  intros Hw. rewrite <- parse_value_skip_ws, skip_ws_app by exact Hw.
  apply parse_value_skip_ws.
Qed.

Lemma ws_only_app (a b : string) :
  ws_only a = true -> ws_only b = true -> ws_only (a ++ b) = true.
Proof.
  induction a as [|c a IH]; simpl; [auto|].
  intros H Hb. apply andb_true_iff in H. destruct H as [Hc Ha].
  rewrite Hc. simpl. now apply IH.
Qed.

Lemma ws_only_repeat_space (n : nat) : ws_only (repeat_string " " n) = true.
Proof.
  induction n as [|n IH]; simpl; [reflexivity | exact IH].
Qed.

(* ------------------------------------------------------------------ *)
(** ** One step of the reader *)

Lemma parse_elements_last (fuel : nat) (s r rest : string) (v : value) :
  parse_value fuel s = Some (v, r) ->
  skip_ws r = String "]" rest ->
  parse_elements (S fuel) s = Some ([v], rest).
Proof.
  intros Hv Hr. simpl. rewrite Hv, Hr. reflexivity.
Qed.

Lemma parse_elements_more (fuel : nat) (s r r' rest : string) (v : value)
    (vs : list value) :
  parse_value fuel s = Some (v, r) ->
  skip_ws r = String "," r' ->
  parse_elements fuel r' = Some (vs, rest) ->
  parse_elements (S fuel) s = Some (v :: vs, rest).
Proof.
  intros Hv Hr Hvs. simpl. rewrite Hv, Hr. simpl. rewrite Hvs. reflexivity.
Qed.

Lemma parse_members_last (fuel : nat) (s r r1 r2 r3 rest key : string) (v : value) :
  skip_ws s = String DQUOTE r ->
  parse_chars r = Some (key, r1) ->
  skip_ws r1 = String ":" r2 ->
  parse_value fuel r2 = Some (v, r3) ->
  skip_ws r3 = String "}" rest ->
  parse_members (S fuel) s = Some ([(key, v)], rest).
Proof.
  intros Hs Hk Hc Hv Hr. simpl. rewrite Hs. simpl. rewrite Hk, Hc. simpl.
  rewrite Hv, Hr. reflexivity.
Qed.

Lemma parse_members_more (fuel : nat) (s r r1 r2 r3 r4 rest key : string) (v : value)
    (ms : list (string * value)) :
  skip_ws s = String DQUOTE r ->
  parse_chars r = Some (key, r1) ->
  skip_ws r1 = String ":" r2 ->
  parse_value fuel r2 = Some (v, r3) ->
  skip_ws r3 = String "," r4 ->
  parse_members fuel r4 = Some (ms, rest) ->
  parse_members (S fuel) s = Some ((key, v) :: ms, rest).
Proof.
  intros Hs Hk Hc Hv Hr Hms. simpl. rewrite Hs. simpl. rewrite Hk, Hc. simpl.
  rewrite Hv, Hr. simpl. rewrite Hms. reflexivity.
Qed.

Lemma opens_value_inv (s : string) :
  opens_value s = true ->
  exists c r, s = String c r
              /\ is_ws c = false /\ Ascii.eqb c "]" = false /\ Ascii.eqb c "}" = false.
Proof.
  destruct s as [|c r]; simpl; [discriminate|].
  intros H. apply andb_true_iff in H. destruct H as [H H3].
  apply andb_true_iff in H. destruct H as [H1 H2].
  apply negb_true_iff in H1, H2, H3. eauto 8.
Qed.

Lemma parse_value_array (fuel : nat) (r rest : string) (vs : list value) :
  opens_value (skip_ws r) = true ->
  parse_elements fuel r = Some (vs, rest) ->
  parse_value (S fuel) (String "[" r) = Some (VArray vs, rest).
Proof.
  intros Ho Hvs. apply opens_value_inv in Ho.
  destruct Ho as [c [r' [Hr [_ [Hc _]]]]].
  simpl. rewrite Hr.
  destruct c as [[] [] [] [] [] [] [] []]; try discriminate Hc; rewrite Hvs; reflexivity.
Qed.

Lemma parse_value_object (fuel : nat) (r rest : string) (ms : list (string * value)) :
  opens_value (skip_ws r) = true ->
  parse_members fuel r = Some (ms, rest) ->
  parse_value (S fuel) (String "{" r) = Some (VObject ms, rest).
Proof.
  intros Ho Hms. apply opens_value_inv in Ho.
  destruct Ho as [c [r' [Hr [_ [_ Hc]]]]].
  simpl. rewrite Hr.
  destruct c as [[] [] [] [] [] [] [] []]; try discriminate Hc; rewrite Hms; reflexivity.
Qed.

Lemma opens_value_skip_ws (s t : string) :
  opens_value s = true -> skip_ws (s ++ t) = s ++ t.
Proof.
  intros H. apply opens_value_inv in H. destruct H as [c [r [-> [Hc _]]]].
  simpl. now rewrite Hc.
Qed.

Lemma opens_value_app (s t : string) :
  opens_value s = true -> opens_value (s ++ t) = true.
Proof.
  destruct s; simpl; [discriminate | auto].
Qed.

(* ------------------------------------------------------------------ *)
(** ** Values read back from their text *)

Lemma wrap_partial_head (op cl : ascii) (gap stepback indent : string)
    (partial : list string) :
  exists r, wrap_partial op cl gap stepback indent partial = String op r.
Proof.
  unfold wrap_partial. destruct partial; [eauto|].
  destruct (String.eqb gap EmptyString); eauto.
Qed.

Lemma number_start_opens (c : ascii) (r : string) :
  number_start c = true -> opens_value (String c r) = true.
Proof.
  destruct c as [[] [] [] [] [] [] [] []]; intros H; try discriminate H; reflexivity.
Qed.

Lemma element_text_opens (gap indent : string) (v : value) :
  opens_value (element_text gap indent v) = true.
Proof.
  unfold element_text. destruct v as [| |[]|x|s|l|ms]; simpl; try reflexivity.
  - destruct (isFinite x) eqn:Hf; [|reflexivity].
    destruct (Number_toString_start x Hf) as [c [r [-> Hc]]].
    now apply number_start_opens.
  - destruct (wrap_partial_head "[" "]" gap indent (indent ++ gap)
                (map (fun e => match SerializeJSONProperty gap (indent ++ gap) e with
                               | Some strP => strP
                               | None => "null"
                               end) l)) as [r ->].
    reflexivity.
  - match goal with
    | |- opens_value (wrap_partial ?o ?c ?g ?s ?i ?p) = true =>
        destruct (wrap_partial_head o c g s i p) as [r ->]
    end.
    reflexivity.
Qed.

Lemma serialize_defined (gap indent : string) (v : value) :
  SerializeJSONProperty gap indent v
  = if defined v then Some (element_text gap indent v) else None.
Proof.
  unfold element_text. destruct v as [| |[]|x|s|l|ms]; reflexivity.
Qed.

Lemma reads_back_literal (lit : string) (v : value) (fuel : nat) (rest : string) :
  (lit = "null" /\ v = VNull) \/ (lit = "true" /\ v = VBool true)
  \/ (lit = "false" /\ v = VBool false) ->
  1 <= fuel ->
  parse_value fuel (lit ++ rest) = Some (v, rest).
Proof.
  intros H Hf. destruct fuel as [|fuel]; [lia|].
  destruct H as [[-> ->]|[[-> ->]|[-> ->]]]; reflexivity.
Qed.

Lemma reads_back_undefined : reads_back VUndefined.
Proof.
  intros gap indent fuel rest _ _ Hf _.
  apply reads_back_literal; [now left | exact Hf].
Qed.

Lemma reads_back_null : reads_back VNull.
Proof.
  intros gap indent fuel rest _ _ Hf _.
  apply reads_back_literal; [now left | exact Hf].
Qed.

Lemma reads_back_bool (b : bool) : reads_back (VBool b).
Proof.
  intros gap indent fuel rest _ _ Hf _.
  destruct b; apply reads_back_literal; auto.
Qed.

Lemma reads_back_string (s : string) : reads_back (VString s).
Proof.
  intros gap indent fuel rest _ _ Hf _.
  destruct fuel as [|fuel]; [simpl in Hf; lia|].
  change (element_text gap indent (VString s)) with (QuoteJSONString s).
  change (json_image (VString s)) with (VString s).
  rewrite QuoteJSONString_app. simpl.
  rewrite parse_chars_quote_chars. reflexivity.
Qed.

Lemma size_number_image (x : number) : size (number_image x) = 1.
Proof.
  destruct x; reflexivity.
Qed.

Lemma reads_back_number (x : number) : reads_back (VNumber x).
Proof.
  intros gap indent fuel rest _ _ Hf Ht.
  simpl json_image in *. rewrite size_number_image in Hf.
  change (element_text gap indent (VNumber x))
    with (if isFinite x then Number_toString x else "null").
  destruct (isFinite x) eqn:Hfin.
  - destruct fuel as [|fuel]; [lia|].
    destruct (parse_number_toString x rest Hfin Ht) as [x' [Himg Hp]].
    destruct (Number_toString_start x Hfin) as [c [r [Hs Hc]]].
    rewrite Hs in Hp |- *. simpl append in Hp |- *.
    rewrite (parse_value_number_start fuel c (r ++ rest) Hc), Hp, Himg. reflexivity.
  - replace (number_image x) with VNull by (destruct x; try reflexivity; discriminate).
    apply reads_back_literal; [now left | exact Hf].
Qed.

Ltac string_assoc := repeat (first [rewrite append_assoc | progress (simpl append)]).
Ltac string_assoc_in H :=
  repeat (first [rewrite append_assoc in H | progress (simpl append in H)]).

Lemma join_cons (sep t : string) (ts : list string) :
  join sep (t :: ts)
  = t ++ match ts with
         | [] => EmptyString
         | _ => sep ++ join sep ts
         end.
Proof.
  destruct ts; simpl; [now rewrite append_nil_r | reflexivity].
Qed.

Lemma opens_join (w1 sep t X : string) (ts : list string) :
  ws_only w1 = true ->
  opens_value t = true ->
  opens_value (skip_ws (w1 ++ join sep (t :: ts) ++ X)) = true.
Proof.
  intros Hw Ht. rewrite skip_ws_app by exact Hw.
  rewrite join_cons, append_assoc.
  rewrite opens_value_skip_ws by exact Ht. now apply opens_value_app.
Qed.

Lemma parse_elements_join (gap indent w1 w2 rest : string) (l : list value) :
  ws_only gap = true -> ws_only indent = true ->
  ws_only w1 = true -> ws_only w2 = true ->
  terminated (w2 ++ String "]" rest) = true ->
  Forall reads_back l -> l <> [] ->
  forall fuel,
    elements_size (map json_image l) <= fuel ->
    parse_elements fuel
      (w1 ++ join ("," ++ w1) (map (element_text gap indent) l) ++ w2 ++ String "]" rest)
    = Some (map json_image l, rest).
Proof.
  intros Hg Hi Hw1 Hw2 Hterm Hall.
  induction l as [|e l IH]; [congruence|]. intros _ fuel Hfuel.
  inversion Hall as [|e' l' He Hl]; subst.
  simpl in Hfuel. destruct fuel as [|fuel]; [lia|].
  destruct l as [|e2 l].
  - simpl map. simpl join.
    apply parse_elements_last with (r := w2 ++ String "]" rest).
    + rewrite parse_value_ws by exact Hw1.
      apply He; try assumption. simpl in Hfuel. lia.
    + now rewrite skip_ws_app.
  - remember (e2 :: l) as l2 eqn:Hl2.
    assert (Hne : l2 <> []) by (subst l2; discriminate).
    specialize (IH Hl Hne fuel).
    simpl map. rewrite join_cons.
    destruct (map (element_text gap indent) l2) as [|t2 ts] eqn:Hmap;
      [subst l2; discriminate Hmap|].
    rewrite <- Hmap in *. clear Hmap t2 ts.
    set (J := join ("," ++ w1) (map (element_text gap indent) l2)) in *.
    replace (w1 ++ (element_text gap indent e ++ ("," ++ w1) ++ J) ++ w2 ++ String "]" rest)
      with (w1 ++ element_text gap indent e
              ++ String "," (w1 ++ J ++ w2 ++ String "]" rest))
      by (string_assoc; reflexivity).
    apply parse_elements_more
      with (r := String "," (w1 ++ J ++ w2 ++ String "]" rest))
           (r' := w1 ++ J ++ w2 ++ String "]" rest).
    + rewrite parse_value_ws by exact Hw1.
      apply He; try assumption; [lia | reflexivity].
    + reflexivity.
    + apply IH. lia.
Qed.

Lemma parse_members_join (gap indent w1 w2 rest : string) (l : list (string * value)) :
  ws_only gap = true -> ws_only indent = true ->
  ws_only w1 = true -> ws_only w2 = true ->
  terminated (w2 ++ String "}" rest) = true ->
  Forall (fun p => reads_back (snd p)) l -> l <> [] ->
  forall fuel,
    members_size (map (fun p => (fst p, json_image (snd p))) l) <= fuel ->
    parse_members fuel
      (w1 ++ join ("," ++ w1) (map (member_text gap indent) l) ++ w2 ++ String "}" rest)
    = Some (map (fun p => (fst p, json_image (snd p))) l, rest).
Proof.
  intros Hg Hi Hw1 Hw2 Hterm Hall.
  assert (Hsp : ws_only (if String.eqb gap EmptyString then "" else " ") = true)
    by (destruct (String.eqb gap EmptyString); reflexivity).
  assert (Hmember : forall p X,
             skip_ws (w1 ++ member_text gap indent p ++ X)
             = String DQUOTE
                 (quote_chars (fst p)
                    ++ String DQUOTE
                         (String ":"
                            ((if String.eqb gap EmptyString then "" else " ")
                               ++ element_text gap indent (snd p) ++ X)))).
  { intros p X. rewrite skip_ws_app by exact Hw1.
    unfold member_text, QuoteJSONString. string_assoc. reflexivity. }
  induction l as [|p l IH]; [congruence|]. intros _ fuel Hfuel.
  inversion Hall as [|p' l' Hp Hl]; subst.
  simpl in Hfuel. destruct fuel as [|fuel]; [lia|].
  destruct l as [|p2 l].
  - simpl map. simpl join.
    eapply parse_members_last.
    + apply Hmember.
    + apply parse_chars_quote_chars.
    + reflexivity.
    + rewrite parse_value_ws by exact Hsp.
      apply Hp; try assumption. simpl in Hfuel. lia.
    + now rewrite skip_ws_app.
  - remember (p2 :: l) as l2 eqn:Hl2.
    assert (Hne : l2 <> []) by (subst l2; discriminate).
    specialize (IH Hl Hne fuel).
    simpl map. rewrite join_cons.
    destruct (map (member_text gap indent) l2) as [|t2 ts] eqn:Hmap;
      [subst l2; discriminate Hmap|].
    rewrite <- Hmap in *. clear Hmap t2 ts.
    set (J := join ("," ++ w1) (map (member_text gap indent) l2)) in *.
    replace (w1 ++ (member_text gap indent p ++ ("," ++ w1) ++ J) ++ w2 ++ String "}" rest)
      with (w1 ++ member_text gap indent p
              ++ String "," (w1 ++ J ++ w2 ++ String "}" rest))
      by (string_assoc; reflexivity).
    eapply parse_members_more.
    + apply Hmember.
    + apply parse_chars_quote_chars.
    + reflexivity.
    + rewrite parse_value_ws by exact Hsp.
      apply Hp; try assumption; [lia | reflexivity].
    + reflexivity.
    + apply IH. lia.
Qed.

Lemma element_text_array (gap indent : string) (l : list value) :
  element_text gap indent (VArray l)
  = wrap_partial "[" "]" gap indent (indent ++ gap)
      (map (element_text gap (indent ++ gap)) l).
Proof.
  reflexivity.
Qed.

Lemma element_text_object (gap indent : string) (ms : list (string * value)) :
  element_text gap indent (VObject ms)
  = wrap_partial "{" "}" gap indent (indent ++ gap)
      (map (member_text gap (indent ++ gap)) (filter (fun p => defined (snd p)) ms)).
Proof.
  unfold element_text. simpl. f_equal.
  induction ms as [|p ms IH]; simpl; [reflexivity|].
  rewrite IH, serialize_defined.
  destruct (defined (snd p)); reflexivity.
Qed.

Lemma json_image_object (ms : list (string * value)) :
  json_image (VObject ms)
  = VObject (map (fun p => (fst p, json_image (snd p)))
               (filter (fun p => defined (snd p)) ms)).
Proof.
  simpl. f_equal.
  induction ms as [|p ms IH]; simpl; [reflexivity|].
  rewrite IH. destruct (defined (snd p)); reflexivity.
Qed.

Lemma wrap_elements_read_back (gap indent rest : string) (l : list value) (fuel : nat) :
  ws_only gap = true -> ws_only indent = true ->
  Forall reads_back l ->
  S (elements_size (map json_image l)) <= fuel ->
  parse_value fuel
    (wrap_partial "[" "]" gap indent (indent ++ gap)
       (map (element_text gap (indent ++ gap)) l) ++ rest)
  = Some (VArray (map json_image l), rest).
Proof.
  intros Hg Hi Hall Hfuel.
  destruct fuel as [|fuel]; [lia|]. apply le_S_n in Hfuel.
  destruct l as [|e l]; [reflexivity|].
  assert (Hi' : ws_only (indent ++ gap) = true) by now apply ws_only_app.
  remember (indent ++ gap) as indent' eqn:Hindent'.
  remember (e :: l) as l1 eqn:Hl1.
  assert (Hne : l1 <> []) by (subst l1; discriminate).
  assert (Hopen : forall w1 sep X,
             ws_only w1 = true ->
             opens_value
               (skip_ws (w1 ++ join sep (map (element_text gap indent') l1) ++ X))
             = true).
  { intros w1 sep X Hw1. subst l1. simpl map.
    apply opens_join; [exact Hw1 | apply element_text_opens]. }
  unfold wrap_partial.
  destruct (map (element_text gap indent') l1) as [|t ts] eqn:Hmap;
    [subst l1; discriminate Hmap|].
  rewrite <- Hmap in *. clear Hmap t ts.
  destruct (String.eqb gap EmptyString) eqn:Hgap.
  - pose proof (parse_elements_join gap indent' EmptyString EmptyString rest l1
                  Hg Hi' eq_refl eq_refl eq_refl Hall Hne fuel Hfuel) as H.
    pose proof (Hopen EmptyString "," (String "]" rest) eq_refl) as Ho.
    simpl append in H, Ho |- *. rewrite append_assoc. simpl append.
    now apply parse_value_array.
  - assert (Hw1 : ws_only (String LF indent') = true) by (simpl; exact Hi').
    assert (Hw2 : ws_only (String LF indent) = true) by (simpl; exact Hi).
    pose proof (parse_elements_join gap indent' (String LF indent')
                  (String LF indent) rest l1
                  Hg Hi' Hw1 Hw2 eq_refl Hall Hne fuel Hfuel) as H.
    pose proof (Hopen (String LF indent') ("," ++ String LF indent')
                  (String LF indent ++ String "]" rest) Hw1) as Ho.
    string_assoc. string_assoc_in H. string_assoc_in Ho.
    apply parse_value_array; [exact Ho | exact H].
Qed.

Lemma wrap_members_read_back (gap indent rest : string) (l : list (string * value))
    (fuel : nat) :
  ws_only gap = true -> ws_only indent = true ->
  Forall (fun p => reads_back (snd p)) l ->
  S (members_size (map (fun p => (fst p, json_image (snd p))) l)) <= fuel ->
  parse_value fuel
    (wrap_partial "{" "}" gap indent (indent ++ gap)
       (map (member_text gap (indent ++ gap)) l) ++ rest)
  = Some (VObject (map (fun p => (fst p, json_image (snd p))) l), rest).
Proof.
  intros Hg Hi Hall Hfuel.
  destruct fuel as [|fuel]; [lia|]. apply le_S_n in Hfuel.
  destruct l as [|p l]; [reflexivity|].
  assert (Hi' : ws_only (indent ++ gap) = true) by now apply ws_only_app.
  remember (indent ++ gap) as indent' eqn:Hindent'.
  remember (p :: l) as l1 eqn:Hl1.
  assert (Hne : l1 <> []) by (subst l1; discriminate).
  assert (Hopen : forall w1 sep X,
             ws_only w1 = true ->
             opens_value
               (skip_ws (w1 ++ join sep (map (member_text gap indent') l1) ++ X))
             = true).
  { intros w1 sep X Hw1. subst l1. simpl map.
    apply opens_join; [exact Hw1 | reflexivity]. }
  unfold wrap_partial.
  destruct (map (member_text gap indent') l1) as [|t ts] eqn:Hmap;
    [subst l1; discriminate Hmap|].
  rewrite <- Hmap in *. clear Hmap t ts.
  destruct (String.eqb gap EmptyString) eqn:Hgap.
  - pose proof (parse_members_join gap indent' EmptyString EmptyString rest l1
                  Hg Hi' eq_refl eq_refl eq_refl Hall Hne fuel Hfuel) as H.
    pose proof (Hopen EmptyString "," (String "}" rest) eq_refl) as Ho.
    simpl append in H, Ho |- *. rewrite append_assoc. simpl append.
    now apply parse_value_object.
  - assert (Hw1 : ws_only (String LF indent') = true) by (simpl; exact Hi').
    assert (Hw2 : ws_only (String LF indent) = true) by (simpl; exact Hi).
    pose proof (parse_members_join gap indent' (String LF indent')
                  (String LF indent) rest l1
                  Hg Hi' Hw1 Hw2 eq_refl Hall Hne fuel Hfuel) as H.
    pose proof (Hopen (String LF indent') ("," ++ String LF indent')
                  (String LF indent ++ String "}" rest) Hw1) as Ho.
    string_assoc. string_assoc_in H. string_assoc_in Ho.
    apply parse_value_object; [exact Ho | exact H].
Qed.

(** Every value is read back from its text as its JSON image. *)
Lemma values_read_back (v : value) : reads_back v.
Proof.
  induction v using value_nested_ind.
  - apply reads_back_undefined.
  - apply reads_back_null.
  - apply reads_back_bool.
  - apply reads_back_number.
  - apply reads_back_string.
  - intros gap indent fuel rest Hg Hi Hfuel Ht.
    rewrite element_text_array. apply wrap_elements_read_back; assumption.
  - intros gap indent fuel rest Hg Hi Hfuel Ht.
    rewrite element_text_object, json_image_object in *.
    apply wrap_members_read_back; try assumption.
    apply Forall_forall. intros p Hp. apply filter_In in Hp.
    rewrite Forall_forall in H. now apply H.
Qed.

(* ------------------------------------------------------------------ *)
(** ** The length of the text bounds the fuel *)

Lemma length_join (sep : string) (l : list string) :
  1 <= String.length sep -> l <> [] ->
  texts_size l <= S (String.length (join sep l)).
Proof.
  intros Hsep. induction l as [|t l IH]; [congruence|]. intros _.
  destruct l as [|t2 l].
  - simpl. lia.
  - remember (t2 :: l) as l2 eqn:Hl2.
    assert (Hne : l2 <> []) by (subst l2; discriminate).
    specialize (IH Hne). rewrite join_cons.
    destruct l2 as [|x l2]; [congruence|].
    change (texts_size (t :: x :: l2)) with (S (String.length t + texts_size (x :: l2))).
    rewrite !length_append. lia.
Qed.

Lemma length_wrap_partial (op cl : ascii) (gap stepback indent : string)
    (partial : list string) :
  S (texts_size partial)
  <= String.length (wrap_partial op cl gap stepback indent partial).
Proof.
  unfold wrap_partial. destruct partial as [|t ts]; [simpl; lia|].
  assert (Hne : t :: ts <> []) by discriminate.
  destruct (String.eqb gap EmptyString).
  - pose proof (length_join "," (t :: ts) (le_n 1) Hne) as H.
    change (String.length (String op (join "," (t :: ts) ++ String cl EmptyString)))
      with (S (String.length (join "," (t :: ts) ++ String cl EmptyString))).
    rewrite length_append. simpl String.length at 2. lia.
  - assert (Hsep : 1 <= String.length ("," ++ String LF indent)) by (simpl; lia).
    pose proof (length_join ("," ++ String LF indent) (t :: ts) Hsep Hne) as H.
    remember (join ("," ++ String LF indent) (t :: ts)) as J.
    simpl String.length. rewrite !length_append. lia.
Qed.

Lemma elements_fit (gap indent : string) (l : list value) :
  Forall fits_its_text l ->
  elements_size (map json_image l) <= texts_size (map (element_text gap indent) l).
Proof.
  induction 1 as [|e l He Hl IH]; simpl; [lia|].
  specialize (He gap indent). lia.
Qed.

Lemma members_fit (gap indent : string) (l : list (string * value)) :
  Forall (fun p => fits_its_text (snd p)) l ->
  members_size (map (fun p => (fst p, json_image (snd p))) l)
  <= texts_size (map (member_text gap indent) l).
Proof.
  unfold members_size, texts_size.
  induction 1 as [|p l Hp Hl IH]; cbn [map fold_right fst snd]; [lia|].
  specialize (Hp gap indent). unfold member_text at 1.
  rewrite !length_append. lia.
Qed.

Lemma values_fit_their_text (v : value) : fits_its_text v.
Proof.
  induction v using value_nested_ind; intros gap indent.
  - simpl. lia.
  - simpl. lia.
  - destruct b; simpl; lia.
  - simpl json_image. rewrite size_number_image.
    change (element_text gap indent (VNumber x))
      with (if isFinite x then Number_toString x else "null").
    destruct (isFinite x) eqn:Hf; [|simpl; lia].
    destruct (Number_toString_start x Hf) as [c [r [-> _]]]. simpl. lia.
  - change (element_text gap indent (VString s)) with (QuoteJSONString s).
    simpl. lia.
  - rewrite element_text_array.
    change (size (json_image (VArray l))) with (S (elements_size (map json_image l))).
    etransitivity; [|apply length_wrap_partial].
    apply le_n_S. now apply elements_fit.
  - rewrite element_text_object, json_image_object.
    match goal with
    | |- size (VObject ?ms) <= _ => change (size (VObject ms)) with (S (members_size ms))
    end.
    etransitivity; [|apply length_wrap_partial].
    apply le_n_S. apply members_fit.
    apply Forall_forall. intros p Hp. apply filter_In in Hp.
    rewrite Forall_forall in H. now apply H.
Qed.

(** [JSON.parse] reads the text [JSON.stringify] wrote, for any
    indentation, as the JSON image of the value. *)
Lemma JSON_parse_stringify (v : value) (space : nat) (str : string) :
  JSON_stringify v space = Some str ->
  JSON_parse str = Some (json_image v).
Proof.
  unfold JSON_stringify.
  generalize (repeat_string " " (Nat.min 10 space)) (ws_only_repeat_space (Nat.min 10 space)).
  intros gap Hgap. rewrite serialize_defined.
  destruct (defined v); [|discriminate]. intros Hstr. injection Hstr as <-.
  pose proof (values_read_back v gap EmptyString
                (S (String.length (element_text gap EmptyString v))) EmptyString
                Hgap eq_refl) as H.
  rewrite append_nil_r in H. cbv beta delta [JSON_parse].
  rewrite H; [reflexivity | | reflexivity].
  etransitivity; [apply values_fit_their_text | apply Nat.le_succ_diag_r].
Qed.

(* ------------------------------------------------------------------ *)
(** ** The exported document, read back *)

Lemma exportFlowAsJSON_content (today : Date.t) (nodes : list FlowNode.t)
    (edges : list FlowEdge.t) :
  JSON_stringify (ExportedFlow nodes edges) 2
  = Some (Download.content (exportFlowAsJSON today nodes edges)).
Proof.
  reflexivity.
Qed.

Lemma exportFlowAsJSON_parses (today : Date.t) (nodes : list FlowNode.t)
    (edges : list FlowEdge.t) :
  JSON_parse (Download.content (exportFlowAsJSON today nodes edges))
  = Some (json_image (ExportedFlow nodes edges)).
Proof.
  apply JSON_parse_stringify with (space := 2). apply exportFlowAsJSON_content.
Qed.

Lemma json_image_ExportedFlow (nodes : list FlowNode.t) (edges : list FlowEdge.t) :
  json_image (ExportedFlow nodes edges)
  = VObject [("nodes", VArray (map (fun n => json_image (ExportedNode n)) nodes));
             ("edges", VArray (map (fun e => json_image (ExportedEdge e)) edges))].
Proof.
  unfold ExportedFlow. simpl. now rewrite !map_map.
Qed.

Lemma digits_eqb_refl (l : list digit) : digits_eqb l l = true.
Proof.
  induction l as [|d l IH]; simpl; [reflexivity|].
  rewrite IH. unfold digit_eqb. now rewrite Ascii.eqb_refl.
Qed.

Lemma number_image_finite (x : number) :
  isFinite x = true ->
  exists x', number_image x = VNumber x' /\ number_strict_eq x' x = true.
Proof.
  destruct x as [| | |neg|neg s n]; intros H; try discriminate H.
  - exists (Zero false). split; reflexivity.
  - exists (Finite neg s n). split; [reflexivity|]. simpl.
    now rewrite Bool.eqb_reflx, digits_eqb_refl, Z.eqb_refl.
Qed.

Lemma read_node_exported (n : FlowNode.t) :
  finite_position n = true ->
  exists r, read_node (json_image (ExportedNode n)) = Some r /\ same_node n r.
Proof.
  destruct n as [i ty [px py] [txt] sel drag]. unfold finite_position. simpl.
  intros H. apply andb_true_iff in H. destruct H as [Hx Hy].
  destruct (number_image_finite px Hx) as [x' [Ex Sx]].
  destruct (number_image_finite py Hy) as [y' [Ey Sy]].
  exists (ReadNode.mk i x' y' txt). split.
  - unfold ExportedNode. simpl. rewrite Ex, Ey. destruct ty; reflexivity.
  - repeat split; assumption.
Qed.

Lemma read_nodes_exported (nodes : list FlowNode.t) :
  forallb finite_position nodes = true ->
  exists rn,
    read_all read_node (map (fun n => json_image (ExportedNode n)) nodes) = Some rn
    /\ Forall2 same_node nodes rn.
Proof.
  induction nodes as [|n nodes IH]; cbn [map read_all forallb]; intros H.
  - exists []. split; [reflexivity | constructor].
  - apply andb_true_iff in H. destruct H as [Hn Hs].
    destruct (read_node_exported n Hn) as [r [Er Sr]].
    destruct (IH Hs) as [rn [Ern Srn]].
    exists (r :: rn). rewrite Er, Ern. split; [reflexivity | now constructor].
Qed.

Lemma read_edges_exported (edges : list FlowEdge.t) :
  read_all read_edge (map (fun e => json_image (ExportedEdge e)) edges)
  = Some (map edge_triple edges).
Proof.
  induction edges as [|e edges IH]; cbn [map read_all]; [reflexivity|].
  rewrite IH. reflexivity.
Qed.

Lemma keys_exported_node (n : FlowNode.t) :
  keys (json_image (ExportedNode n)) = exported_node_keys n.
Proof.
  destruct n as [i ty pos dat sel drag]. unfold exported_node_keys. simpl.
  destruct ty; reflexivity.
Qed.

Lemma exported_node_fields (n : FlowNode.t) :
  only_exported_node_fields (json_image (ExportedNode n)).
Proof.
  split; [|split].
  - rewrite keys_exported_node. unfold exported_node_keys.
    destruct (FlowNode.type n); intros k Hk; simpl in *; tauto.
  - destruct n as [i ty [px py] dat sel drag]. simpl.
    destruct ty; simpl; intros p [= <-]; destruct px, py; reflexivity.
  - destruct n as [i ty pos [txt] sel drag]. simpl.
    destruct ty; simpl; intros d [= <-]; reflexivity.
Qed.

Lemma read_flow_document (ns es : list value) :
  read_flow (VObject [("nodes", VArray ns); ("edges", VArray es)])
  = match read_all read_node ns, read_all read_edge es with
    | Some rn, Some re => Some (rn, re)
    | _, _ => None
    end.
Proof.
  reflexivity.
Qed.

Lemma objects_under_document (ns es : list value) :
  objects_under (VObject [("nodes", VArray ns); ("edges", VArray es)]) "nodes" = ns
  /\ objects_under (VObject [("nodes", VArray ns); ("edges", VArray es)]) "edges" = es.
Proof.
  split; reflexivity.
Qed.

Lemma number_image_comes_back (x : number) : coordinate_comes_back x (number_image x).
Proof.
  destruct x as [| | |neg|neg s n]; cbn [coordinate_comes_back number_image];
    try reflexivity.
  - exists (Zero false). split; reflexivity.
  - exists (Finite neg s n). split; [reflexivity|]. simpl.
    now rewrite Bool.eqb_reflx, digits_eqb_refl, Z.eqb_refl.
Qed.

Lemma parse_node_exported (n : FlowNode.t) :
  parse_node (json_image (ExportedNode n))
  = Some (ParsedNode.mk (FlowNode.id n)
            (number_image (XYPosition.x (FlowNode.position n)))
            (number_image (XYPosition.y (FlowNode.position n)))
            (TextNodeData.text (FlowNode.data n))).
Proof.
  destruct n as [i ty [px py] [txt] sel drag]. unfold ExportedNode.
  destruct ty; reflexivity.
Qed.

Lemma parse_nodes_exported (nodes : list FlowNode.t) :
  exists rn,
    read_all parse_node (map (fun n => json_image (ExportedNode n)) nodes) = Some rn
    /\ Forall2 node_comes_back nodes rn.
Proof.
  induction nodes as [|n nodes IH]; cbn [map read_all].
  - exists []. split; [reflexivity | constructor].
  - destruct IH as [rn [Ern Srn]]. rewrite parse_node_exported, Ern.
    eexists. split; [reflexivity|]. constructor; [|exact Srn].
    repeat split; apply number_image_comes_back.
Qed.

Lemma parse_flow_document (ns es : list value) :
  parse_flow (VObject [("nodes", VArray ns); ("edges", VArray es)])
  = match read_all parse_node ns, read_all read_edge es with
    | Some rn, Some re => Some (rn, re)
    | _, _ => None
    end.
Proof.
  reflexivity.
Qed.

(** C5, as the code has it.  For every graph the text [exportFlowAsJSON]
    hands over parses, and the graph read from it has the ids and the texts
    of the nodes and the (id, source, target) triples of the edges; a
    coordinate that is a finite number comes back as a number equal to it
    under [===], and a coordinate that is NaN or an infinity comes back as
    [null]; the document holds the two arrays only, a node object holds no
    key beyond [id], [type], [position] ([x], [y]) and [data] ([text]), and
    an edge object holds [id], [source] and [target] only.  So the round
    trip of the specification holds for every graph whose coordinates are
    all finite. *)
Theorem export_round_trip_every_graph (today : Date.t)
    (nodes : list FlowNode.t) (edges : list FlowEdge.t) :
  (exists doc rn re,
      JSON_parse (Download.content (exportFlowAsJSON today nodes edges)) = Some doc
      /\ parse_flow doc = Some (rn, re)
      /\ Forall2 node_comes_back nodes rn
      /\ re = map edge_triple edges
      /\ keys doc = ["nodes"; "edges"]
      /\ Forall only_exported_node_fields (objects_under doc "nodes")
      /\ Forall only_exported_edge_fields (objects_under doc "edges"))
  /\ (forallb finite_position nodes = true -> export_round_trip today nodes edges).
Proof.
  pose proof (exportFlowAsJSON_parses today nodes edges) as Hparse.
  rewrite json_image_ExportedFlow in Hparse.
  split.
  - destruct (parse_nodes_exported nodes) as [rn [Ern Srn]].
    eexists. exists rn, (map edge_triple edges).
    split; [exact Hparse|]. split.
    { rewrite parse_flow_document, Ern, read_edges_exported. reflexivity. }
    split; [exact Srn|]. split; [reflexivity|]. split; [reflexivity|].
    destruct (objects_under_document
                (map (fun n => json_image (ExportedNode n)) nodes)
                (map (fun e => json_image (ExportedEdge e)) edges)) as [-> ->].
    split.
    + apply Forall_map. apply Forall_forall. intros n _. apply exported_node_fields.
    + apply Forall_map. apply Forall_forall. intros e _. reflexivity.
  - intros Hfin.
    destruct (read_nodes_exported nodes Hfin) as [rn [Ern Srn]].
    eexists. exists rn, (map edge_triple edges).
    split; [exact Hparse|]. split; [|split; [exact Srn | reflexivity]].
    rewrite read_flow_document, Ern, read_edges_exported. reflexivity.
Qed.

Lemma export_round_trip_every_graph_witness :
  let edge := FlowEdge.mk "reactflow__edge-node_0source-node_1target" "node_0" "node_1"
                (HStr "source") (HStr "target") (Some false) (Some true) in
  let node1 := FlowNode.mk "node_1" (Some "textNode")
                 (XYPosition.mk (Finite true (MMany p1 [d2] p5) 1) (Zero true))
                 (TextNodeData.mk "Bye") (Some true) (Some false) in
  let node2 := FlowNode.mk "node_2" (Some "textNode")
                 (XYPosition.mk NaN NegInfinity)
                 (TextNodeData.mk "Lost") None None in
  export_round_trip (Date.mk 2024 0 5) (initialNodes ++ [node1]) [edge]
  /\ exists doc re,
       JSON_parse (Download.content (exportFlowAsJSON (Date.mk 2024 0 5) [node2] [edge]))
       = Some doc
       /\ parse_flow doc = Some ([ParsedNode.mk "node_2" VNull VNull "Lost"], re).
Proof.
  intros edge node1 node2. split.
  - apply (proj2 (export_round_trip_every_graph (Date.mk 2024 0 5)
                    (initialNodes ++ [node1]) [edge])).
    reflexivity.
  - destruct (proj1 (export_round_trip_every_graph (Date.mk 2024 0 5) [node2] [edge]))
      as [doc [rn [re [Hp [Hr [Hn _]]]]]].
    exists doc, re. split; [exact Hp|]. rewrite Hr.
    inversion Hn as [|n r l l' [Hid [Hx [Hy Ht]]] Hrest]; subst.
    inversion Hrest; subst.
    destruct r as [i vx vy txt].
    cbn [ParsedNode.id ParsedNode.x ParsedNode.y ParsedNode.text node2 FlowNode.id
           FlowNode.position FlowNode.data XYPosition.x XYPosition.y TextNodeData.text
           coordinate_comes_back] in Hid, Hx, Hy, Ht.
    now subst.
Defined.

(** C5, as stated, fails: a coordinate that is not a finite number is
    written as [null], and no number is read back for it. *)
Lemma export_round_trip_fails_on_NaN :
  ~ export_round_trip (Date.mk 2024 0 5)
      [FlowNode.mk "node_1" (Some "textNode") (XYPosition.mk NaN (Zero false))
         (TextNodeData.mk "Hi") None None]
      [].
Proof.
  intros [doc [rn [re [Hparse [Hread _]]]]].
  rewrite exportFlowAsJSON_parses in Hparse. injection Hparse as <-.
  discriminate Hread.
Qed.

(** C10. The exported text always parses; in the parsed document the
    object of a node whose type is undefined has the keys [id], [position],
    [data] and no [type] key, and the object of a node with a type has
    exactly the keys [id], [type], [position], [data]. *)
Theorem exported_node_keys_follow_type (today : Date.t)
    (nodes : list FlowNode.t) (edges : list FlowEdge.t) :
  exists doc,
    JSON_parse (Download.content (exportFlowAsJSON today nodes edges)) = Some doc
    /\ Forall2 (fun n o =>
                  keys o = match FlowNode.type n with
                           | Some _ => ["id"; "type"; "position"; "data"]
                           | None => ["id"; "position"; "data"]
                           end
                  /\ (FlowNode.type n = None -> Get o "type" = None))
         nodes (objects_under doc "nodes").
Proof.
  eexists. split; [apply exportFlowAsJSON_parses|].
  rewrite json_image_ExportedFlow.
  destruct (objects_under_document
              (map (fun n => json_image (ExportedNode n)) nodes)
              (map (fun e => json_image (ExportedEdge e)) edges)) as [-> _].
  induction nodes as [|n nodes IH]; cbn [map]; constructor; [|exact IH].
  split; [apply keys_exported_node|].
  destruct n as [i ty [px py] dat sel drag]. simpl. intros ->. reflexivity.
Qed.

(* ------------------------------------------------------------------ *)
(** ** The layout of the exported text *)

Lemma node_block_lines (n : FlowNode.t) (last : bool) :
  render_lines (schema_node_lines n last)
  = "    " ++ element_text "  " "    " (ExportedNode n) ++ (if last then "" else ",").
Proof.
  destruct n as [i ty [px py] [txt] sel drag].
  unfold render_lines, schema_node_lines, element_text, ExportedNode, schema_key,
    number_text, comma_unless, render_line.
  destruct ty, last; cbn; string_assoc; reflexivity.
Qed.

Lemma edge_block_lines (e : FlowEdge.t) (last : bool) :
  render_lines (schema_edge_lines e last)
  = "    " ++ element_text "  " "    " (ExportedEdge e) ++ (if last then "" else ",").
Proof.
  destruct e as [i src tgt sh th an sel].
  unfold render_lines, schema_edge_lines, element_text, ExportedEdge, schema_key,
    comma_unless, render_line.
  destruct last; cbn; string_assoc; reflexivity.
Qed.

Lemma join_app (sep : string) (a b : list string) :
  a <> [] -> b <> [] -> join sep (a ++ b) = join sep a ++ sep ++ join sep b.
Proof.
  intros Ha Hb. induction a as [|x a IH]; [congruence|].
  destruct a as [|y a].
  - simpl app. rewrite join_cons. destruct b; [congruence | reflexivity].
  - specialize (IH ltac:(discriminate)).
    change ((x :: y :: a) ++ b)%list with (x :: (y :: a) ++ b)%list.
    rewrite join_cons. change ((y :: a) ++ b)%list with (y :: a ++ b)%list at 1.
    cbv iota. rewrite IH. rewrite (join_cons sep x (y :: a)).
    now rewrite !append_assoc.
Qed.

Lemma render_lines_app (a b : list (nat * string)) :
  a <> [] -> b <> [] ->
  render_lines (a ++ b) = render_lines a ++ String LF (render_lines b).
Proof.
  intros Ha Hb. unfold render_lines. rewrite map_app, join_app.
  - reflexivity.
  - destruct a; [congruence | discriminate].
  - destruct b; [congruence | discriminate].
Qed.

Lemma render_schema_items {A : Type} (item : A -> bool -> list (nat * string))
    (block : A -> string) (l : list A) :
  (forall a last,
      render_lines (item a last) = "    " ++ block a ++ (if last then "" else ",")) ->
  (forall a last, item a last <> []) ->
  l <> [] ->
  schema_items item l <> []
  /\ render_lines (schema_items item l)
     = "    " ++ join ("," ++ String LF "    ") (map block l).
Proof.
  intros Hitem Hne. induction l as [|a l IH]; [congruence|]. intros _.
  destruct l as [|b l].
  - simpl. split; [apply Hne|]. rewrite Hitem. now rewrite append_nil_r.
  - destruct (IH ltac:(discriminate)) as [IHne IHr].
    change (schema_items item (a :: b :: l))
      with (item a false ++ schema_items item (b :: l))%list.
    split.
    + intros E. apply app_eq_nil in E. destruct E as [E _]. exact (Hne a false E).
    + rewrite render_lines_app by (auto using Hne).
      rewrite Hitem, IHr. cbn [map]. rewrite (join_cons _ (block a)).
      string_assoc. reflexivity.
Qed.

Lemma wrap_partial_indented (op cl : ascii) (gap stepback indent : string)
    (partial : list string) :
  partial <> [] -> String.eqb gap EmptyString = false ->
  wrap_partial op cl gap stepback indent partial
  = String op
      (String LF indent ++ join ("," ++ String LF indent) partial
         ++ String LF stepback ++ String cl EmptyString).
Proof.
  intros Hp Hg. unfold wrap_partial. rewrite Hg.
  destruct partial; [congruence | reflexivity].
Qed.

Lemma render_schema_array {A : Type} (key : string)
    (item : A -> bool -> list (nat * string)) (export : A -> value) (l : list A)
    (last : bool) :
  (forall a lst,
      render_lines (item a lst)
      = "    " ++ element_text "  " "    " (export a) ++ (if lst then "" else ",")) ->
  (forall a lst, item a lst <> []) ->
  schema_array key item l last <> []
  /\ render_lines (schema_array key item l last)
     = "  " ++ member_text "  " "  " (key, VArray (map export l))
         ++ (if last then "" else ",").
Proof.
  intros Hitem Hne. destruct l as [|a l].
  - split; [discriminate|].
    unfold schema_array, render_lines, member_text, schema_key, comma_unless, render_line.
    destruct last; cbn; string_assoc; reflexivity.
  - destruct (render_schema_items item (fun a => element_text "  " "    " (export a))
                (a :: l) Hitem Hne ltac:(discriminate)) as [Hine Hir].
    assert (Hsa : schema_array key item (a :: l) last
                  = List.app [(1%nat, schema_key key ++ "[")]
                      (List.app (schema_items item (a :: l))
                         [(1%nat, comma_unless last "]")]))
      by (unfold schema_array; cbn [List.concat]; now rewrite app_nil_r).
    rewrite Hsa. clear Hsa.
    remember (a :: l) as l1 eqn:Hl1.
    split; [discriminate|].
    rewrite render_lines_app; [|discriminate|].
    + rewrite render_lines_app; [|exact Hine|discriminate].
      rewrite Hir.
      unfold member_text. cbn [fst snd]. rewrite element_text_array.
      rewrite map_map.
      rewrite wrap_partial_indented; [|subst l1; discriminate|reflexivity].
      unfold render_lines at 1 2, schema_key, comma_unless, render_line.
      destruct last; cbn; string_assoc; reflexivity.
    + intros E. apply app_eq_nil in E. destruct E as [E _]. exact (Hine E).
Qed.

Lemma schema_node_lines_nonempty (n : FlowNode.t) (last : bool) :
  schema_node_lines n last <> [].
Proof.
  unfold schema_node_lines. simpl. discriminate.
Qed.

Lemma schema_edge_lines_nonempty (e : FlowEdge.t) (last : bool) :
  schema_edge_lines e last <> [].
Proof.
  discriminate.
Qed.

(** The text handed to the browser is the document of the schema. *)
Lemma exportFlowAsJSON_layout (today : Date.t) (nodes : list FlowNode.t)
    (edges : list FlowEdge.t) :
  Download.content (exportFlowAsJSON today nodes edges)
  = render_lines (schema_lines nodes edges).
Proof.
  destruct (render_schema_array "nodes" schema_node_lines ExportedNode nodes false
              node_block_lines schema_node_lines_nonempty) as [Hnn Hnr].
  destruct (render_schema_array "edges" schema_edge_lines ExportedEdge edges true
              edge_block_lines schema_edge_lines_nonempty) as [Hen Her].
  unfold schema_lines. cbn [List.concat]. rewrite app_nil_r.
  rewrite render_lines_app; [|discriminate|].
  - rewrite render_lines_app; [|exact Hnn|].
    + rewrite render_lines_app; [|exact Hen|discriminate].
      rewrite Hnr, Her.
      unfold exportFlowAsJSON, triggerDownload, JSON_stringify, ExportedFlow.
      cbn [Download.content].
      change (SerializeJSONProperty (repeat_string " " (Nat.min 10 2)) EmptyString
                (VObject [("nodes", VArray (map ExportedNode nodes));
                          ("edges", VArray (map ExportedEdge edges))]))
        with (Some (wrap_partial "{" "}" "  " EmptyString "  "
                      [member_text "  " "  " ("nodes", VArray (map ExportedNode nodes));
                       member_text "  " "  " ("edges", VArray (map ExportedEdge edges))])).
      set (m1 := member_text "  " "  " ("nodes", VArray (map ExportedNode nodes))).
      set (m2 := member_text "  " "  " ("edges", VArray (map ExportedEdge edges))).
      unfold wrap_partial, render_lines, render_line. cbn. string_assoc. reflexivity.
    + intros E. apply app_eq_nil in E. destruct E as [E _]. exact (Hen E).
  - intros E. apply app_eq_nil in E. destruct E as [E _]. exact (Hnn E).
Qed.

(** C7. The text [exportFlowAsJSON] hands over is the document of section
    6 line by line: every line indented by two spaces per nesting level,
    [nodes] before [edges], [id], [type] (when defined), [position] and
    [data] in a node, [id], [source], [target] in an edge; and, for the
    date of a calendar day, the file is named [chatbot-flow-], the year, the
    month and the day on two digits each, [.json] (28 characters when the
    year has four digits). *)
Theorem export_layout_and_filename (today : Date.t) (nodes : list FlowNode.t)
    (edges : list FlowEdge.t) :
  valid_date today ->
  JSON_stringify (ExportedFlow nodes edges) 2
  = Some (Download.content (exportFlowAsJSON today nodes edges))
  /\ Download.content (exportFlowAsJSON today nodes edges)
     = render_lines (schema_lines nodes edges)
  /\ Download.filename (exportFlowAsJSON today nodes edges) = schema_filename today
  /\ String.length (two_digits (Date.getMonth today + 1)) = 2
  /\ String.length (two_digits (Date.getDate today)) = 2
  /\ ((1000 <= Date.getFullYear today <= 9999)%Z ->
      String.length (Download.filename (exportFlowAsJSON today nodes edges)) = 28).
Proof.
  intros Hd. split; [apply exportFlowAsJSON_content|].
  split; [apply exportFlowAsJSON_layout|].
  assert (Hname : Download.filename (exportFlowAsJSON today nodes edges)
                  = schema_filename today).
  { unfold exportFlowAsJSON, triggerDownload, schema_filename. cbn [Download.filename].
    rewrite (getTodayString_valid today Hd). string_assoc. reflexivity. }
  split; [exact Hname|]. split; [reflexivity|]. split; [reflexivity|].
  intros Hy. rewrite Hname. unfold schema_filename.
  rewrite !length_append, (four_digit_year _ Hy), !two_digits_length. reflexivity.
Qed.

Lemma export_layout_and_filename_witness :
  Download.filename (exportFlowAsJSON (Date.mk 2024 0 5) initialNodes initialEdges)
  = "chatbot-flow-2024-01-05.json"
  /\ Download.content (exportFlowAsJSON (Date.mk 2024 0 5) initialNodes initialEdges)
     = render_lines (schema_lines initialNodes initialEdges).
Proof.
  destruct (export_layout_and_filename (Date.mk 2024 0 5) initialNodes initialEdges)
    as [_ [Hc [Hf _]]].
  - unfold valid_date. simpl. lia.
  - split; [rewrite Hf; reflexivity | exact Hc].
Defined.

(** C8, as the code has it.  The download [exportFlowAsJSON] triggers
    carries the serialized graph as its content and the JSON media type; its
    file name is [chatbot-flow-], the date text and [.json], so it depends
    on the date alone; and for the date of a calendar day the date text is
    the year, the month and the day on two digits each, joined by hyphens. *)
Theorem export_download_named_by_date (today : Date.t)
    (nodes nodes' : list FlowNode.t) (edges edges' : list FlowEdge.t) :
  let d := exportFlowAsJSON today nodes edges in
  JSON_stringify (ExportedFlow nodes edges) 2 = Some (Download.content d)
  /\ Download.mimeType d = "application/json"
  /\ Download.filename d = "chatbot-flow-" ++ getTodayString today ++ ".json"
  /\ Download.filename (exportFlowAsJSON today nodes' edges') = Download.filename d
  /\ (valid_date today ->
      getTodayString today
      = string_of_Z (Date.getFullYear today) ++ "-"
          ++ two_digits (Date.getMonth today + 1) ++ "-"
          ++ two_digits (Date.getDate today)).
Proof.
  repeat split. apply getTodayString_valid.
Qed.

Lemma export_download_named_by_date_witness :
  getTodayString (Date.mk 2026 10 2) = "2026-11-02"
  /\ Download.filename (exportFlowAsJSON (Date.mk 2026 10 2) initialNodes initialEdges)
     = "chatbot-flow-" ++ getTodayString (Date.mk 2026 10 2) ++ ".json".
Proof.
  destruct (export_download_named_by_date (Date.mk 2026 10 2)
              initialNodes [] initialEdges []) as [_ [_ [Hf [_ Hd]]]].
  split; [|exact Hf].
  rewrite Hd; [reflexivity|]. unfold valid_date. simpl. lia.
Defined.

(** C8, as stated, fails: the file name does not follow the pattern
    [flow-export-YYYY-MM-DD.<ext>]. *)
Lemma export_filename_is_not_flow_export :
  ~ exists ext,
      Download.filename (exportFlowAsJSON (Date.mk 2024 0 5) initialNodes initialEdges)
      = "flow-export-2024-01-05." ++ ext.
Proof.
  intros [ext H]. vm_compute in H. discriminate H.
Qed.

(* ------------------------------------------------------------------ *)
(** ** The example scenarios of the specification *)

Example scenario_single_node :
  validateFlow [scenario_node "A"] []
  = ValidationResult.mk true "Flow saved successfully!".
Proof.
  reflexivity.
Qed.

Example scenario_two_roots :
  validateFlow [scenario_node "A"; scenario_node "B"; scenario_node "C"]
    [scenario_edge "A" "B"]
  = ValidationResult.mk false
      "Cannot save flow: More than one node has empty target handles.".
Proof.
  reflexivity.
Qed.

Example scenario_chain :
  validateFlow [scenario_node "A"; scenario_node "B"; scenario_node "C"]
    [scenario_edge "A" "B"; scenario_edge "B" "C"]
  = ValidationResult.mk true "Flow saved successfully!".
Proof.
  reflexivity.
Qed.

Example scenario_cycle_is_valid :
  ValidationResult.valid
    (validateFlow [scenario_node "A"; scenario_node "B"]
       [scenario_edge "A" "B"; scenario_edge "B" "A"]) = true.
Proof.
  reflexivity.
Qed.

Example scenario_source_port_taken :
  isValidConnection [scenario_edge "A" "C"] (scenario_proposal "A" "B") = false.
Proof.
  reflexivity.
Qed.

Example scenario_second_incoming_edge :
  isValidConnection [scenario_edge "A" "C"] (scenario_proposal "B" "C") = true.
Proof.
  reflexivity.
Qed.

Example scenario_self_loop :
  isValidConnection [] (scenario_proposal "A" "A") = false.
Proof.
  reflexivity.
Qed.

Example scenario_export_two_nodes_one_edge :
  exists doc,
    JSON_parse
      (Download.content
         (exportFlowAsJSON (Date.mk 2024 0 5) [scenario_node "A"; scenario_node "B"]
            [scenario_edge "A" "B"]))
    = Some doc
    /\ List.length (objects_under doc "nodes") = 2
    /\ map keys (objects_under doc "edges") = [["id"; "source"; "target"]].
Proof.
  eexists. split; [vm_compute; reflexivity | split; reflexivity].
Qed.

Example scenario_number_text :
  map Number_toString
    [Finite false (MMany p1 [] p8) 3; Finite true (MMany p1 [d2] p5) 1;
     Finite false (MOne p1) 22; Finite false (MMany p1 [d0] p5) (-7);
     Finite false (MOne p5) (-2); Zero true]
  = ["180"; "-1.25"; "1e+21"; "1.05e-8"; "0.005"; "0"].
Proof.
  reflexivity.
Qed.

(* ------------------------------------------------------------------ *)
(** ** More on the validator *)

Lemma filter_length_Permutation {A : Type} (f : A -> bool) (l l' : list A) :
  Permutation l l' -> List.length (filter f l) = List.length (filter f l').
Proof.
  induction 1 as [|x l l' _ IH|x y l|l l' l'' _ IH1 _ IH2]; simpl.
  - reflexivity.
  - destruct (f x); simpl; congruence.
  - destruct (f x), (f y); reflexivity.
  - congruence.
Qed.

Lemma filter_length_le {A : Type} (f g : A -> bool) (l : list A) :
  (forall x, In x l -> f x = true -> g x = true) ->
  List.length (filter f l) <= List.length (filter g l).
Proof.
  induction l as [|x l IH]; intros H; simpl; [lia|].
  assert (IH' : List.length (filter f l) <= List.length (filter g l))
    by (apply IH; intros y Hy; apply H; now right).
  destruct (f x) eqn:Hf.
  - rewrite (H x (or_introl eq_refl) Hf). simpl. lia.
  - destruct (g x); simpl; lia.
Qed.

Lemma existsb_eqb_In (x : string) (l : list string) :
  existsb (String.eqb x) l = true <-> In x l.
Proof.
  rewrite existsb_exists. split.
  - intros [y [Hy E]]. apply String.eqb_eq in E. now subst.
  - intros H. exists x. split; [exact H | apply String.eqb_refl].
Qed.

Lemma Set_has_same_elements (l l' : list string) (x : string) :
  (forall y, In y l <-> In y l') ->
  Set_has (new_Set l) x = Set_has (new_Set l') x.
Proof.
  intros H. rewrite !Set_has_new_Set.
  destruct (existsb (String.eqb x) l) eqn:E; symmetry.
  - apply existsb_eqb_In. apply H. now apply existsb_eqb_In.
  - destruct (existsb (String.eqb x) l') eqn:E'; [|reflexivity].
    apply existsb_eqb_In in E'. apply H in E'. apply existsb_eqb_In in E'. congruence.
Qed.

Lemma validateFlow_same_targets
    (nodes : list FlowNode.t) (edges edges' : list FlowEdge.t) :
  (forall x, In x (map FlowEdge.target edges) <-> In x (map FlowEdge.target edges')) ->
  validateFlow nodes edges = validateFlow nodes edges'.
Proof.
  intros H. unfold validateFlow.
  destruct (Nat.leb (List.length nodes) 1); [reflexivity|].
  rewrite (filter_ext
             (fun node => negb (Set_has (new_Set (map FlowEdge.target edges))
                                  (FlowNode.id node)))
             (fun node => negb (Set_has (new_Set (map FlowEdge.target edges'))
                                  (FlowNode.id node)))).
  - reflexivity.
  - intros n. f_equal. now apply Set_has_same_elements.
Qed.

(** The verdict reads the edges through the set of their targets only:
    sources, handles, order and repetition of the edges do not count. *)
Theorem validateFlow_reads_targets_only
    (nodes : list FlowNode.t) (edges edges' : list FlowEdge.t) :
  (forall x, In x (map FlowEdge.target edges) <-> In x (map FlowEdge.target edges')) ->
  validateFlow nodes edges = validateFlow nodes edges'.
Proof.
  intros H. now apply validateFlow_same_targets.
Qed.

Lemma validateFlow_reads_targets_only_witness :
  validateFlow [scenario_node "A"; scenario_node "B"; scenario_node "C"]
    [scenario_edge "A" "B"; scenario_edge "C" "B"; scenario_edge "A" "B"]
  = validateFlow [scenario_node "A"; scenario_node "B"; scenario_node "C"]
      [scenario_edge "Z" "B"].
Proof.
  apply validateFlow_reads_targets_only. intros x. simpl. tauto.
Defined.

(** The verdict does not depend on the order of the nodes or of the
    edges. *)
Theorem validateFlow_order_independent
    (nodes nodes' : list FlowNode.t) (edges edges' : list FlowEdge.t) :
  Permutation nodes nodes' -> Permutation edges edges' ->
  validateFlow nodes edges = validateFlow nodes' edges'.
Proof.
  intros Hn He.
  rewrite (validateFlow_same_targets nodes edges edges').
  - unfold validateFlow. rewrite (Permutation_length Hn).
    destruct (Nat.leb (List.length nodes') 1); [reflexivity|].
    now rewrite (filter_length_Permutation _ _ _ Hn).
  - intros x. split; apply Permutation_in; [|symmetry]; now apply Permutation_map.
Qed.

Lemma validateFlow_order_independent_witness :
  validateFlow [scenario_node "A"; scenario_node "B"; scenario_node "C"]
    [scenario_edge "A" "B"; scenario_edge "B" "C"]
  = validateFlow [scenario_node "B"; scenario_node "A"; scenario_node "C"]
      [scenario_edge "B" "C"; scenario_edge "A" "B"].
Proof.
  apply validateFlow_order_independent; apply perm_swap.
Defined.

(** Adding edges never turns an accepted flow into a rejected one. *)
Theorem validateFlow_more_edges_stay_valid
    (nodes : list FlowNode.t) (edges more : list FlowEdge.t) :
  ValidationResult.valid (validateFlow nodes edges) = true ->
  ValidationResult.valid (validateFlow nodes (edges ++ more)) = true.
Proof.
  unfold validateFlow.
  destruct (Nat.leb (List.length nodes) 1); [reflexivity|].
  rewrite !nodesWithoutIncoming_length. unfold root_count.
  destruct (Nat.ltb_spec 1 (List.length (filter (has_no_incoming_edge edges) nodes)))
    as [H|H]; [discriminate|]. intros _.
  assert (Hle : List.length (filter (has_no_incoming_edge (edges ++ more)) nodes)
                <= List.length (filter (has_no_incoming_edge edges) nodes)).
  { apply filter_length_le. intros n _ Hn. unfold has_no_incoming_edge in *.
    rewrite forallb_app in Hn. apply andb_true_iff in Hn. tauto. }
  destruct (Nat.ltb_spec 1 (List.length
                              (filter (has_no_incoming_edge (edges ++ more)) nodes)));
    [lia | reflexivity].
Qed.

Lemma validateFlow_more_edges_stay_valid_witness :
  ValidationResult.valid
    (validateFlow [scenario_node "A"; scenario_node "B"; scenario_node "C"]
       ([scenario_edge "A" "B"; scenario_edge "B" "C"] ++ [scenario_edge "C" "A"]))
  = true.
Proof.
  apply validateFlow_more_edges_stay_valid. reflexivity.
Defined.

(** An edge whose target is the id of no node does not count. *)
Theorem validateFlow_ignores_dangling_edge
    (nodes : list FlowNode.t) (e : FlowEdge.t) (edges : list FlowEdge.t) :
  (forall n, In n nodes -> FlowNode.id n <> FlowEdge.target e) ->
  validateFlow nodes (e :: edges) = validateFlow nodes edges.
Proof.
  intros H. unfold validateFlow.
  destruct (Nat.leb (List.length nodes) 1); [reflexivity|].
  rewrite (filter_ext_in
             (fun node => negb (Set_has (new_Set (map FlowEdge.target (e :: edges)))
                                  (FlowNode.id node)))
             (fun node => negb (Set_has (new_Set (map FlowEdge.target edges))
                                  (FlowNode.id node)))).
  - reflexivity.
  - intros n Hn. rewrite !Set_has_new_Set. simpl.
    specialize (H n Hn). apply String.eqb_neq in H. rewrite H. reflexivity.
Qed.

Lemma validateFlow_ignores_dangling_edge_witness :
  validateFlow [scenario_node "A"; scenario_node "B"]
    [scenario_edge "A" "deleted"; scenario_edge "A" "B"]
  = validateFlow [scenario_node "A"; scenario_node "B"] [scenario_edge "A" "B"].
Proof.
  apply validateFlow_ignores_dangling_edge.
  intros n [<-|[<-|[]]]; discriminate.
Defined.

Lemma filter_none {A : Type} (f : A -> bool) (l : list A) :
  (forall x, In x l -> f x = false) -> filter f l = [].
Proof.
  induction l as [|x l IH]; intros H; simpl; [reflexivity|].
  rewrite (H x (or_introl eq_refl)). apply IH. intros y Hy. apply H. now right.
Qed.

(** A flow in which every node is the target of some edge is accepted:
    cycles are not looked for. *)
Theorem validateFlow_accepts_when_every_node_is_targeted
    (nodes : list FlowNode.t) (edges : list FlowEdge.t) :
  (forall n, In n nodes -> exists e, In e edges /\ FlowEdge.target e = FlowNode.id n) ->
  validateFlow nodes edges = ValidationResult.mk true "Flow saved successfully!".
Proof.
  intros H. unfold validateFlow.
  destruct (Nat.leb (List.length nodes) 1); [reflexivity|].
  rewrite nodesWithoutIncoming_length. unfold root_count.
  rewrite filter_none; [reflexivity|]. intros n Hn.
  destruct (has_no_incoming_edge edges n) eqn:E; [|reflexivity].
  destruct (H n Hn) as [e [He Ht]].
  rewrite has_no_incoming_edge_spec in E. now apply E in He.
Qed.

Lemma validateFlow_accepts_when_every_node_is_targeted_witness :
  validateFlow [scenario_node "A"; scenario_node "B"; scenario_node "C"]
    [scenario_edge "A" "B"; scenario_edge "B" "C"; scenario_edge "C" "A"]
  = ValidationResult.mk true "Flow saved successfully!".
Proof.
  apply validateFlow_accepts_when_every_node_is_targeted.
  intros n [<-|[<-|[<-|[]]]].
  - exists (scenario_edge "C" "A"). split; [simpl; auto | reflexivity].
  - exists (scenario_edge "A" "B"). split; [simpl; auto | reflexivity].
  - exists (scenario_edge "B" "C"). split; [simpl; auto | reflexivity].
Defined.

(* ------------------------------------------------------------------ *)
(** ** Edges on the canvas *)

Lemma handle_strict_eq_handle_of (h : handle) (c : option string) :
  handle_strict_eq h c = true <-> h = handle_of c.
Proof.
  destruct h as [| |s], c as [s'|]; simpl; split; try congruence.
  - intros H. apply String.eqb_eq in H. now subst.
  - intros [= ->]. apply String.eqb_refl.
Qed.

Lemma same_source_handle_key (c : Connection.t) (e : FlowEdge.t) (s : string) :
  Connection.source c = Some s ->
  (same_source_handle c e = true
   <-> source_key e = (s, handle_of (Connection.sourceHandle c))).
Proof.
  intros Hs. rewrite same_source_handle_spec, handle_strict_eq_handle_of, Hs.
  unfold source_key. split.
  - intros [[= ->] ->]. reflexivity.
  - intros [= -> ->]. split; reflexivity.
Qed.

Lemma admitted_key_is_free (edges : list FlowEdge.t) (c : Connection.t) (s : string) :
  Connection.source c = Some s ->
  isValidConnection edges c = true ->
  ~ In (s, handle_of (Connection.sourceHandle c)) (map source_key edges).
Proof.
  intros Hs Hv Hin. apply in_map_iff in Hin. destruct Hin as [e [Hk He]].
  unfold isValidConnection in Hv.
  destruct (nullable_strict_eq _ _); [discriminate|].
  apply negb_true_iff in Hv.
  assert (existsb (same_source_handle c) edges = true); [|congruence].
  apply existsb_exists. exists e. split; [exact He|].
  now apply (same_source_handle_key c e s Hs).
Qed.

Lemma addEdge_cases (c : Connection.t) (animated : bool) (edges : list FlowEdge.t) :
  addEdge c animated edges = edges
  \/ exists s t,
       Connection.source c = Some s /\ Connection.target c = Some t
       /\ addEdge c animated edges
          = (edges ++
             [FlowEdge.mk
                ("reactflow__edge-" ++ s ++ handle_text (Connection.sourceHandle c)
                   ++ "-" ++ t ++ handle_text (Connection.targetHandle c))
                s t (handle_of (Connection.sourceHandle c))
                (handle_of (Connection.targetHandle c)) (Some animated) None])%list.
Proof.
  unfold addEdge.
  destruct (Connection.source c) as [s|]; [|now left].
  destruct (Connection.target c) as [t|]; [|now left].
  destruct (String.eqb s EmptyString || String.eqb t EmptyString); [now left|].
  destruct (connectionExists s t c edges); [now left|].
  right. exists s, t. repeat split.
Qed.

Lemma onConnect_edges_invariant (c : Connection.t) (st : Canvas.t) :
  edges_invariant (Canvas.edges st) -> edges_invariant (Canvas.edges (onConnect c st)).
Proof.
  intros [Hnd Hloop]. unfold onConnect.
  destruct (isValidConnection (Canvas.edges st) c) eqn:Hv; [|now split].
  simpl.
  destruct (addEdge_cases c false (Canvas.edges st)) as [->|[s [t [Hs [Ht ->]]]]];
    [now split|].
  split.
  - rewrite map_app. simpl. apply NoDup_snoc; [exact Hnd|].
    unfold source_key at 1. simpl. now apply admitted_key_is_free.
  - apply Forall_app. split; [exact Hloop|]. constructor; [|constructor]. simpl.
    intros ->. unfold isValidConnection in Hv.
    rewrite Hs, Ht, nullable_strict_eq_refl in Hv. discriminate.
Qed.

Lemma filter_keeps_distinct_sources
    (keep : FlowEdge.t -> bool) (edges : list FlowEdge.t) :
  NoDup (map source_key edges) -> NoDup (map source_key (filter keep edges)).
Proof.
  intros H. induction edges as [|e edges IH]; [constructor|].
  cbn [map] in H. apply NoDup_cons_iff in H. destruct H as [Hx Hl].
  cbn [filter]. destruct (keep e); [|now apply IH].
  cbn [map]. apply NoDup_cons; [|now apply IH].
  intros Hin. apply Hx. apply in_map_iff in Hin. destruct Hin as [z [Hz Hin]].
  apply filter_In in Hin. apply in_map_iff. exists z. tauto.
Qed.

Lemma applyEdgeChange_invariant (ch : EdgeChange) (edges : list FlowEdge.t) :
  edges_invariant edges -> edges_invariant (applyEdgeChange ch edges).
Proof.
  intros [Hnd Hloop]. destruct ch as [i|i sel]; simpl.
  - split; [now apply filter_keeps_distinct_sources|].
    apply Forall_forall. intros e He. apply filter_In in He.
    rewrite Forall_forall in Hloop. now apply Hloop.
  - split.
    + rewrite map_map.
      rewrite (map_ext _ source_key); [exact Hnd|].
      intros e. destruct (String.eqb (FlowEdge.id e) i); reflexivity.
    + apply Forall_map. eapply Forall_impl; [|exact Hloop].
      intros e He. destruct (String.eqb (FlowEdge.id e) i); exact He.
Qed.

Lemma handle_event_edges_invariant (ev : event) (st : Canvas.t) :
  edges_invariant (Canvas.edges st) ->
  edges_invariant (Canvas.edges (handle_event ev st)).
Proof.
  intros H. destruct ev as [type position|nodeId newText|c|changes|changes|]; simpl.
  - unfold onDrop. destruct (String.eqb type EmptyString); exact H.
  - exact H.
  - now apply onConnect_edges_invariant.
  - exact H.
  - generalize dependent (Canvas.edges st).
    induction changes as [|ch changes IH]; simpl; intros edges H; [exact H|].
    apply IH. now apply applyEdgeChange_invariant.
  - split; constructor.
Qed.

Lemma run_edges_invariant (evs : list event) (st : Canvas.t) :
  edges_invariant (Canvas.edges st) -> edges_invariant (Canvas.edges (run evs st)).
Proof.
  revert st. induction evs as [|ev evs IH]; intros st H; simpl; [exact H|].
  apply IH. now apply handle_event_edges_invariant.
Qed.

(** On every canvas reached from the seeded one, two different edges never
    leave the same handle of the same node, and no edge joins a node to
    itself. *)
Theorem reachable_edges_single_outgoing (evs : list event) :
  let edges := Canvas.edges (run evs initialCanvas) in
  (forall e1 e2,
      In e1 edges -> In e2 edges ->
      FlowEdge.source e1 = FlowEdge.source e2 ->
      FlowEdge.sourceHandle e1 = FlowEdge.sourceHandle e2 ->
      e1 = e2)
  /\ (forall e, In e edges -> FlowEdge.source e <> FlowEdge.target e).
Proof.
  intros edges.
  assert (H : edges_invariant edges)
    by (apply run_edges_invariant; split; constructor).
  destruct H as [Hnd Hloop]. split.
  - intros e1 e2 H1 H2 Hs Hh.
    assert (Hk : source_key e1 = source_key e2) by (unfold source_key; congruence).
    clear Hs Hh Hloop. induction edges as [|e edges' IH]; [contradiction|].
    simpl in Hnd. inversion Hnd as [|k ks Hk' Hks]; subst.
    destruct H1 as [<-|H1], H2 as [<-|H2].
    + reflexivity.
    + exfalso. apply Hk'. rewrite Hk. now apply in_map.
    + exfalso. apply Hk'. rewrite <- Hk. now apply in_map.
    + now apply IH.
  - rewrite Forall_forall in Hloop. exact Hloop.
Qed.

Lemma reachable_edges_single_outgoing_witness :
  let p := XYPosition.mk (Zero false) (Zero false) in
  let evs := [Drop "textNode" p; Drop "textNode" p;
              Connected (scenario_proposal "node_0" "node_1");
              Connected (scenario_proposal "node_0" "node_2");
              Connected (scenario_proposal "node_2" "node_2")] in
  map edge_triple (Canvas.edges (run evs initialCanvas))
  = [("reactflow__edge-node_0source-node_1target", "node_0", "node_1")]
  /\ forall e, In e (Canvas.edges (run evs initialCanvas)) ->
               FlowEdge.source e <> FlowEdge.target e.
Proof.
  intros p evs. split; [reflexivity|].
  exact (proj2 (reachable_edges_single_outgoing evs)).
Defined.

Lemma connectionExists_needs_same_handle (s t h : string) (c : Connection.t)
    (edges : list FlowEdge.t) :
  Connection.source c = Some s ->
  Connection.sourceHandle c = Some h -> h <> EmptyString ->
  isValidConnection edges c = true ->
  connectionExists s t c edges = false.
Proof.
  intros Hs Hh Hne Hv. unfold connectionExists.
  destruct (existsb _ edges) eqn:E; [|reflexivity].
  apply existsb_exists in E. destruct E as [el [Hel Hc]].
  exfalso. apply (admitted_key_is_free edges c s Hs Hv).
  apply in_map_iff. exists el. split; [|exact Hel].
  apply andb_true_iff in Hc. destruct Hc as [Hc _].
  apply andb_true_iff in Hc. destruct Hc as [Hc Hsh].
  apply andb_true_iff in Hc. destruct Hc as [Hsrc _].
  apply String.eqb_eq in Hsrc. unfold source_key. rewrite Hsrc. f_equal.
  apply handle_strict_eq_handle_of.
  apply orb_true_iff in Hsh. destruct Hsh as [Hsh|Hsh]; [exact Hsh|].
  apply andb_true_iff in Hsh. destruct Hsh as [_ Hf].
  rewrite Hh in Hf. simpl in Hf. apply String.eqb_eq in Hf. contradiction.
Qed.

(** An admitted connection between two named nodes, from a named handle,
    adds exactly one edge, from that handle to that target; from then on
    every connection from the same handle is rejected. *)
Theorem onConnect_takes_the_source_handle
    (st : Canvas.t) (c : Connection.t) (s t h : string) :
  Connection.source c = Some s -> Connection.target c = Some t ->
  Connection.sourceHandle c = Some h ->
  s <> EmptyString -> t <> EmptyString -> h <> EmptyString ->
  isValidConnection (Canvas.edges st) c = true ->
  exists e,
    Canvas.edges (onConnect c st) = (Canvas.edges st ++ [e])%list
    /\ FlowEdge.source e = s /\ FlowEdge.target e = t
    /\ FlowEdge.sourceHandle e = HStr h
    /\ Canvas.nodes (onConnect c st) = Canvas.nodes st
    /\ forall c',
         Connection.source c' = Some s -> Connection.sourceHandle c' = Some h ->
         isValidConnection (Canvas.edges (onConnect c st)) c' = false.
Proof.
  intros Hs Ht Hh Hse Hte Hhe Hv.
  unfold onConnect. rewrite Hv. simpl. unfold addEdge. rewrite Hs, Ht.
  apply String.eqb_neq in Hse, Hte. rewrite Hse, Hte. simpl.
  rewrite (connectionExists_needs_same_handle s t h c (Canvas.edges st) Hs Hh Hhe Hv).
  eexists. split; [reflexivity|]. rewrite Hh. simpl.
  repeat split.
  intros c' Hs' Hh'. unfold isValidConnection.
  destruct (nullable_strict_eq (Connection.source c') (Connection.target c'));
    [reflexivity|].
  apply negb_false_iff. rewrite existsb_app. apply orb_true_iff. right. simpl.
  unfold same_source_handle. simpl. rewrite Hs', Hh'. simpl.
  now rewrite !String.eqb_refl.
Qed.

Lemma onConnect_takes_the_source_handle_witness :
  isValidConnection
    (Canvas.edges (onConnect (scenario_proposal "node_0" "node_1") initialCanvas))
    (scenario_proposal "node_0" "node_7") = false.
Proof.
  destruct (onConnect_takes_the_source_handle initialCanvas
              (scenario_proposal "node_0" "node_1") "node_0" "node_1" "source"
              eq_refl eq_refl eq_refl ltac:(discriminate) ltac:(discriminate)
              ltac:(discriminate) eq_refl)
    as [e [_ [_ [_ [_ [_ H]]]]]].
  apply H; reflexivity.
Defined.

(** On a canvas reached from the seeded one, removing an edge frees the
    handle it left: a connection from that handle to another node is
    admitted again. *)
Theorem removing_an_edge_frees_its_handle
    (evs : list event) (e : FlowEdge.t) (c : Connection.t) :
  let st := run evs initialCanvas in
  In e (Canvas.edges st) ->
  Connection.source c = Some (FlowEdge.source e) ->
  handle_strict_eq (FlowEdge.sourceHandle e) (Connection.sourceHandle c) = true ->
  Connection.source c <> Connection.target c ->
  isValidConnection (Canvas.edges st) c = false
  /\ isValidConnection
       (Canvas.edges (handleEdgesChange [EdgeRemove (FlowEdge.id e)] st)) c = true.
Proof.
  intros st He Hs Hh Hne.
  assert (Hinv : edges_invariant (Canvas.edges st))
    by (apply run_edges_invariant; split; constructor).
  destruct Hinv as [Hnd _].
  assert (Hke : source_key e = (FlowEdge.source e, handle_of (Connection.sourceHandle c))).
  { apply (same_source_handle_key c e _ Hs). apply same_source_handle_spec. now split. }
  split.
  - unfold isValidConnection.
    destruct (nullable_strict_eq _ _); [reflexivity|].
    apply negb_false_iff. apply existsb_exists. exists e. split; [exact He|].
    apply same_source_handle_spec. now split.
  - unfold isValidConnection.
    destruct (nullable_strict_eq _ _) eqn:Hst;
      [apply nullable_strict_eq_eq in Hst; contradiction|].
    apply negb_true_iff. simpl.
    destruct (existsb _ _) eqn:E; [|reflexivity]. exfalso.
    apply existsb_exists in E. destruct E as [e' [Hin Hm]].
    apply filter_In in Hin. destruct Hin as [Hin Hid].
    apply (same_source_handle_key c e' _ Hs) in Hm.
    assert (Heq : e' = e).
    { clear Hid. generalize dependent (Canvas.edges st). intros edges.
      induction edges as [|x edges IH]; intros He Hnd Hin; [contradiction|].
      simpl in Hnd. inversion Hnd as [|k ks Hk Hks]; subst.
      destruct He as [<-|He], Hin as [<-|Hin].
      - reflexivity.
      - exfalso. apply Hk. rewrite Hke, <- Hm. now apply in_map.
      - exfalso. apply Hk. rewrite Hm, <- Hke. now apply in_map.
      - now apply IH. }
    subst e'. rewrite String.eqb_refl in Hid. discriminate.
Qed.

Lemma removing_an_edge_frees_its_handle_witness :
  let st := run [Connected (scenario_proposal "node_0" "node_1")] initialCanvas in
  isValidConnection (Canvas.edges st) (scenario_proposal "node_0" "node_2") = false
  /\ isValidConnection
       (Canvas.edges
          (handleEdgesChange
             [EdgeRemove "reactflow__edge-node_0source-node_1target"] st))
       (scenario_proposal "node_0" "node_2") = true.
Proof.
  intros st.
  apply (removing_an_edge_frees_its_handle
           [Connected (scenario_proposal "node_0" "node_1")]
           (FlowEdge.mk "reactflow__edge-node_0source-node_1target" "node_0" "node_1"
              (HStr "source") (HStr "target") (Some false) None)
           (scenario_proposal "node_0" "node_2")).
  - simpl. left. reflexivity.
  - reflexivity.
  - reflexivity.
  - discriminate.
Defined.

(* ------------------------------------------------------------------ *)
(** ** Editing the text of a node *)

Lemma find_node_updateNodeText_same (i t : string) (nodes : list FlowNode.t) (n : FlowNode.t) :
  find_node nodes i = Some n ->
  find_node
    (map (fun m =>
            if String.eqb (FlowNode.id m) i
            then FlowNode.mk (FlowNode.id m) (FlowNode.type m) (FlowNode.position m)
                   (TextNodeData.mk t) (FlowNode.selected m) (FlowNode.dragging m)
            else m) nodes) i
  = Some (FlowNode.mk (FlowNode.id n) (FlowNode.type n) (FlowNode.position n)
            (TextNodeData.mk t) (FlowNode.selected n) (FlowNode.dragging n)).
Proof.
  unfold find_node. induction nodes as [|m nodes IH]; simpl; [discriminate|].
  destruct (String.eqb (FlowNode.id m) i) eqn:E; simpl.
  - rewrite E. now intros [= ->].
  - rewrite E. exact IH.
Qed.

Lemma find_node_updateNodeText_other (i j t : string) (nodes : list FlowNode.t) :
  j <> i ->
  find_node
    (map (fun m =>
            if String.eqb (FlowNode.id m) i
            then FlowNode.mk (FlowNode.id m) (FlowNode.type m) (FlowNode.position m)
                   (TextNodeData.mk t) (FlowNode.selected m) (FlowNode.dragging m)
            else m) nodes) j
  = find_node nodes j.
Proof.
  intros Hne. unfold find_node. induction nodes as [|m nodes IH]; simpl; [reflexivity|].
  destruct (String.eqb (FlowNode.id m) i) eqn:E; simpl.
  - apply String.eqb_eq in E.
    assert (Hj : String.eqb (FlowNode.id m) j = false)
      by (apply String.eqb_neq; congruence).
    rewrite Hj. exact IH.
  - destruct (String.eqb (FlowNode.id m) j); [reflexivity | exact IH].
Qed.

(** After [updateNodeText], looking the node up by its id gives the same
    node with the new text (id, type, position and flags kept); a lookup by
    another id gives what it gave before; and the order of the nodes, the
    edges and the id counter are untouched. *)
Theorem updateNodeText_read_back (i t : string) (st : Canvas.t) :
  map FlowNode.id (Canvas.nodes (updateNodeText i t st)) = map FlowNode.id (Canvas.nodes st)
  /\ Canvas.edges (updateNodeText i t st) = Canvas.edges st
  /\ Canvas.nodeIdCounter (updateNodeText i t st) = Canvas.nodeIdCounter st
  /\ (forall n,
        find_node (Canvas.nodes st) i = Some n ->
        find_node (Canvas.nodes (updateNodeText i t st)) i
        = Some (FlowNode.mk (FlowNode.id n) (FlowNode.type n) (FlowNode.position n)
                  (TextNodeData.mk t) (FlowNode.selected n) (FlowNode.dragging n)))
  /\ (forall j, j <> i ->
        find_node (Canvas.nodes (updateNodeText i t st)) j
        = find_node (Canvas.nodes st) j).
Proof.
  split; [|split; [reflexivity|split; [reflexivity|split]]].
  - unfold updateNodeText. simpl. apply map_id_same.
    intros n. destruct (String.eqb (FlowNode.id n) i); reflexivity.
  - intros n Hn. now apply find_node_updateNodeText_same.
  - intros j Hj. now apply find_node_updateNodeText_other.
Qed.

Lemma updateNodeText_read_back_witness :
  find_node (Canvas.nodes (updateNodeText "node_0" "Welcome" initialCanvas)) "node_0"
  = Some (FlowNode.mk "node_0" (Some "textNode")
            (XYPosition.mk (Finite false (MMany p1 [] p8) 3)
               (Finite false (MMany p1 [] p8) 3))
            (TextNodeData.mk "Welcome") None None).
Proof.
  destruct (updateNodeText_read_back "node_0" "Welcome" initialCanvas)
    as [_ [_ [_ [H _]]]].
  apply (H (FlowNode.mk "node_0" (Some "textNode")
              (XYPosition.mk (Finite false (MMany p1 [] p8) 3)
                 (Finite false (MMany p1 [] p8) 3))
              (TextNodeData.mk "Hello! How can I help you today?") None None)).
  reflexivity.
Defined.

Lemma canvas_eq (a b : Canvas.t) :
  Canvas.nodeIdCounter a = Canvas.nodeIdCounter b ->
  Canvas.nodes a = Canvas.nodes b ->
  Canvas.edges a = Canvas.edges b ->
  a = b.
Proof.
  destruct a, b. simpl. congruence.
Qed.

(** Text edits compose as writes to cells: a second edit of the same node
    replaces the first, edits of different ids commute, and an edit for an
    id no node has leaves the canvas as it is. *)
Theorem updateNodeText_writes (i j t u : string) (st : Canvas.t) :
  updateNodeText i u (updateNodeText i t st) = updateNodeText i u st
  /\ (i <> j ->
      updateNodeText i t (updateNodeText j u st)
      = updateNodeText j u (updateNodeText i t st))
  /\ ((forall n, In n (Canvas.nodes st) -> FlowNode.id n <> i) ->
      updateNodeText i t st = st).
Proof.
  split; [|split].
  - apply canvas_eq; try reflexivity. unfold updateNodeText. simpl.
    rewrite map_map. apply map_ext. intros n.
    destruct (String.eqb (FlowNode.id n) i) eqn:E; simpl; now rewrite E.
  - intros Hne. apply canvas_eq; try reflexivity. unfold updateNodeText. simpl.
    rewrite !map_map. apply map_ext. intros n.
    destruct (String.eqb (FlowNode.id n) i) eqn:Ei;
      destruct (String.eqb (FlowNode.id n) j) eqn:Ej; simpl;
      rewrite ?Ei, ?Ej; try reflexivity.
    apply String.eqb_eq in Ei, Ej. congruence.
  - intros Hno. apply canvas_eq; try reflexivity. unfold updateNodeText. simpl.
    rewrite <- (map_id (Canvas.nodes st)) at 2. apply map_ext_in. intros n Hn.
    specialize (Hno n Hn). apply String.eqb_neq in Hno. now rewrite Hno.
Qed.

Lemma updateNodeText_writes_witness :
  let p := XYPosition.mk (Zero false) (Zero false) in
  let st := run [Drop "textNode" p] initialCanvas in
  updateNodeText "node_0" "a" (updateNodeText "node_1" "b" st)
  = updateNodeText "node_1" "b" (updateNodeText "node_0" "a" st)
  /\ updateNodeText "node_9" "lost" st = st.
Proof.
  intros p st.
  destruct (updateNodeText_writes "node_0" "node_1" "a" "b" st) as [_ [Hc _]].
  destruct (updateNodeText_writes "node_9" "node_1" "lost" "b" st) as [_ [_ Hn]].
  split.
  - apply Hc. discriminate.
  - apply Hn. intros n [<-|[<-|[]]]; discriminate.
Defined.

(* ------------------------------------------------------------------ *)
(** ** Drops and the id counter *)

(** Ids are handed out in sequence, up to 2^53: after any events the
    counter is one more than the number of drops that created a node so
    far, or 2^53 once that many were made, and the next node dropped gets
    the id [node_k] for that counter [k]; a drop that carries no node type
    creates nothing and uses up no id. *)
Theorem node_ids_are_consecutive (evs : list event) (type : string)
    (position : XYPosition.t) :
  let st := run evs initialCanvas in
  let k := N.min (1 + N.of_nat (List.length (filter creates_node evs))) MAX_COUNTER in
  Canvas.nodeIdCounter st = k
  /\ onDrop EmptyString position st = st
  /\ (type <> EmptyString ->
      map FlowNode.id (Canvas.nodes (onDrop type position st))
      = List.app (map FlowNode.id (Canvas.nodes st)) ["node_" ++ string_of_N k]).
Proof.
  intros st k.
  assert (Hk : Canvas.nodeIdCounter st = k) by apply initial_counter_exact.
  split; [exact Hk|]. split; [reflexivity|].
  intros Hty. unfold onDrop. apply String.eqb_neq in Hty. rewrite Hty.
  unfold generateNodeId. cbn [Canvas.nodes].
  rewrite map_app, Hk. reflexivity.
Qed.

Lemma node_ids_are_consecutive_witness :
  let p := XYPosition.mk (Zero false) (Zero false) in
  let evs := [Drop "textNode" p; Drop EmptyString p;
              NodesChanged [NodeRemove "node_1"]; Drop "textNode" p] in
  map FlowNode.id (Canvas.nodes (onDrop "textNode" p (run evs initialCanvas)))
  = ["node_0"; "node_2"; "node_3"].
Proof.
  intros p evs.
  destruct (node_ids_are_consecutive evs "textNode" p) as [_ [_ H]].
  rewrite H; [reflexivity | discriminate].
Defined.

(* ------------------------------------------------------------------ *)
(** ** The page: node count, selection and notifications *)

Lemma handle_page_event_node_count (ev : page_event) (b : Builder.t) :
  Builder.nodeCount b = List.length (Canvas.nodes (Builder.flow b)) ->
  Builder.nodeCount (handle_page_event ev b)
  = List.length (Canvas.nodes (Builder.flow (handle_page_event ev b))).
Proof.
  intros H. destruct ev as [e|sel|t| | |env]; simpl; try exact H.
  - destruct e as [type position|nodeId newText|c|changes|changes|]; simpl;
      try reflexivity.
    + destruct (String.eqb type EmptyString); [exact H | reflexivity].
    + rewrite H. symmetry. apply length_map.
    + rewrite H. unfold onConnect. destruct (isValidConnection _ _); reflexivity.
    + exact H.
  - destruct (Builder.selectedNodeId b) as [i|]; [|exact H].
    destruct (truthy (Some i)); [|exact H].
    rewrite H. symmetry. apply length_map.
  - unfold handleExportImage.
    destruct (exportFlowAsImage env) as [r|err]; [|exact H]. exact H.
Qed.

Lemma run_page_node_count (evs : list page_event) (b : Builder.t) :
  Builder.nodeCount b = List.length (Canvas.nodes (Builder.flow b)) ->
  Builder.nodeCount (run_page evs b)
  = List.length (Canvas.nodes (Builder.flow (run_page evs b))).
Proof.
  revert b. induction evs as [|ev evs IH]; intros b H; simpl; [exact H|].
  apply IH. now apply handle_page_event_node_count.
Qed.

(** On every page state reached from the first one, the node count the
    page keeps is the number of nodes on the canvas, so the export menu is
    disabled exactly when the canvas is empty. *)
Theorem page_node_count_is_canvas_size (evs : list page_event) :
  let b := run_page evs initialBuilder in
  Builder.nodeCount b = List.length (Canvas.nodes (Builder.flow b))
  /\ (export_disabled b = true <-> Canvas.nodes (Builder.flow b) = []).
Proof.
  intros b.
  assert (H : Builder.nodeCount b = List.length (Canvas.nodes (Builder.flow b)))
    by (apply run_page_node_count; reflexivity).
  split; [exact H|]. unfold export_disabled. rewrite H, Nat.eqb_eq.
  split; [apply length_zero_iff_nil | intros ->; reflexivity].
Qed.

Lemma last_cons_default {A : Type} (t d : A) (l : list A) :
  List.last (t :: l) d = List.last l t.
Proof.
  revert t d. induction l as [|x l IH]; intros t d; [reflexivity|].
  change (List.last (t :: x :: l) d) with (List.last (x :: l) d).
  rewrite IH. symmetry. apply IH.
Qed.

(** While a node stays selected, the text of the settings panel and the
    text of that node agree: selecting the node shows its text, and after
    any number of edits both hold the last text typed; the other nodes and
    the node count are left alone. *)
Theorem typing_keeps_panel_and_node_in_sync
    (b : Builder.t) (i : string) (n : FlowNode.t) (texts : list string) :
  find_node (Canvas.nodes (Builder.flow b)) i = Some n ->
  i <> EmptyString ->
  let b' := run_page (map TextTyped texts) (handleSelectionChange (Some i) b) in
  Builder.selectedNodeText b' = List.last texts (TextNodeData.text (FlowNode.data n))
  /\ find_node (Canvas.nodes (Builder.flow b')) i
     = Some (FlowNode.mk (FlowNode.id n) (FlowNode.type n) (FlowNode.position n)
               (TextNodeData.mk (Builder.selectedNodeText b'))
               (FlowNode.selected n) (FlowNode.dragging n))
  /\ (forall j, j <> i ->
        find_node (Canvas.nodes (Builder.flow b')) j
        = find_node (Canvas.nodes (Builder.flow b)) j)
  /\ Builder.nodeCount b' = Builder.nodeCount b
  /\ showSettingsPanel b' = true.
Proof.
  intros Hn Hi.
  assert (Hti : truthy (Some i) = true)
    by (simpl; apply negb_true_iff; now apply String.eqb_neq).
  set (b1 := handleSelectionChange (Some i) b).
  assert (J1 : Builder.selectedNodeId b1 = Some i
               /\ Builder.selectedNodeText b1 = TextNodeData.text (FlowNode.data n)
               /\ find_node (Canvas.nodes (Builder.flow b1)) i
                  = Some (FlowNode.mk (FlowNode.id n) (FlowNode.type n)
                            (FlowNode.position n)
                            (TextNodeData.mk (Builder.selectedNodeText b1))
                            (FlowNode.selected n) (FlowNode.dragging n))
               /\ (forall j, j <> i ->
                     find_node (Canvas.nodes (Builder.flow b1)) j
                     = find_node (Canvas.nodes (Builder.flow b)) j)
               /\ Builder.nodeCount b1 = Builder.nodeCount b).
  { unfold b1, handleSelectionChange. rewrite Hti, Hn. simpl.
    repeat split; try reflexivity. rewrite Hn.
    destruct n as [ni nt np [ntext] ns nd]. reflexivity. }
  clearbody b1. intros b'. subst b'.
  revert b1 J1. generalize (TextNodeData.text (FlowNode.data n)) as shown.
  induction texts as [|t texts IH]; intros shown b1 [Hid [Htx [Hf [Ho Hc]]]].
  - simpl. repeat split; try assumption. unfold showSettingsPanel. now rewrite Hid.
  - simpl map. simpl run_page.
    rewrite last_cons_default. apply IH.
    unfold handleTextChange. rewrite Hid, Hti. simpl.
    repeat split; try assumption.
    + apply (find_node_updateNodeText_same i t _ _ Hf).
    + intros j Hj. rewrite find_node_updateNodeText_other by exact Hj. now apply Ho.
Qed.

Lemma typing_keeps_panel_and_node_in_sync_witness :
  let b' := run_page [TextTyped "H"; TextTyped "Hi"]
              (handleSelectionChange (Some "node_0") initialBuilder) in
  Builder.selectedNodeText b' = "Hi"
  /\ option_map (fun n => TextNodeData.text (FlowNode.data n))
       (find_node (Canvas.nodes (Builder.flow b')) "node_0") = Some "Hi".
Proof.
  intros b'.
  destruct (typing_keeps_panel_and_node_in_sync initialBuilder "node_0"
              (FlowNode.mk "node_0" (Some "textNode")
                 (XYPosition.mk (Finite false (MMany p1 [] p8) 3)
                    (Finite false (MMany p1 [] p8) 3))
                 (TextNodeData.mk "Hello! How can I help you today?") None None)
              ["H"; "Hi"] eq_refl ltac:(discriminate)) as [Ht [Hf _]].
  split; [exact Ht|]. unfold b'.
  change (run_page [TextTyped "H"; TextTyped "Hi"])
    with (run_page (map TextTyped ["H"; "Hi"])).
  rewrite Hf. reflexivity.
Defined.

(** Without a selected node nothing is edited: when the selection is
    [null] or the empty id, typing changes no node; and selecting an id that
    no node has, or nothing, shows an empty text. *)
Theorem no_selection_no_edit (b : Builder.t) (t i : string) :
  (truthy (Builder.selectedNodeId b) = false ->
   Builder.flow (handleTextChange t b) = Builder.flow b)
  /\ (find_node (Canvas.nodes (Builder.flow b)) i = None ->
      Builder.selectedNodeText (handleSelectionChange (Some i) b) = EmptyString)
  /\ Builder.selectedNodeText (handleSelectionChange None b) = EmptyString
  /\ showSettingsPanel (handleSelectionChange None b) = false
  /\ Builder.flow (handleSelectionChange (Some i) b) = Builder.flow b.
Proof.
  split; [|split; [|repeat split]].
  - intros H. unfold handleTextChange. simpl.
    destruct (Builder.selectedNodeId b) as [j|]; [|reflexivity]. now rewrite H.
  - intros H. unfold handleSelectionChange. simpl. rewrite H.
    destruct (negb (String.eqb i EmptyString)); reflexivity.
Qed.

Lemma no_selection_no_edit_witness :
  Builder.flow (handleTextChange "typed" initialBuilder) = Builder.flow initialBuilder
  /\ Builder.selectedNodeText (handleSelectionChange (Some "node_5") initialBuilder)
     = EmptyString.
Proof.
  destruct (no_selection_no_edit initialBuilder "typed" "node_5") as [H1 [H2 _]].
  split; [apply H1; reflexivity | apply H2; reflexivity].
Defined.

(** When the image export returns, its result says [success: true]
    exactly when the canvas element was found and both the rasterization
    and the download returned, and a successful result carries no error
    text; every other result carries one.  The success object is returned
    exactly in that case, and the promise is rejected only when
    [console.error] throws on a value caught. *)
Theorem exportFlowAsImage_success_iff (env : Browser.t) :
  (exportFlowAsImage env = Returns (ImageExportResult.mk true None)
   <-> try_block_succeeds env)
  /\ (forall r,
        exportFlowAsImage env = Returns r ->
        (ImageExportResult.success r = true <-> try_block_succeeds env)
        /\ (ImageExportResult.success r = false
            <-> exists message, ImageExportResult.error r = Some message))
  /\ (forall e,
        exportFlowAsImage env = Throws e ->
        exists err,
          try_block_throws env err
          /\ Browser.console_error env "[exportFlowAsImage]" err = Throws e).
Proof.
  split; [|split; [|exact (exportFlowAsImage_throws_inv env)]].
  - split; [|apply exportFlowAsImage_succeeds].
    intros H.
    destruct (try_block_one_outcome env) as [[Hq _]|[[Hs _]|[err [Ht _]]]].
    + rewrite (exportFlowAsImage_not_found env Hq) in H. discriminate.
    + exact Hs.
    + rewrite (exportFlowAsImage_catches env err Ht) in H.
      destruct (image_export_catch_cases env err) as [[_ Hr]|[e' [_ Hr]]];
        rewrite Hr in H; discriminate.
  - intros r H.
    destruct (try_block_one_outcome env)
      as [[Hq [Hns _]]|[[Hs _]|[err [Ht [_ [Hns _]]]]]].
    + rewrite (exportFlowAsImage_not_found env Hq) in H. injection H as <-.
      cbn [ImageExportResult.success ImageExportResult.error]. split.
      * split; [discriminate | intros Hs; contradiction].
      * split; [intros _; eauto | reflexivity].
    + rewrite (exportFlowAsImage_succeeds env Hs) in H. injection H as <-.
      cbn [ImageExportResult.success ImageExportResult.error]. split.
      * split; [intros _; exact Hs | reflexivity].
      * split; [discriminate | intros [m Hm]; discriminate Hm].
    + rewrite (exportFlowAsImage_catches env err Ht) in H.
      destruct (image_export_catch_cases env err) as [[_ Hr]|[e' [_ Hr]]];
        rewrite Hr in H; [|discriminate]. injection H as <-.
      cbn [ImageExportResult.success ImageExportResult.error]. split.
      * split; [discriminate | intros Hs; contradiction].
      * split; [intros _; eauto | reflexivity].
Qed.

Lemma exportFlowAsImage_result_shape (env : Browser.t) (r : ImageExportResult.t) :
  exportFlowAsImage env = Returns r ->
  r = ImageExportResult.mk true None
  \/ exists message, r = ImageExportResult.mk false (Some message).
Proof.
  intros H.
  destruct (try_block_one_outcome env) as [[Hq _]|[[Hs _]|[err [Ht _]]]].
  - rewrite (exportFlowAsImage_not_found env Hq) in H. injection H as <-. eauto.
  - rewrite (exportFlowAsImage_succeeds env Hs) in H. injection H as <-. now left.
  - rewrite (exportFlowAsImage_catches env err Ht) in H.
    destruct (image_export_catch_cases env err) as [[_ Hr]|[e' [_ Hr]]];
      rewrite Hr in H; [|discriminate]. injection H as <-. eauto.
Qed.

(** Pressing the image export shows what the export returned and leaves
    the flow, the selection and the node count alone: the success text for
    the success object, and otherwise [Image export failed: ] followed by
    the error text of the result; the [Unknown error] default is never
    needed.  When the export is rejected the handler is rejected with the
    same value; that does not happen as long as [console.error] returns,
    and a notification is then always shown. *)
Theorem handleExportImage_notifies_the_result (env : Browser.t) (b : Builder.t) :
  (forall r,
      exportFlowAsImage env = Returns r ->
      exists b',
        handleExportImage env b = Returns b'
        /\ Builder.flow b' = Builder.flow b
        /\ Builder.selectedNodeId b' = Builder.selectedNodeId b
        /\ Builder.selectedNodeText b' = Builder.selectedNodeText b
        /\ Builder.nodeCount b' = Builder.nodeCount b
        /\ ((r = ImageExportResult.mk true None
             /\ Builder.notification b'
                = NotificationSuccess "Canvas exported as PNG successfully!")
            \/ (exists message,
                   r = ImageExportResult.mk false (Some message)
                   /\ Builder.notification b'
                      = NotificationError ("Image export failed: " ++ message))))
  /\ (forall e,
        exportFlowAsImage env = Throws e -> handleExportImage env b = Throws e)
  /\ ((forall err,
          try_block_throws env err ->
          Browser.console_error env "[exportFlowAsImage]" err = Returns tt) ->
      exists b',
        handleExportImage env b = Returns b'
        /\ Builder.notification b' <> NotificationIdle).
Proof.
  assert (Hret : forall r,
             exportFlowAsImage env = Returns r ->
             exists b',
               handleExportImage env b = Returns b'
               /\ Builder.flow b' = Builder.flow b
               /\ Builder.selectedNodeId b' = Builder.selectedNodeId b
               /\ Builder.selectedNodeText b' = Builder.selectedNodeText b
               /\ Builder.nodeCount b' = Builder.nodeCount b
               /\ ((r = ImageExportResult.mk true None
                    /\ Builder.notification b'
                       = NotificationSuccess "Canvas exported as PNG successfully!")
                   \/ (exists message,
                          r = ImageExportResult.mk false (Some message)
                          /\ Builder.notification b'
                             = NotificationError ("Image export failed: " ++ message)))).
  { intros r Hr. unfold handleExportImage. rewrite Hr.
    destruct (exportFlowAsImage_result_shape env r Hr) as [->|[message ->]].
    - eexists. split; [reflexivity|]. repeat split. left. split; reflexivity.
    - eexists. split; [reflexivity|]. repeat split. right. exists message.
      split; reflexivity. }
  split; [exact Hret|]. split.
  - intros e He. unfold handleExportImage. now rewrite He.
  - intros Hlog.
    destruct (exportFlowAsImage env) as [r|e] eqn:Hr.
    + destruct (Hret r eq_refl) as [b' [Hb [_ [_ [_ [_ Hn]]]]]].
      exists b'. split; [exact Hb|].
      destruct Hn as [[_ ->]|[message [_ ->]]]; discriminate.
    + destruct (exportFlowAsImage_throws_inv env e Hr) as [err [Ht Hc]].
      rewrite (Hlog err Ht) in Hc. discriminate.
Qed.

Lemma handleExportImage_notifies_the_result_witness :
  let env :=
    Browser.mk (fun _ => Returns None) (fun _ _ => Returns "data:image/png;base64,")
      (fun _ _ => Returns tt) (fun _ _ => Throws (ErrorInstance "console is closed")) in
  exists b',
    handleExportImage env initialBuilder = Returns b'
    /\ Builder.notification b'
       = NotificationError "Image export failed: Could not find the flow canvas element.".
Proof.
  intros env.
  destruct (proj1 (handleExportImage_notifies_the_result env initialBuilder)
              (ImageExportResult.mk false
                 (Some "Could not find the flow canvas element.")) eq_refl)
    as [b' [Hb [_ [_ [_ [_ Hn]]]]]].
  exists b'. split; [exact Hb|].
  destruct Hn as [[Hr _]|[message [Hr Hn]]]; [discriminate Hr|].
  injection Hr as <-. exact Hn.
Defined.

(* ------------------------------------------------------------------ *)
(** ** What the exported file depends on *)

Lemma ExportedNode_applyNodeChange_select (i : string) (sel : bool)
    (nodes : list FlowNode.t) :
  map ExportedNode (applyNodeChange (NodeSelect i sel) nodes) = map ExportedNode nodes.
Proof.
  simpl. rewrite map_map. apply map_ext. intros n.
  destruct (String.eqb (FlowNode.id n) i); reflexivity.
Qed.

Lemma ExportedEdge_applyEdgeChange_select (i : string) (sel : bool)
    (edges : list FlowEdge.t) :
  map ExportedEdge (applyEdgeChange (EdgeSelect i sel) edges) = map ExportedEdge edges.
Proof.
  simpl. rewrite map_map. apply map_ext. intros e.
  destruct (String.eqb (FlowEdge.id e) i); reflexivity.
Qed.

Lemma ExportedNode_select_changes (chs : list NodeChange) (nodes : list FlowNode.t) :
  forallb is_node_select chs = true ->
  map ExportedNode (fold_left (fun nds ch => applyNodeChange ch nds) chs nodes)
  = map ExportedNode nodes.
Proof.
  revert nodes. induction chs as [|ch chs IH]; intros nodes H; simpl; [reflexivity|].
  simpl in H. apply andb_true_iff in H. destruct H as [Hch Hchs].
  rewrite (IH _ Hchs). destruct ch as [i|i p d|i s]; try discriminate Hch.
  apply ExportedNode_applyNodeChange_select.
Qed.

Lemma ExportedEdge_select_changes (chs : list EdgeChange) (edges : list FlowEdge.t) :
  forallb is_edge_select chs = true ->
  map ExportedEdge (fold_left (fun eds ch => applyEdgeChange ch eds) chs edges)
  = map ExportedEdge edges.
Proof.
  revert edges. induction chs as [|ch chs IH]; intros edges H; simpl; [reflexivity|].
  simpl in H. apply andb_true_iff in H. destruct H as [Hch Hchs].
  rewrite (IH _ Hchs). destruct ch as [i|i s]; try discriminate Hch.
  apply ExportedEdge_applyEdgeChange_select.
Qed.

(** Selecting and deselecting nodes and edges does not change the exported
    file: the export reads none of the selection flags. *)
Theorem export_ignores_selection (today : Date.t) (st : Canvas.t)
    (nodeChanges : list NodeChange) (edgeChanges : list EdgeChange) :
  forallb is_node_select nodeChanges = true ->
  forallb is_edge_select edgeChanges = true ->
  let st' := handleEdgesChange edgeChanges (handleNodesChange nodeChanges st) in
  exportFlowAsJSON today (Canvas.nodes st') (Canvas.edges st')
  = exportFlowAsJSON today (Canvas.nodes st) (Canvas.edges st).
Proof.
  intros Hn He st'. unfold exportFlowAsJSON, ExportedFlow, st'. simpl.
  now rewrite ExportedNode_select_changes, ExportedEdge_select_changes.
Qed.

Lemma export_ignores_selection_witness :
  let st := run [Connected (scenario_proposal "node_0" "node_1")] initialCanvas in
  let st' := handleEdgesChange [EdgeSelect "reactflow__edge-node_0source-node_1target" true]
               (handleNodesChange [NodeSelect "node_0" true] st) in
  Canvas.nodes st' <> Canvas.nodes st
  /\ exportFlowAsJSON (Date.mk 2024 0 5) (Canvas.nodes st') (Canvas.edges st')
     = exportFlowAsJSON (Date.mk 2024 0 5) (Canvas.nodes st) (Canvas.edges st).
Proof.
  intros st st'. split; [discriminate|].
  apply (export_ignores_selection (Date.mk 2024 0 5) st
           [NodeSelect "node_0" true]
           [EdgeSelect "reactflow__edge-node_0source-node_1target" true]);
    reflexivity.
Defined.

Lemma number_image_inj (x y : number) :
  isFinite x = true -> isFinite y = true ->
  number_image x = number_image y -> number_strict_eq x y = true.
Proof.
  destruct x as [| | |a|a s n], y as [| | |b|b t m]; simpl;
    intros Hx Hy H; try discriminate; [reflexivity|].
  injection H as -> -> ->.
  now rewrite Bool.eqb_reflx, digits_eqb_refl, Z.eqb_refl.
Qed.

Lemma exported_node_inj (a b : FlowNode.t) :
  finite_position a = true -> finite_position b = true ->
  json_image (ExportedNode a) = json_image (ExportedNode b) ->
  same_exported_node a b.
Proof.
  destruct a as [ai aty [ax ay] [atx] asel adr], b as [bi bty [bx by_] [btx] bsel bdr].
  unfold finite_position, same_exported_node. simpl.
  intros Ha Hb. apply andb_true_iff in Ha, Hb.
  destruct Ha as [Hax Hay], Hb as [Hbx Hby].
  destruct aty as [at_|], bty as [bt|]; simpl; intros H;
    injection H; intros; subst; try discriminate;
    repeat split; try reflexivity; try congruence;
    now apply number_image_inj.
Qed.

Lemma cons_eq_inv {A : Type} (x y : A) (l l' : list A) :
  x :: l = y :: l' -> x = y /\ l = l'.
Proof.
  intros H. injection H as -> ->. now split.
Qed.

Lemma exported_nodes_inj (l1 l2 : list FlowNode.t) :
  forallb finite_position l1 = true -> forallb finite_position l2 = true ->
  map (fun n => json_image (ExportedNode n)) l1
  = map (fun n => json_image (ExportedNode n)) l2 ->
  Forall2 same_exported_node l1 l2.
Proof.
  revert l2. induction l1 as [|a l1 IH]; intros [|b l2] H1 H2 H;
    try discriminate H; [constructor|].
  cbn [map] in H. apply cons_eq_inv in H. destruct H as [Hab Hl].
  simpl in H1, H2. apply andb_true_iff in H1. apply andb_true_iff in H2.
  destruct H1 as [Ha H1], H2 as [Hb H2].
  constructor; [now apply exported_node_inj | now apply IH].
Qed.

Lemma exported_edges_inj (l1 l2 : list FlowEdge.t) :
  map (fun e => json_image (ExportedEdge e)) l1
  = map (fun e => json_image (ExportedEdge e)) l2 ->
  map edge_triple l1 = map edge_triple l2.
Proof.
  revert l2. induction l1 as [|a l1 IH]; intros [|b l2] H;
    try discriminate H; [reflexivity|].
  cbn [map] in H |- *. apply cons_eq_inv in H. destruct H as [Hab Hl].
  f_equal; [|now apply IH].
  destruct a, b. simpl in Hab. injection Hab as -> -> ->. reflexivity.
Qed.

(** The exported file determines the graph it was made from: two graphs
    with finite coordinates whose exports have the same text have, node by
    node, the same ids, types, texts and coordinates (under [===]), and the
    same (id, source, target) triples, edge by edge. *)
Theorem exported_text_determines_graph (today1 today2 : Date.t)
    (nodes1 nodes2 : list FlowNode.t) (edges1 edges2 : list FlowEdge.t) :
  forallb finite_position nodes1 = true ->
  forallb finite_position nodes2 = true ->
  Download.content (exportFlowAsJSON today1 nodes1 edges1)
  = Download.content (exportFlowAsJSON today2 nodes2 edges2) ->
  Forall2 same_exported_node nodes1 nodes2
  /\ map edge_triple edges1 = map edge_triple edges2.
Proof.
  intros H1 H2 Heq.
  pose proof (exportFlowAsJSON_parses today1 nodes1 edges1) as P1.
  pose proof (exportFlowAsJSON_parses today2 nodes2 edges2) as P2.
  rewrite Heq, P2, !json_image_ExportedFlow in P1.
  injection P1 as Hn He.
  split; [apply exported_nodes_inj; auto | apply exported_edges_inj; auto].
Qed.

Lemma exported_text_determines_graph_witness :
  let a := FlowNode.mk "node_1" None (XYPosition.mk (Zero true) (Zero false))
             (TextNodeData.mk "Hi") (Some true) None in
  let b := FlowNode.mk "node_1" None (XYPosition.mk (Zero false) (Zero false))
             (TextNodeData.mk "Hi") None (Some false) in
  Forall2 same_exported_node [a] [b].
Proof.
  intros a b.
  apply (exported_text_determines_graph (Date.mk 2024 0 5) (Date.mk 2025 11 31)
           [a] [b] [] []); reflexivity.
Defined.

(* ------------------------------------------------------------------ *)
(** ** One file name per day *)

Lemma append_same_length_suffix (a a' b b' : string) :
  a ++ b = a' ++ b' -> String.length b = String.length b' -> a = a' /\ b = b'.
Proof.
  revert a'. induction a as [|x a IH]; intros [|y a'] H Hl; simpl in H.
  - now split.
  - apply (f_equal String.length) in H. simpl in H. rewrite length_append in H. lia.
  - apply (f_equal String.length) in H. simpl in H. rewrite length_append in H. lia.
  - injection H as -> H. destruct (IH a' H Hl) as [-> ->]. now split.
Qed.

Lemma string_of_N_head (n : N) :
  exists d r, string_of_N n = String (char_of_digit d) r.
Proof.
  unfold string_of_N. pose proof (digits_of_N_nonempty n) as H.
  destruct (digits_of_N n) as [|d ds]; [congruence|].
  exists d. eexists. reflexivity.
Qed.

Lemma string_of_Z_inj (a b : Z) : string_of_Z a = string_of_Z b -> a = b.
Proof.
  unfold string_of_Z.
  destruct (Z.ltb_spec a 0) as [Ha|Ha], (Z.ltb_spec b 0) as [Hb|Hb]; intros H.
  - simpl in H. injection H as H. apply string_of_N_inj in H. lia.
  - destruct (string_of_N_head (Z.abs_N b)) as [d [r Hd]]. rewrite Hd in H.
    simpl in H. injection H as H _. destruct d; discriminate H.
  - destruct (string_of_N_head (Z.abs_N a)) as [d [r Hd]]. rewrite Hd in H.
    simpl in H. injection H as H _. destruct d; discriminate H.
  - apply string_of_N_inj in H. lia.
Qed.

Lemma two_digits_inj (a b : N) :
  (a < 100)%N -> (b < 100)%N -> two_digits a = two_digits b -> a = b.
Proof.
  intros Ha Hb H.
  assert (Hall : forallb (fun x =>
                            forallb (fun y =>
                                       implb (String.eqb (two_digits (N.of_nat x))
                                                (two_digits (N.of_nat y)))
                                         (Nat.eqb x y)) (seq 0 100)) (seq 0 100) = true)
    by (vm_compute; reflexivity).
  rewrite forallb_forall in Hall.
  specialize (Hall (N.to_nat a) ltac:(apply in_seq; lia)).
  rewrite forallb_forall in Hall.
  specialize (Hall (N.to_nat b) ltac:(apply in_seq; lia)).
  rewrite !N2Nat.id, H, String.eqb_refl in Hall. simpl in Hall.
  apply Nat.eqb_eq in Hall. lia.
Qed.

(** Two exports get the same file name only on the same calendar day:
    the name determines the year, the month and the day. *)
Theorem export_filename_determines_date (d1 d2 : Date.t)
    (nodes1 nodes2 : list FlowNode.t) (edges1 edges2 : list FlowEdge.t) :
  valid_date d1 -> valid_date d2 ->
  Download.filename (exportFlowAsJSON d1 nodes1 edges1)
  = Download.filename (exportFlowAsJSON d2 nodes2 edges2) ->
  d1 = d2.
Proof.
  intros V1 V2 H.
  unfold exportFlowAsJSON, triggerDownload in H. cbn [Download.filename] in H.
  rewrite (getTodayString_valid d1 V1), (getTodayString_valid d2 V2) in H.
  destruct V1 as [Hm1 [Hd1 Hd1']], V2 as [Hm2 [Hd2 Hd2']].
  destruct d1 as [y1 m1 day1], d2 as [y2 m2 day2].
  cbn [Date.getFullYear Date.getMonth Date.getDate] in *.
  assert (L : forall n, String.length (two_digits n) = 2) by reflexivity.
  pose proof (L (m1 + 1)%N) as Lm1. pose proof (L (m2 + 1)%N) as Lm2.
  pose proof (L day1) as Ld1. pose proof (L day2) as Ld2.
  remember (two_digits (m1 + 1)) as tm1 eqn:Em1.
  remember (two_digits (m2 + 1)) as tm2 eqn:Em2.
  remember (two_digits day1) as td1 eqn:Ed1.
  remember (two_digits day2) as td2 eqn:Ed2.
  cbn [append] in H. injection H as H.
  apply append_same_length_suffix in H; [|reflexivity]. destruct H as [H _].
  apply append_same_length_suffix in H;
    [|cbn [String.length]; rewrite !length_append; cbn [String.length]; congruence].
  destruct H as [Hy H]. injection H as H.
  apply append_same_length_suffix in H; [|cbn [String.length]; congruence].
  destruct H as [Hm H]. injection H as Hd. subst tm1 tm2 td1 td2.
  apply string_of_Z_inj in Hy. apply two_digits_inj in Hm, Hd; try lia.
  f_equal; lia.
Qed.

Lemma export_filename_determines_date_witness :
  valid_date (Date.mk 2024 0 5)
  /\ Download.filename (exportFlowAsJSON (Date.mk 2024 0 5) [] [])
     = Download.filename (exportFlowAsJSON (Date.mk 2024 0 5) initialNodes [])
  /\ Date.mk 2024 0 5 = Date.mk 2024 0 5.
Proof.
  assert (V : valid_date (Date.mk 2024 0 5)) by (unfold valid_date; simpl; lia).
  split; [exact V|]. split; [reflexivity|].
  apply (export_filename_determines_date _ _ [] initialNodes [] [] V V).
  reflexivity.
Defined.

(* ------------------------------------------------------------------ *)
(** ** The export menu *)

Lemma menu_step_pending (disabled : bool) (ev : menu_event) (m : ExportMenu.t) :
  ExportMenu.pending m = (if ExportMenu.imageLoading m then 1 else 0) ->
  let m' := fst (menu_step disabled ev m) in
  ExportMenu.pending m' = (if ExportMenu.imageLoading m' then 1 else 0).
Proof.
  destruct m as [o l p]. cbn [ExportMenu.pending ExportMenu.imageLoading].
  intros Hp. destruct ev as [|inside| | |]; cbn.
  - destruct disabled; exact Hp.
  - destruct o; [destruct inside|]; exact Hp.
  - destruct o; exact Hp.
  - destruct o, l; cbn; try exact Hp. now rewrite Hp.
  - destruct p as [|k]; cbn; [exact Hp|]. destruct l; [now injection Hp|discriminate].
Qed.

Lemma run_menu_pending (evs : list (bool * menu_event)) (m : ExportMenu.t) :
  ExportMenu.pending m = (if ExportMenu.imageLoading m then 1 else 0) ->
  let m' := fst (run_menu evs m) in
  ExportMenu.pending m' = (if ExportMenu.imageLoading m' then 1 else 0).
Proof.
  revert m. induction evs as [|[disabled ev] rest IH]; intros m Hp; [exact Hp|].
  cbn [run_menu]. pose proof (menu_step_pending disabled ev m Hp) as H1.
  destruct (menu_step disabled ev m) as [m1 calls1]. cbn [fst] in H1.
  specialize (IH m1 H1). destruct (run_menu rest m1) as [m2 calls2]. exact IH.
Qed.

(** A mounted export menu never awaits two image exports at once,
    whatever is clicked and whenever the export settles; and the loading
    flag is set exactly while one is awaited. *)
Theorem image_exports_never_overlap (evs : list (bool * menu_event)) :
  let m := fst (run_menu evs ExportMenu.initial) in
  ExportMenu.pending m <= 1
  /\ (ExportMenu.imageLoading m = true <-> ExportMenu.pending m = 1).
Proof.
  pose proof (run_menu_pending evs ExportMenu.initial eq_refl) as H.
  cbv zeta in *. destruct (ExportMenu.imageLoading _); rewrite H.
  - split; [lia|]. split; reflexivity.
  - split; [lia|]. split; discriminate.
Qed.

(** A closed menu that stays disabled (an empty canvas) stays closed
    and calls neither export, whatever is clicked. *)
Theorem disabled_closed_menu_exports_nothing
    (evs : list (bool * menu_event)) (m : ExportMenu.t) :
  ExportMenu.isOpen m = false ->
  forallb fst evs = true ->
  ExportMenu.isOpen (fst (run_menu evs m)) = false /\ snd (run_menu evs m) = [].
Proof.
  revert m. induction evs as [|[disabled ev] rest IH]; intros m Hc Hd.
  - now split.
  - cbn [forallb fst] in Hd. apply andb_true_iff in Hd. destruct Hd as [-> Hd].
    cbn [run_menu].
    assert (H1 : exists m1, menu_step true ev m = (m1, [])
                            /\ ExportMenu.isOpen m1 = false).
    { destruct m as [o l p]. cbn [ExportMenu.isOpen] in Hc. subst o.
      destruct ev as [|inside| | |]; cbn; try (eexists; split; reflexivity).
      destruct p; eexists; split; reflexivity. }
    destruct H1 as [m1 [-> Hc1]]. specialize (IH m1 Hc1 Hd).
    destruct (run_menu rest m1) as [m2 calls2]. exact IH.
Qed.

Lemma disabled_closed_menu_exports_nothing_witness :
  let evs := [(true, TriggerClicked); (true, JSONItemClicked);
              (true, ImageItemClicked); (true, ImageExportSettled)] in
  let m := ExportMenu.mk false true 1 in
  ExportMenu.isOpen (fst (run_menu evs m)) = false /\ snd (run_menu evs m) = [].
Proof.
  intros evs m.
  exact (disabled_closed_menu_exports_nothing evs m eq_refl eq_refl).
Defined.

(* ------------------------------------------------------------------ *)
(** ** The notification timer *)

Lemma showNotification_timers (n : NotificationState) (s : Toast.t) :
  toast_invariant s ->
  Toast.timers (Toast.showNotification n s)
  = [(Toast.nextTimerId s, (Toast.now s + NOTIFICATION_DURATION)%N)].
Proof.
  intros [He|[id [due [He [Hr Hid]]]]]; unfold Toast.showNotification;
    cbn [Toast.timers]; rewrite He.
  - destruct (Toast.notifTimerRef s) as [i|]; [destruct (N.eqb i 0)|]; reflexivity.
  - rewrite Hr. apply N.eqb_neq in Hid. rewrite Hid.
    unfold Toast.clearTimeout. cbn [filter fst]. rewrite N.eqb_refl. reflexivity.
Qed.

Lemma toast_step_invariant (ev : toast_event) (s : Toast.t) :
  (0 < Toast.nextTimerId s)%N /\ toast_invariant s ->
  (0 < Toast.nextTimerId (toast_step ev s))%N /\ toast_invariant (toast_step ev s).
Proof.
  intros [Hn Hi]. destruct ev as [n|dt|id]; cbn [toast_step].
  - split; [cbn; lia|]. right.
    exists (Toast.nextTimerId s), (Toast.now s + NOTIFICATION_DURATION)%N.
    split; [now apply showNotification_timers|]. split; [reflexivity|lia].
  - split; [exact Hn|exact Hi].
  - unfold Toast.fire.
    destruct (existsb _ (Toast.timers s)); [|split; assumption].
    split; [exact Hn|]. destruct Hi as [He|[i [due [He [Hr Hid]]]]].
    + left. cbn [Toast.timers]. now rewrite He.
    + cbn [Toast.timers]. rewrite He. unfold Toast.clearTimeout. cbn [filter fst].
      destruct (N.eqb i id); cbn [negb]; [now left|].
      right. exists i, due. repeat split; assumption.
Qed.

Lemma run_toast_invariant (evs : list toast_event) (s : Toast.t) :
  (0 < Toast.nextTimerId s)%N /\ toast_invariant s ->
  (0 < Toast.nextTimerId (run_toast evs s))%N /\ toast_invariant (run_toast evs s).
Proof.
  revert s. induction evs as [|ev rest IH]; intros s H; [exact H|].
  apply (IH (toast_step ev s)). now apply toast_step_invariant.
Qed.

Lemma initial_toast_invariant :
  (0 < Toast.nextTimerId Toast.initial)%N /\ toast_invariant Toast.initial.
Proof. split; [reflexivity|now left]. Qed.

Lemma quiet_run_keeps_notification (evs : list toast_event) (s : Toast.t) (id due : N) :
  forallb shows_nothing evs = true ->
  Toast.timers s = [(id, due)] ->
  (Toast.now s + elapsed evs < due)%N ->
  Toast.notification (run_toast evs s) = Toast.notification s.
Proof.
  revert s. induction evs as [|ev rest IH]; intros s Hq Ht Hd; [reflexivity|].
  cbn [forallb] in Hq. apply andb_true_iff in Hq. destruct Hq as [Hev Hq].
  destruct ev as [n|dt|i]; [discriminate| |].
  - change (run_toast (Elapsed dt :: rest) s)
      with (run_toast rest (Toast.elapse dt s)).
    cbn [elapsed] in Hd.
    rewrite (IH (Toast.elapse dt s) Hq Ht); [reflexivity|cbn [Toast.elapse Toast.now]; lia].
  - change (run_toast (TimerFired i :: rest) s)
      with (run_toast rest (Toast.fire i s)).
    cbn [elapsed] in Hd.
    assert (E : Toast.fire i s = s).
    { unfold Toast.fire. rewrite Ht. cbn [existsb fst snd].
      assert (L : N.leb due (Toast.now s) = false) by (apply N.leb_gt; lia).
      rewrite L, andb_false_r. reflexivity. }
    rewrite E. now apply IH.
Qed.

(** A notification is never dismissed early by the timer of an
    earlier one: whatever was shown before, a notification stays on screen
    as long as less than [NOTIFICATION_DURATION] has passed since it was
    shown, whichever timers the browser runs meanwhile. *)
Theorem notification_not_dismissed_early
    (before after : list toast_event) (n : NotificationState) :
  forallb shows_nothing after = true ->
  (elapsed after < NOTIFICATION_DURATION)%N ->
  Toast.notification
    (run_toast after (Toast.showNotification n (run_toast before Toast.initial)))
  = n.
Proof.
  intros Hq Hd.
  destruct (run_toast_invariant before _ initial_toast_invariant) as [_ Hi].
  remember (run_toast before Toast.initial) as s eqn:Es. clear Es.
  rewrite (quiet_run_keeps_notification after (Toast.showNotification n s)
             (Toast.nextTimerId s) (Toast.now s + NOTIFICATION_DURATION)%N Hq).
  - reflexivity.
  - now apply showNotification_timers.
  - cbn [Toast.showNotification Toast.now]. lia.
Qed.

Lemma notification_not_dismissed_early_witness :
  Toast.notification
    (run_toast [Elapsed 3000; TimerFired 1; Elapsed 499; TimerFired 2]
       (Toast.showNotification (NotificationError "second")
          (run_toast [Shown (NotificationSuccess "first"); Elapsed 3000]
             Toast.initial)))
  = NotificationError "second".
Proof.
  apply (notification_not_dismissed_early
           [Shown (NotificationSuccess "first"); Elapsed 3000]
           [Elapsed 3000; TimerFired 1; Elapsed 499; TimerFired 2]).
  - reflexivity.
  - vm_compute. reflexivity.
Defined.

